(** * cantools: bit numbering and the mixed-endian frame codec

    A shallow embedding of [cantools/database/utils.py] and of the bit
    numbering helpers of [cantools/database/diagnostics/formats/cdd.py].

    Conventions.  Python integers are [Z]; [//] and [%] with a positive
    divisor are [Z.div] and [Z.modulo] (both floor).  Python [str] is
    [string], a [dict] with string keys is a [gmap string _], a [bytes]
    object is the list of its byte values.  A raised exception is the
    [Raise] branch of [result].  The values, scales and offsets of the
    codec are Python ints: a step the program computes in binary
    floating point for them ends in [Raise FloatingPoint].  The floats
    cdd.py builds for a scale and an offset are IEEE 754 binary64
    numbers ([Float]), and [_decode_field_numbers] is [_decode_field]
    on them. *)

From stdpp Require Import gmap strings list fin_maps pretty.
From Stdlib Require Import ZArith Lia Ascii SpecFloat.

Local Open Scope Z_scope.

(** ** Python values, exceptions and results *)

Module Py.

(** A value of the [data] dictionary handed to the codec, or returned by
    it: a number or a choice name. *)
Inductive value : Type :=
| VInt (z : Z)
| VStr (s : string).

(** The exceptions the modelled code can raise.  [Error] is
    [cantools.errors.Error] with its argument tuple.  [BitstructError]
    is [bitstruct.Error] when a format is compiled, and the exception
    of the bitstruct implementation that compiled the format when a
    value is packed or a buffer unpacked: [bitstruct.Error] for the
    pure-Python one, another class for the C one.  [OverflowError] is
    raised for an int too large to convert to a float.  [FloatingPoint]
    is no exception of the program: it marks a step computed in binary
    floating point. *)
Inductive exn : Type :=
| Error (args : list string)
| NameError (name : string)
| KeyError (key : value)
| IndexError
| ValueError
| TypeError
| DivisionByZero
| InvalidOperation
| UnknownChoice (field choice : string)
| BitstructError
| OverflowError
| FloatingPoint.

Inductive result (A : Type) : Type :=
| Ok (a : A)
| Raise (e : exn).
Arguments Ok {A} a.
Arguments Raise {A} e.

#[global] Instance result_ret : MRet result := @Ok.

#[global] Instance result_bind : MBind result := fun A B k r =>
  match r with
  | Ok a => k a
  | Raise e => Raise e
  end.

#[global] Instance result_fmap : FMap result := fun A B f r =>
  match r with
  | Ok a => Ok (f a)
  | Raise e => Raise e
  end.

(** Looking a global name up in a module's namespace: an unbound name
    raises [NameError] when the expression is evaluated. *)
Definition lookup_global (globals : list string) (name : string) : result unit :=
  if bool_decide (name ∈ globals) then Ok tt else Raise (NameError name).

(** [raise Error(args)] evaluated in a module whose global names are
    [globals]: the callee [Error] is looked up before it is called. *)
Definition raise_Error {A : Type} (globals : list string) (args : list string)
  : result A :=
  match lookup_global globals "Error" with
  | Ok _ => Raise (Error args)
  | Raise e => Raise e
  end.

(** A Python number: an int, or a float of type [F]. *)
Inductive number (F : Type) : Type :=
| Int (z : Z)
| Float (f : F).
Arguments Int {F} z.
Arguments Float {F} f.

(** [str(v)]: an int in decimal, a string as it is. *)
Definition str (v : value) : string :=
  match v with
  | VInt z => pretty z
  | VStr s => s
  end.

(** [sep.join(l)] on a list of strings. *)
Definition join (sep : string) (l : list string) : string :=
  String.concat sep l.

(** [l[0]] and [l[-1]] on a list: the empty list has neither. *)
Definition first_item {A : Type} (l : list A) : result A :=
  match l with
  | x :: _ => Ok x
  | [] => Raise IndexError
  end.

Definition last_item {A : Type} (l : list A) : result A :=
  match last l with
  | Some x => Ok x
  | None => Raise IndexError
  end.

(** [d[key]] on a dictionary with string keys. *)
Definition getitem {A : Type} (d : gmap string A) (key : string) : result A :=
  match d !! key with
  | Some v => Ok v
  | None => Raise (KeyError (VStr key))
  end.

(** A bit string: the ['0'] and ['1'] characters of a Python string such
    as ['0011'], most significant first; [true] is ['1']. *)
Abbreviation bits := (list bool).

(** [int(s, 2)] on a bit string; the empty string is refused. *)
Definition uint_of_bits (s : bits) : Z :=
  fold_left (fun acc b => 2 * acc + Z.b2z b) s 0.

Definition int_base2 (s : bits) : result Z :=
  match s with
  | [] => Raise ValueError
  | _ => Ok (uint_of_bits s)
  end.

(** [bin(value + (1 << size))[3:]]: the [size] low bits of [value], most
    significant first. *)
Fixpoint bits_of_uint (size : nat) (value : Z) : bits :=
  match size with
  | O => []
  | S n => Z.testbit value (Z.of_nat n) :: bits_of_uint n value
  end.

(** A [bytes] object: byte values, each in [0, 256). *)
Abbreviation bytes := (list Z).

(** [int(binascii.hexlify(b), 16)]: the bytes read as one big-endian
    unsigned integer; [int('', 16)] is refused. *)
Definition uint_of_bytes (b : bytes) : Z :=
  fold_left (fun acc x => 256 * acc + x) b 0.

Definition int_hexlify (b : bytes) : result Z :=
  match b with
  | [] => Raise ValueError
  | _ => Ok (uint_of_bytes b)
  end.

(** The bits of a bytes object, each byte most significant bit first. *)
Definition bits_of_bytes (b : bytes) : bits :=
  mjoin (bits_of_uint 8 <$> b).

(** A bit string whose length is a multiple of eight, cut into bytes. *)
Fixpoint bytes_of_bits (s : bits) : bytes :=
  match s with
  | b7 :: b6 :: b5 :: b4 :: b3 :: b2 :: b1 :: b0 :: rest =>
      uint_of_bits [b7; b6; b5; b4; b3; b2; b1; b0] :: bytes_of_bits rest
  | _ => []
  end.

End Py.

Import Py.

(** ** The decimal module

    Python's [decimal] in its default context: 28 significant digits,
    rounding ROUND_HALF_EVEN, traps on InvalidOperation and
    DivisionByZero.  A finite [Decimal] is a signed coefficient and an
    exponent, denoting [coef * 10 ^ exp]; every operation returns the
    exact result rounded to the context precision.  The exponent limits
    (Emax = 999999) are not reached by the codec and are left out. *)

Module Decimal.

Record t : Type := mk { coef : Z; exp : Z }.

Definition prec : Z := 28.

(** [Decimal(n)] for an int: exact, whatever the number of digits. *)
Definition of_int (n : Z) : t := mk n 0.

Fixpoint digits_fuel (fuel : nat) (n : Z) : Z :=
  match fuel with
  | O => 1
  | S f => if n <? 10 then 1 else 1 + digits_fuel f (n / 10)
  end.

(** The number of decimal digits of [n] (one for zero). *)
Definition digits (n : Z) : Z :=
  digits_fuel (Z.to_nat (Z.log2 (Z.abs n))) (Z.abs n).

(** [a / b] rounded to the nearest integer, ties to the even one; the
    divisor is positive. *)
Definition div_half_even (a b : Z) : Z :=
  let q := a / b in
  let r := a mod b in
  if 2 * r <? b then q
  else if b <? 2 * r then q + 1
  else if Z.even q then q else q + 1.

(** Rounding a result to the context precision. *)
Definition fix_ (d : t) : t :=
  let n := digits (coef d) in
  if n <=? prec then d
  else let k := n - prec in mk (div_half_even (coef d) (10 ^ k)) (exp d + k).

(** [a - b]. *)
Definition sub (a b : t) : t :=
  let e := Z.min (exp a) (exp b) in
  fix_ (mk (coef a * 10 ^ (exp a - e) - coef b * 10 ^ (exp b - e)) e).

(** [n / d] for integers, [d] not zero, to [prec] significant digits. *)
Definition quotient (n d : Z) : t :=
  let s := Z.sgn n * Z.sgn d in
  let n := Z.abs n in
  let d := Z.abs d in
  if n =? 0 then mk 0 0
  else
    let e0 := digits n - digits d in
    let reaches := if 0 <=? e0 then d * 10 ^ e0 <=? n
                   else d <=? n * 10 ^ (- e0) in
    let e := if reaches then e0 else e0 - 1 in
    let k := prec - 1 - e in
    let c := if 0 <=? k then div_half_even (n * 10 ^ k) d
             else div_half_even n (d * 10 ^ (- k)) in
    mk (s * c) (- k).

(** [a / b]. *)
Definition div (a b : t) : result t :=
  if coef b =? 0
  then Raise (if coef a =? 0 then InvalidOperation else DivisionByZero)
  else
    let q := quotient (coef a) (coef b) in
    Ok (mk (coef q) (exp q + exp a - exp b)).

(** [int(d.to_integral())]: rounding to an integer in the context's
    rounding mode, with no rounding to the precision. *)
Definition to_integral (d : t) : Z :=
  if 0 <=? exp d then coef d * 10 ^ exp d
  else div_half_even (coef d) (10 ^ (- exp d)).

End Decimal.

(** ** Python floats

    A Python float is an IEEE 754 binary64 number: 53 bits of
    precision, exponents below 1024, every operation rounded to the
    nearest, ties to even.  The operations are those of the Standard
    Library's [SpecFloat].  An int that enters an operation with a
    float is converted first, and the conversion raises
    [OverflowError] when the nearest float would be infinite; the
    product and the sum of two floats never raise. *)

Module Float.

Definition t : Type := spec_float.

Definition prec : Z := 53.
Definition emax : Z := 1024.

Definition of_int (n : Z) : result t :=
  match binary_normalize prec emax n 0 false with
  | S754_infinity _ => Raise OverflowError
  | f => Ok f
  end.

Definition mul (x y : t) : t := SFmul prec emax x y.

Definition add (x y : t) : t := SFadd prec emax x y.

End Float.

(** [a * b] and [a + b] on numbers of either type: ints are multiplied
    and added exactly, and a float operand makes the operation one of
    floats. *)

Module Number.

Definition t : Type := number Float.t.

Definition to_float (a : t) : result Float.t :=
  match a with
  | Int z => Float.of_int z
  | Float f => Ok f
  end.

Definition mul (a b : t) : result t :=
  match a, b with
  | Int x, Int y => Ok (Int (x * y))
  | _, _ => x ← to_float a; y ← to_float b; Ok (Float (Float.mul x y))
  end.

Definition add (a b : t) : result t :=
  match a, b with
  | Int x, Int y => Ok (Int (x + y))
  | _, _ => x ← to_float a; y ← to_float b; Ok (Float (Float.add x y))
  end.

End Number.

(** ** The bitstruct library

    [bitstruct.compile(fmt, names)] and the [pack] and [unpack] of the
    compiled format, for the format types utils.py produces: [u]
    (unsigned), [s] (two's complement), [f] (float) and [p] (zero
    padding), all most significant bit first.  A format string such as
    ['p3u8'] is the list of its fields [("p", 3); ("u", 8)]. *)

Module Bitstruct.

Definition field : Type := ascii * Z.

Record info : Type := mk_info {
  type_ : ascii;
  size : Z;
  name : option string;
}.

Record CompiledFormatDict : Type := mk_compiled { infos : list info }.

Definition is_padding (ty : ascii) : bool := Ascii.eqb ty "p".

Definition is_value (ty : ascii) : bool :=
  Ascii.eqb ty "u" || Ascii.eqb ty "s" || Ascii.eqb ty "f".

(** [_parse_format]: a size that does not parse as a positive number is
    a bad format; each field other than padding takes the next name. *)
Fixpoint parse_format (fmt : list field) (names : list string)
  : result (list info) :=
  match fmt with
  | [] => Ok []
  | (ty, sz) :: rest =>
      if sz <=? 0 then Raise BitstructError
      else if is_padding ty then
        rest_infos ← parse_format rest names;
        Ok (mk_info ty sz None :: rest_infos)
      else if is_value ty then
        match names with
        | [] => Raise IndexError
        | n :: names' =>
            rest_infos ← parse_format rest names';
            Ok (mk_info ty sz (Some n) :: rest_infos)
        end
      else Raise BitstructError
  end.

Definition compile (fmt : list field) (names : list string)
  : result CompiledFormatDict :=
  mk_compiled <$> parse_format fmt names.

(** Packing one value: the integer must fit the field. *)
Definition pack_value (i : info) (v : Z) : result bits :=
  let n := Z.to_nat (size i) in
  if Ascii.eqb (type_ i) "u" then
    if (0 <=? v) && (v <? 2 ^ size i) then Ok (bits_of_uint n v)
    else Raise BitstructError
  else if Ascii.eqb (type_ i) "s" then
    if (- 2 ^ (size i - 1) <=? v) && (v <? 2 ^ (size i - 1))
    then Ok (bits_of_uint n (if v <? 0 then v + 2 ^ size i else v))
    else Raise BitstructError
  else Raise FloatingPoint.

(** The bit string of a format: padding is zeros, a named field is the
    value found under its name. *)
Fixpoint pack_bits (l : list info) (data : gmap string Z) : result bits :=
  match l with
  | [] => Ok []
  | i :: rest =>
      head ← match name i with
             | None => Ok (replicate (Z.to_nat (size i)) false)
             | Some n =>
                 match data !! n with
                 | None => Raise BitstructError
                 | Some v => pack_value i v
                 end
             end;
      tail ← pack_bits rest data;
      Ok (head ++ tail)
  end.

(** The bit string is filled with zeros up to a whole number of bytes. *)
Definition pad_to_byte (s : bits) : bits :=
  let tail := (Z.of_nat (length s)) mod 8 in
  if tail =? 0 then s else s ++ replicate (Z.to_nat (8 - tail)) false.

Definition pack (c : CompiledFormatDict) (data : gmap string Z) : result bytes :=
  s ← pack_bits (infos c) data;
  Ok (bytes_of_bits (pad_to_byte s)).

Definition unpack_value (i : info) (s : bits) : result Z :=
  if Ascii.eqb (type_ i) "u" then Ok (uint_of_bits s)
  else if Ascii.eqb (type_ i) "s" then
    Ok (match s with
        | true :: _ => uint_of_bits s - 2 ^ Z.of_nat (length s)
        | _ => uint_of_bits s
        end)
  else Raise FloatingPoint.

(** Reading the fields off a bit string, left to right; a later field
    of the same name replaces an earlier one in the dictionary. *)
Fixpoint unpack_bits (l : list info) (s : bits) (acc : gmap string Z)
  : result (gmap string Z) :=
  match l with
  | [] => Ok acc
  | i :: rest =>
      let n := Z.to_nat (size i) in
      match name i with
      | None => unpack_bits rest (drop n s) acc
      | Some nm =>
          v ← unpack_value i (take n s);
          unpack_bits rest (drop n s) (<[nm := v]> acc)
      end
  end.

Definition number_of_bits (l : list info) : Z :=
  foldr (fun i acc => size i + acc) 0 l.

Definition unpack (c : CompiledFormatDict) (data : bytes)
  : result (gmap string Z) :=
  let s := bits_of_bytes data in
  if Z.of_nat (length s) <? number_of_bits (infos c) then Raise BitstructError
  else unpack_bits (infos c) s ∅.

(** [bitstruct.pack('u{}'.format(length), value)]. *)
Definition pack_unsigned (length value : Z) : result bytes :=
  c ← compile [("u"%char, length)] ["0"%string];
  pack c {[ "0"%string := value ]}.

End Bitstruct.

(** ** Field descriptors

    The [Data] class (cantools/database/diagnostics/data.py) is not
    among the sources; the record holds the attributes utils.py and
    cdd.py read and write.  [choices] is the dictionary from raw value
    to name, in insertion order.  [scale] and [offset] are ints, as
    cdd.py leaves them for a data type without a COMP element; with
    one they are floats, and [Utils._decode_field_numbers] is the
    decoding of a field on numbers of either type. *)

Module Data.

Record t : Type := mk {
  name : string;
  start : Z;
  length : Z;
  byte_order : string;
  is_float : bool;
  is_signed : bool;
  scale : Z;
  offset : Z;
  choices : option (list (Z * string));
}.

Fixpoint lookup_choice (l : list (Z * string)) (key : Z) : option string :=
  match l with
  | [] => None
  | (k, s) :: rest => if k =? key then Some s else lookup_choice rest key
  end.

(** [field.choices[value]]: subscripting [None] is a [TypeError], a
    missing key a [KeyError]. *)
Definition choices_getitem (d : t) (key : Z) : result string :=
  match choices d with
  | None => Raise TypeError
  | Some l =>
      match lookup_choice l key with
      | Some s => Ok s
      | None => Raise (KeyError (VInt key))
      end
  end.

Fixpoint find_choice (l : list (Z * string)) (s : string) : option Z :=
  match l with
  | [] => None
  | (k, s') :: rest => if String.eqb s' s then Some k else find_choice rest s
  end.

(** Modelled from the spec: the method [choice_string_to_number] of the
    absent [Data] class.  A symbolic value is resolved through the
    field's choices to its raw integer key, and the encoding fails with
    [UnknownChoice], naming the field and the value, when there is no
    such entry. *)
Definition choice_string_to_number (d : t) (s : string) : result Z :=
  match choices d with
  | None => Raise (UnknownChoice (name d) s)
  | Some l =>
      match find_choice l s with
      | Some k => Ok k
      | None => Raise (UnknownChoice (name d) s)
      end
  end.

End Data.

(** ** utils.py *)

Module Utils.

(** The names bound at module level in utils.py: its imports, the
    [Formats] tuple and its functions.  [Error] is not among them. *)
Definition globals : list string :=
  [ "binascii"; "copy"; "Decimal"; "namedtuple"; "bitstruct"; "Formats";
    "format_or"; "format_and"; "start_bit"; "_encode_field";
    "_decode_field"; "encode_data"; "decode_data";
    "create_encode_decode_formats"; "linear_to_saw_tooth_bitnum";
    "cdd_to_dbc_start_bit"; "cdd_to_dbc_data" ]%string.

Record Formats : Type := mk_formats {
  big_endian : Bitstruct.CompiledFormatDict;
  little_endian : Bitstruct.CompiledFormatDict;
  padding_mask : Z;
}.

(** [items[:-1]] is [take (length items - 1) items]; the arguments of
    [str.format] are evaluated left to right, so that [items[-1]] is
    what fails on the empty list. *)
Definition format_or (items : list value) : result string :=
  let items := str <$> items in
  if (length items =? 1)%nat then first_item items
  else
    let head := join ", " (take (length items - 1) items) in
    last ← last_item items;
    Ok (head +:+ " or " +:+ last).

Definition format_and (items : list value) : result string :=
  let items := str <$> items in
  if (length items =? 1)%nat then first_item items
  else
    let head := join ", " (take (length items - 1) items) in
    last ← last_item items;
    Ok (head +:+ " and " +:+ last).

Definition start_bit (data : Data.t) : Z :=
  if String.eqb (Data.byte_order data) "big_endian"
  then 8 * (Data.start data / 8) + (7 - (Data.start data mod 8))
  else Data.start data.

Definition _encode_field (field : Data.t) (data : gmap string value)
    (scaling : bool) : result Z :=
  value ← getitem data (Data.name field);
  match value with
  | VStr s => Data.choice_string_to_number field s
  | VInt v =>
      if scaling then
        if Data.is_float field then Raise FloatingPoint
        else
          q ← Decimal.div
                 (Decimal.sub (Decimal.of_int v)
                              (Decimal.of_int (Data.offset field)))
                 (Decimal.of_int (Data.scale field));
          Ok (Decimal.to_integral q)
      else Ok v
  end.

Definition _decode_field (field : Data.t) (value : Z)
    (decode_choices scaling : bool) : result Py.value :=
  let fallback :=
    if scaling then Ok (VInt (Data.scale field * value + Data.offset field))
    else Ok (VInt value) in
  if decode_choices then
    match Data.choices_getitem field value with
    | Ok s => Ok (VStr s)
    | Raise (KeyError _) => fallback
    | Raise TypeError => fallback
    | Raise e => Raise e
    end
  else fallback.

(** [_decode_field] on a field whose scale and offset are numbers of
    either type, as cdd.py builds them: ints by default, floats for a
    data type with a COMP element.  The arguments are the attributes of
    the field the function reads; what it returns is a name of the
    choices or a number. *)
Inductive decoded : Type :=
| Name (s : string)
| Number (n : Number.t).

Definition choices_subscript (choices : option (list (Z * string)))
    (key : Z) : result string :=
  match choices with
  | None => Raise TypeError
  | Some l =>
      match Data.lookup_choice l key with
      | Some s => Ok s
      | None => Raise (KeyError (VInt key))
      end
  end.

Definition _decode_field_numbers (choices : option (list (Z * string)))
    (scale offset : Number.t) (value : Z) (decode_choices scaling : bool)
  : result decoded :=
  let fallback :=
    if scaling then
      product ← Number.mul scale (Int value);
      sum ← Number.add product offset;
      Ok (Number sum)
    else Ok (Number (Int value)) in
  if decode_choices then
    match choices_subscript choices value with
    | Ok s => Ok (Name s)
    | Raise (KeyError _) => fallback
    | Raise TypeError => fallback
    | Raise e => Raise e
    end
  else fallback.

(** A dictionary comprehension [{field.name: f(field) for field in
    fields}]: the values are computed in order, and a later field of
    the same name replaces an earlier one. *)
Fixpoint comprehension {A : Type} (f : Data.t -> result A)
    (fields : list Data.t) (acc : gmap string A) : result (gmap string A) :=
  match fields with
  | [] => Ok acc
  | field :: rest =>
      v ← f field;
      comprehension f rest (<[Data.name field := v]> acc)
  end.

Definition encode_data (data : gmap string value) (fields : list Data.t)
    (formats : Formats) (scaling : bool) : result Z :=
  if (length fields =? 0)%nat then Ok 0
  else
    unpacked ← comprehension (fun field => _encode_field field data scaling)
                 fields ∅;
    big_packed ← Bitstruct.pack (big_endian formats) unpacked;
    little_packed ← reverse <$> Bitstruct.pack (little_endian formats) unpacked;
    packed_union ← int_hexlify big_packed;
    little_union ← int_hexlify little_packed;
    Ok (Z.lor packed_union little_union).

Definition decode_data (data : bytes) (fields : list Data.t)
    (formats : Formats) (decode_choices scaling : bool)
  : result (gmap string value) :=
  unpacked ← Bitstruct.unpack (big_endian formats) data;
  little ← Bitstruct.unpack (little_endian formats) (reverse data);
  let unpacked : gmap string Z := little ∪ unpacked in
  comprehension
    (fun field =>
       raw ← getitem unpacked (Data.name field);
       _decode_field field raw decode_choices scaling)
    fields ∅.

(** *** create_encode_decode_formats *)

(** An item of a layout: the format field, the padding mask of its
    bits, and the name of the data it holds, if any. *)
Record item : Type := mk_item {
  item_fmt : Bitstruct.field;
  item_mask : bits;
  item_name : option string;
}.

Definition get_format_string_type (data : Data.t) : ascii :=
  if Data.is_float data then "f"%char
  else if Data.is_signed data then "s"%char
  else "u"%char.

(** ['1' * length] is empty when [length] is not positive. *)
Definition padding_item (length : Z) : item :=
  mk_item ("p"%char, length) (replicate (Z.to_nat length) true) None.

Definition data_item (data : Data.t) : item :=
  mk_item (get_format_string_type data, Data.length data)
          (replicate (Z.to_nat (Data.length data)) false)
          (Some (Data.name data)).

Definition fmt (items : list item) : list Bitstruct.field :=
  item_fmt <$> items.

Definition names (items : list item) : list string :=
  omap item_name items.

Definition mask_bits (items : list item) : bits :=
  mjoin (item_mask <$> items).

Definition items_padding_mask (items : list item) : Z :=
  match int_base2 (mask_bits items) with
  | Ok v => v
  | Raise _ => 0
  end.

(** One turn of the loop of [create_big], on the state [(items, start)]. *)
Definition create_big_step (st : list item * Z) (data : Data.t)
  : list item * Z :=
  let '(items, start) := st in
  if String.eqb (Data.byte_order data) "little_endian" then st
  else
    let padding_length := start_bit data - start in
    let items := if 0 <? padding_length
                 then items ++ [padding_item padding_length] else items in
    (items ++ [data_item data], start_bit data + Data.length data).

Definition create_big_items (datas : list Data.t) (format_length : Z)
  : list item :=
  let '(items, start) := fold_left create_big_step datas ([], 0) in
  if start <? format_length
  then items ++ [padding_item (format_length - start)]
  else items.

Definition create_big (datas : list Data.t) (format_length : Z)
  : list Bitstruct.field * Z * list string :=
  let items := create_big_items datas format_length in
  (fmt items, items_padding_mask items, names items).

(** One turn of the loop of [create_little], on the state [(items, end)]. *)
Definition create_little_step (st : list item * Z) (data : Data.t)
  : list item * Z :=
  let '(items, end_) := st in
  if String.eqb (Data.byte_order data) "big_endian" then st
  else
    let padding_length := end_ - (Data.start data + Data.length data) in
    let items := if 0 <? padding_length
                 then items ++ [padding_item padding_length] else items in
    (items ++ [data_item data], Data.start data).

Definition create_little_items (datas : list Data.t) (format_length : Z)
  : list item :=
  let '(items, end_) :=
    fold_left create_little_step (reverse datas) ([], format_length) in
  if 0 <? end_ then items ++ [padding_item end_] else items.

Definition create_little (datas : list Data.t) (format_length : Z)
  : result (list Bitstruct.field * Z * list string) :=
  let items := create_little_items datas format_length in
  let value := items_padding_mask items in
  value ←
    (if 0 <? format_length then
       let length := Z.of_nat (length (mask_bits items)) in
       packed ← Bitstruct.pack_unsigned length value;
       int_hexlify (reverse packed)
     else Ok value);
  Ok (fmt items, value, names items).

(** The code compiles each format with the C implementation of
    bitstruct and, when that raises, with the pure-Python one.  The two
    pack and unpack to the same bytes and values, and [Bitstruct] is
    the pure-Python one; a failing pack or unpack raises the exception
    of the implementation that compiled the format, [BitstructError]
    standing for it here. *)
Definition create_encode_decode_formats (datas : list Data.t)
    (number_of_bytes : Z) : result Formats :=
  let format_length := 8 * number_of_bytes in
  let '(big_fmt, big_padding_mask, big_names) :=
    create_big datas format_length in
  '(little_fmt, little_padding_mask, little_names) ←
    create_little datas format_length;
  big_compiled ← Bitstruct.compile big_fmt big_names;
  little_compiled ← Bitstruct.compile little_fmt little_names;
  Ok (mk_formats big_compiled little_compiled
        (Z.land big_padding_mask little_padding_mask)).

(** *** Bit numbering *)

Definition linear_to_saw_tooth_bitnum (linear_bit_num : Z) : Z :=
  let byte_num := linear_bit_num / 8 in
  let linear_bit_offset := linear_bit_num mod 8 in
  let saw_bit_offset := 7 - linear_bit_offset in
  (byte_num * 8) + saw_bit_offset.

Definition cdd_to_dbc_start_bit (byte_order : string)
    (linear_first_bit bit_len : Z) : result Z :=
  start_bit ←
    (if String.eqb byte_order "big_endian" then Ok linear_first_bit
     else if String.eqb byte_order "little_endian"
          then Ok (linear_first_bit + bit_len - 1)
          else raise_Error globals
                 [String.append "Unknown byte order: " byte_order]);
  Ok (linear_to_saw_tooth_bitnum start_bit).

(** [copy.copy] of the descriptor with its start bit replaced. *)
Definition cdd_to_dbc_data (cdd_data : Data.t) : result Data.t :=
  start ← cdd_to_dbc_start_bit (Data.byte_order cdd_data)
            (Data.start cdd_data) (Data.length cdd_data);
  Ok (Data.mk (Data.name cdd_data) start (Data.length cdd_data)
        (Data.byte_order cdd_data) (Data.is_float cdd_data)
        (Data.is_signed cdd_data) (Data.scale cdd_data)
        (Data.offset cdd_data) (Data.choices cdd_data)).

End Utils.

(** ** xml.etree.ElementTree

    The operations of an element that cdd.py uses.  [attrib] is the
    dictionary of the attributes in document order; [text] is [None]
    for an element without text. *)

Module ElementTree.

Class Interface (Element : Type) : Type := {
  find : Element -> string -> option Element;
  findall : Element -> string -> list Element;
  attrib : Element -> list (string * string);
  text : Element -> option string;
}.

End ElementTree.

(** A model of the interface: the element tree as a value, and the
    paths cdd.py uses, ['A/B/C'] and ['A/B[1]'], a tag selecting the
    children of that tag and [B[i]] the [i]-th child of tag [B] of its
    parent.  [find] is the first element [findall] returns. *)

Module Xml.

Inductive Element : Type :=
| Node (tag : string) (attrib : list (string * string))
       (text : option string) (children : list Element).

Definition tag (e : Element) : string := let 'Node t _ _ _ := e in t.
Definition attrib (e : Element) : list (string * string) :=
  let 'Node _ a _ _ := e in a.
Definition text (e : Element) : option string := let 'Node _ _ x _ := e in x.
Definition children (e : Element) : list Element := let 'Node _ _ _ c := e in c.

Inductive step : Type :=
| Child (tag : string)
| ChildAt (tag : string) (index : nat).

(** Cutting a string at the first occurrence of a character. *)
Fixpoint cut (c : ascii) (s : string) : string * option string :=
  match s with
  | EmptyString => (EmptyString, None)
  | String x rest =>
      if Ascii.eqb x c then (EmptyString, Some rest)
      else let '(before, after) := cut c rest in (String x before, after)
  end.

Fixpoint split_fuel (fuel : nat) (c : ascii) (s : string) : list string :=
  match fuel with
  | O => [s]
  | S fuel =>
      match cut c s with
      | (before, None) => [before]
      | (before, Some after) => before :: split_fuel fuel c after
      end
  end.

Definition split (c : ascii) (s : string) : list string :=
  split_fuel (String.length s) c s.

Fixpoint digits_value (s : string) (acc : nat) : nat :=
  match s with
  | EmptyString => acc
  | String x rest =>
      match Ascii.is_nat x with
      | Some d => digits_value rest (10 * acc + d)
      | None => acc
      end
  end.

Definition parse_step (segment : string) : step :=
  match cut "[" segment with
  | (t, None) => Child t
  | (t, Some index) => ChildAt t (digits_value index 0)
  end.

Definition parse_path (path : string) : list step :=
  parse_step <$> split "/" path.

Definition tagged (t : string) (e : Element) : list Element :=
  filter (fun c => tag c = t) (children e).

Definition select (s : step) (e : Element) : list Element :=
  match s with
  | Child t => tagged t e
  | ChildAt t index =>
      match index with
      | O => []
      | S i => option_list (tagged t e !! i)
      end
  end.

Fixpoint select_all (path : list step) (elems : list Element) : list Element :=
  match path with
  | [] => elems
  | s :: rest => select_all rest (elems ≫= select s)
  end.

Definition findall (e : Element) (path : string) : list Element :=
  select_all (parse_path path) [e].

Definition find (e : Element) (path : string) : option Element :=
  head (findall e path).

#[global] Instance interface : ElementTree.Interface Element :=
  {| ElementTree.find := find;
     ElementTree.findall := findall;
     ElementTree.attrib := attrib;
     ElementTree.text := text |}.

End Xml.

(** ** cdd.py *)

Module Cdd.

(** cdd.py imports [Error] from [cantools.errors]. *)
Definition globals : list string :=
  [ "logging"; "ElementTree"; "Data"; "Did"; "InternalDatabase"; "Error";
    "LOGGER"; "saw_tooth_from_linear_bitnum";
    "saw_tooth_start_from_linear_bitnum"; "DataType"; "_load_choices";
    "_load_data_types"; "_load_data_element"; "_load_did_element";
    "load_string" ]%string.

Definition saw_tooth_from_linear_bitnum (linear_bit_num : Z) : Z :=
  let byte_num := linear_bit_num / 8 in
  let linear_bit_offset := linear_bit_num mod 8 in
  let saw_bit_offset := 7 - linear_bit_offset in
  (byte_num * 8) + saw_bit_offset.

Definition saw_tooth_start_from_linear_bitnum (byte_order : string)
    (linear_first_bit bit_len : Z) : result Z :=
  start_bit ←
    (if String.eqb byte_order "big_endian" then Ok linear_first_bit
     else if String.eqb byte_order "little_endian"
          then Ok (linear_first_bit + bit_len - 1)
          else raise_Error globals
                 [String.append "Unknown byte order: " byte_order]);
  Ok (saw_tooth_from_linear_bitnum start_bit).

(** The byte-order decoding step of [_load_data_types], on the [bo]
    attribute of a CVALUETYPE element.  The message and the code are
    passed to [Error] as two arguments. *)
Definition load_byte_order (bo_code : string) : result string :=
  if String.eqb bo_code "21" then Ok "big_endian"%string
  else if String.eqb bo_code "12" then Ok "little_endian"%string
  else raise_Error globals ["Unsupported byte order code '%s'."; bo_code]%string.

(** [_load_data_element] after [_load_data_types]: the start bit of a
    field whose type has byte-order code [bo_code] and [bit_length]
    bits, found at the cumulative linear [offset]. *)
Definition load_start_bit (bo_code : string) (offset bit_length : Z)
  : result Z :=
  byte_order ← load_byte_order bo_code;
  saw_tooth_start_from_linear_bitnum byte_order offset bit_length.

(** *** The loader

    The loader reads an element tree through [ElementTree.Interface],
    and converts text with the builtins [int] and [float], which are
    parameters here, [float] returning a value of a type [F] of
    floating-point numbers.  The calls of [LOGGER.debug] have no effect
    on what is loaded and are left out. *)

(** What stops the loader: an exception, or the [AttributeError] of
    an attribute looked up on [None]. *)
Inductive failure : Type :=
| Raised (e : exn)
| AttributeError (attribute : string).

Inductive loading (A : Type) : Type :=
| Loaded (a : A)
| Failed (f : failure).
Arguments Loaded {A} a.
Arguments Failed {A} f.

#[global] Instance loading_ret : MRet loading := @Loaded.

#[global] Instance loading_bind : MBind loading := fun A B k r =>
  match r with
  | Loaded a => k a
  | Failed f => Failed f
  end.

Definition lift {A : Type} (r : result A) : loading A :=
  match r with
  | Ok a => Loaded a
  | Raise e => Failed (Raised e)
  end.

(** [x.attribute], where [x] may be [None]. *)
Definition getattr {A B : Type} (x : option A) (attribute : string)
    (get : A -> B) : loading B :=
  match x with
  | Some a => Loaded (get a)
  | None => Failed (AttributeError attribute)
  end.

(** A loop over a list that an exception leaves. *)
Fixpoint for_each {A S : Type} (body : S -> A -> loading S) (l : list A)
    (s : S) : loading S :=
  match l with
  | [] => Loaded s
  | x :: rest => s' ← body s x; for_each body rest s'
  end.

(** [d[key]] on the attributes of an element, and [d[key] = value] on
    a dictionary kept in insertion order. *)
Fixpoint dict_get {K V : Type} `{EqDecision K} (d : list (K * V)) (key : K)
  : option V :=
  match d with
  | [] => None
  | (k, v) :: rest => if decide (k = key) then Some v else dict_get rest key
  end.

Fixpoint dict_set {K V : Type} `{EqDecision K} (d : list (K * V)) (key : K)
    (value : V) : list (K * V) :=
  match d with
  | [] => [(key, value)]
  | (k, v) :: rest =>
      if decide (k = key) then (k, value) :: rest
      else (k, v) :: dict_set rest key value
  end.

Definition attrib_getitem (d : list (string * string)) (key : string)
  : loading string :=
  match dict_get d key with
  | Some v => Loaded v
  | None => Failed (Raised (KeyError (VStr key)))
  end.

(** [s.strip(chars)]. *)
Fixpoint lstrip (chars : list ascii) (s : string) : string :=
  match s with
  | EmptyString => EmptyString
  | String c rest =>
      if bool_decide (c ∈ chars) then lstrip chars rest else s
  end.

Definition strip (chars : list ascii) (s : string) : string :=
  String.rev (lstrip chars (String.rev (lstrip chars s))).

Record DataType (F : Type) : Type := mk_data_type {
  dt_name : option string;
  dt_id_ : string;
  dt_bit_length : option Z;
  dt_encoding : option string;
  dt_minimum : option Z;
  dt_maximum : option Z;
  dt_choices : option (list (Z * option string));
  dt_byte_order : string;
  dt_unit : option string;
  dt_factor : number F;
  dt_offset : number F;
}.
Arguments mk_data_type {F}.
Arguments dt_name {F}.
Arguments dt_id_ {F}.
Arguments dt_bit_length {F}.
Arguments dt_encoding {F}.
Arguments dt_minimum {F}.
Arguments dt_maximum {F}.
Arguments dt_choices {F}.
Arguments dt_byte_order {F}.
Arguments dt_unit {F}.
Arguments dt_factor {F}.
Arguments dt_offset {F}.

(** Modelled from the spec: the classes [Data] (data.py) and [Did]
    (did.py) are not among the sources.  An object is the record of
    the arguments it is built from (a FieldDescriptor has a name, a
    start position, a width, a byte order, a scale, an offset, a
    minimum, a maximum, a unit and choices; a Frame an identifier, a
    name, a byte length and its fields in order); it is true in a
    condition, and [data.length] is the [length] it was built with. *)
Record DataObject (F : Type) : Type := mk_data {
  name : option string;
  start : Z;
  length : option Z;
  byte_order : string;
  scale : number F;
  offset : number F;
  minimum : option Z;
  maximum : option Z;
  unit : option string;
  choices : option (list (Z * option string));
}.
Arguments mk_data {F}.
Arguments name {F}.
Arguments start {F}.
Arguments length {F}.
Arguments byte_order {F}.
Arguments scale {F}.
Arguments offset {F}.
Arguments minimum {F}.
Arguments maximum {F}.
Arguments unit {F}.
Arguments choices {F}.

Record DidObject (F : Type) : Type := mk_did {
  identifier : Z;
  did_name : option string;
  did_length : Z;
  datas : list (DataObject F);
}.
Arguments mk_did {F}.
Arguments identifier {F}.
Arguments did_name {F}.
Arguments did_length {F}.
Arguments datas {F}.

Section Loader.

Context {Element : Type} `{!ElementTree.Interface Element} {F : Type}.

(** The builtins [int] and [float] on a string, and
    [ElementTree.fromstring]. *)
Variable int : string -> result Z.
Variable float : string -> result F.
Variable fromstring : string -> loading Element.

Definition _load_choices (data_type : Element)
  : loading (option (list (Z * option string))) :=
  choices ←
    for_each
      (fun choices choice =>
         s ← attrib_getitem (ElementTree.attrib choice) "s";
         start ← lift (int (strip ["("; ")"]%char s));
         e ← attrib_getitem (ElementTree.attrib choice) "e";
         end_ ← lift (int (strip ["("; ")"]%char e));
         if start =? end_ then
           text ← getattr (ElementTree.find choice "TEXT/TUV[1]") "text"
                    ElementTree.text;
           Loaded (dict_set choices start text)
         else Loaded choices)
      (ElementTree.findall data_type "TEXTMAP") [];
  Loaded (match choices with
          | [] => None
          | _ => Some choices
          end).

(** The loop over the attributes of the CVALUETYPE element, on the
    state [(bit_length, encoding, minimum, maximum)]. *)
Definition ctype_attribute
    (st : option Z * option string * option Z * option Z)
    (item : string * string)
  : loading (option Z * option string * option Z * option Z) :=
  let '(bit_length, encoding, minimum, maximum) := st in
  let '(key, value) := item in
  if String.eqb key "bl" then
    v ← lift (int value); Loaded (Some v, encoding, minimum, maximum)
  else if String.eqb key "enc" then
    Loaded (bit_length, Some value, minimum, maximum)
  else if String.eqb key "minsz" then
    v ← lift (int value); Loaded (bit_length, encoding, Some v, maximum)
  else if String.eqb key "maxsz" then
    v ← lift (int value); Loaded (bit_length, encoding, minimum, Some v)
  else Loaded st.

(** The body of the loop of [_load_data_types]. *)
Definition load_data_type (data_type : Element) : loading (DataType F) :=
  type_name ← getattr (ElementTree.find data_type "NAME/TUV[1]") "text"
                 ElementTree.text;
  type_id ← attrib_getitem (ElementTree.attrib data_type) "id";
  let ctype := ElementTree.find data_type "CVALUETYPE" in
  ctype_attrib ← getattr ctype "attrib" ElementTree.attrib;
  '(bit_length, encoding, minimum, maximum) ←
    for_each ctype_attribute ctype_attrib (None, None, None, None);
  bo_code ← attrib_getitem ctype_attrib "bo";
  byte_order ← lift (load_byte_order bo_code);
  let unit :=
    match ElementTree.find data_type "PVALUETYPE/UNIT" with
    | Some ptype_unit => ElementTree.text ptype_unit
    | None => None
    end in
  choices ← _load_choices data_type;
  '(factor, offset) ←
    match ElementTree.find data_type "COMP" with
    | Some comp =>
        f ← attrib_getitem (ElementTree.attrib comp) "f";
        factor ← lift (float f);
        o ← attrib_getitem (ElementTree.attrib comp) "o";
        offset ← lift (float o);
        Loaded (Float factor, Float offset)
    | None => Loaded (Int 1, Int 0)
    end;
  Loaded (mk_data_type type_name type_id bit_length encoding minimum maximum
            choices byte_order unit factor offset).

Definition _load_data_types (ecu_doc : option Element)
  : loading (gmap string (DataType F)) :=
  types ← getattr ecu_doc "findall"
             (fun ecu_doc =>
                ElementTree.findall ecu_doc "DATATYPES/IDENT"
                ++ ElementTree.findall ecu_doc "DATATYPES/LINCOMP"
                ++ ElementTree.findall ecu_doc "DATATYPES/TEXTTBL"
                ++ ElementTree.findall ecu_doc "DATATYPES/STRUCTDT"
                ++ ElementTree.findall ecu_doc "DATATYPES/EOSITERDT");
  for_each
    (fun data_types data_type =>
       loaded ← load_data_type data_type;
       Loaded (<[dt_id_ loaded := loaded]> data_types))
    types ∅.

(** [saw_tooth_start_from_linear_bitnum] on the bit length of a data
    type, which is [None] when the type has no [bl] attribute: the
    little-endian branch then adds [None] to an int. *)
Definition start_of_data_type (byte_order : string) (offset : Z)
    (bit_length : option Z) : result Z :=
  match bit_length with
  | Some bit_len => saw_tooth_start_from_linear_bitnum byte_order offset bit_len
  | None =>
      if String.eqb byte_order "little_endian" then Raise TypeError
      else saw_tooth_start_from_linear_bitnum byte_order offset 0
  end.

Definition _load_data_element (data : Element) (offset : Z)
    (data_types : gmap string (DataType F)) : loading (DataObject F) :=
  dtref ← attrib_getitem (ElementTree.attrib data) "dtref";
  data_type ← lift (getitem data_types dtref);
  start_bit_index ←
    lift (start_of_data_type (dt_byte_order data_type) offset
            (dt_bit_length data_type));
  name ← getattr (ElementTree.find data "QUAL") "text" ElementTree.text;
  Loaded (mk_data name start_bit_index (dt_bit_length data_type)
            (dt_byte_order data_type) (dt_factor data_type)
            (dt_offset data_type) (dt_minimum data_type)
            (dt_maximum data_type) (dt_unit data_type)
            (dt_choices data_type)).

(** The loop of [_load_did_element], on the state [(offset, datas)]. *)
Definition load_data_obj (data_types : gmap string (DataType F))
    (st : Z * list (DataObject F)) (data_obj : Element)
  : loading (Z * list (DataObject F)) :=
  let '(offset, datas) := st in
  data ← _load_data_element data_obj offset data_types;
  match length data with
  | Some data_length => Loaded (offset + data_length, datas ++ [data])
  | None => Failed (Raised TypeError)
  end.

Definition _load_did_element (did : Element)
    (data_types : gmap string (DataType F)) : loading (DidObject F) :=
  let data_objs :=
    ElementTree.findall did "SIMPLECOMPCONT/DATAOBJ"
    ++ ElementTree.findall did "SIMPLECOMPCONT/UNION/STRUCT/DATAOBJ" in
  '(offset, datas) ← for_each (load_data_obj data_types) data_objs (0, []);
  static ← getattr (ElementTree.find did "STATICVALUE") "attrib"
              ElementTree.attrib;
  v ← attrib_getitem static "v";
  identifier ← lift (int v);
  name ← getattr (ElementTree.find did "QUAL") "text" ElementTree.text;
  let length := (offset + 7) / 8 in
  Loaded (mk_did identifier name length datas).

(** [InternalDatabase(dids)] is the list of the dids. *)
Definition load_string (string : string) : loading (list (DidObject F)) :=
  root ← fromstring string;
  let ecu_doc := ElementTree.find root "ECUDOC" in
  data_types ← _load_data_types ecu_doc;
  ecus ← getattr ecu_doc "findall"
            (fun ecu_doc => ElementTree.findall ecu_doc "ECU");
  ecu ← lift (first_item ecus);
  let var := ElementTree.find ecu "VAR" in
  diag_classes ← getattr var "findall"
                    (fun var => ElementTree.findall var "DIAGCLASS");
  for_each
    (fun dids diag_class =>
       for_each
         (fun dids diag_inst =>
            did ← _load_did_element diag_inst data_types;
            Loaded (dids ++ [did]))
         (ElementTree.findall diag_class "DIAGINST") dids)
    diag_classes [].

End Loader.

End Cdd.

(** ** The frame buffer *)

Module Did.

(** Modelled from the spec: [Did.encode] and [Did.decode] (did.py) are
    not among the sources.  Encoding returns a byte buffer of
    [byte_length] bytes: the integer [encode_data] returns, written
    big-endian; decoding reads the buffer back with [decode_data]. *)
Definition frame_of_int (byte_length : Z) (packed : Z) : bytes :=
  bytes_of_bits (bits_of_uint (Z.to_nat (8 * byte_length)) packed).

Definition encode (datas : list Data.t) (byte_length : Z)
    (data : gmap string value) (scaling : bool) : result bytes :=
  formats ← Utils.create_encode_decode_formats datas byte_length;
  packed ← Utils.encode_data data datas formats scaling;
  Ok (frame_of_int byte_length packed).

Definition decode (datas : list Data.t) (byte_length : Z) (frame : bytes)
    (decode_choices scaling : bool) : result (gmap string value) :=
  formats ← Utils.create_encode_decode_formats datas byte_length;
  Utils.decode_data (take (Z.to_nat byte_length) frame) datas formats
    decode_choices scaling.

End Did.

(** * The properties, in the words of the specification *)

Module Spec.

Import Utils.

(** ** Bit numbering *)

Definition recognized (byte_order : string) : Prop :=
  byte_order = "big_endian"%string \/ byte_order = "little_endian"%string.

(** The twelve cases of the test suite, as (byte order, linear start,
    width, expected start bit). *)
Definition start_bit_cases : list (string * Z * Z * Z) :=
  [ ("big_endian", 0, 8, 7); ("little_endian", 0, 8, 0);
    ("big_endian", 0, 4, 7); ("little_endian", 0, 4, 4);
    ("big_endian", 4, 4, 3); ("little_endian", 4, 4, 0);
    ("big_endian", 0, 16, 7); ("little_endian", 0, 16, 8);
    ("big_endian", 0, 32, 7); ("little_endian", 0, 32, 24);
    ("big_endian", 32, 16, 39); ("little_endian", 32, 16, 40) ]%string.

(** ** Layout programs *)

Inductive kind : Type := Unsigned | Signed | Float.

(** A layout item: padding of a width, or a field of a width and kind
    bound to a name. *)
Inductive layout_item : Type :=
| Padding (width : Z)
| Field (width : Z) (k : kind) (name : string).

Definition kind_of (d : Data.t) : kind :=
  if Data.is_float d then Float
  else if Data.is_signed d then Signed
  else Unsigned.

Definition kind_char (k : kind) : ascii :=
  match k with
  | Unsigned => "u"%char
  | Signed => "s"%char
  | Float => "f"%char
  end.

(** The item of utils.py that stands for a layout item. *)
Definition render (i : layout_item) : item :=
  match i with
  | Padding w => mk_item ("p"%char, w) (replicate (Z.to_nat w) true) None
  | Field w k n => mk_item (kind_char k, w) (replicate (Z.to_nat w) false) (Some n)
  end.

Definition is_big (d : Data.t) : bool :=
  String.eqb (Data.byte_order d) "big_endian".

Definition is_little (d : Data.t) : bool :=
  String.eqb (Data.byte_order d) "little_endian".

(** The frame-relative MSB-first position of a big-endian field. *)
Definition msb_position (d : Data.t) : Z :=
  8 * (Data.start d / 8) + (7 - Data.start d mod 8).

(** The big-endian program: the fields in declaration order, the cursor
    moving upward from its start to the frame width [W]. *)
Fixpoint big_program (fields : list Data.t) (cursor W : Z) : list layout_item :=
  match fields with
  | [] => if cursor <? W then [Padding (W - cursor)] else []
  | d :: rest =>
      if is_big d then
        let p := msb_position d in
        (if cursor <? p then [Padding (p - cursor)] else [])
        ++ Field (Data.length d) (kind_of d) (Data.name d)
        :: big_program rest (p + Data.length d) W
      else big_program rest cursor W
  end.

(** The downward walk of the little-endian program over the fields
    taken last to first. *)
Fixpoint little_walk (fields : list Data.t) (cursor : Z) : list layout_item :=
  match fields with
  | [] => if 0 <? cursor then [Padding cursor] else []
  | d :: rest =>
      if is_little d then
        let gap := cursor - (Data.start d + Data.length d) in
        (if 0 <? gap then [Padding gap] else [])
        ++ Field (Data.length d) (kind_of d) (Data.name d)
        :: little_walk rest (Data.start d)
      else little_walk rest cursor
  end.

Definition little_program (fields : list Data.t) (W : Z) : list layout_item :=
  little_walk (reverse fields) W.

(** Reversing the byte order of a bit string of whole bytes, and the
    position a bit moves to in a frame of [N] bytes. *)
Definition byte_reversed (s : bits) : bits :=
  bits_of_bytes (reverse (bytes_of_bits s)).

Definition byte_reversed_position (N q : Z) : Z :=
  8 * (N - 1 - q / 8) + q mod 8.

(** ** Frames *)

(** The frame positions a field occupies, counted MSB first from the
    start of the frame: a big-endian field runs upward from its MSB
    position, a little-endian field holds the bits whose saw-tooth
    numbers run upward from its start. *)
Definition claims (d : Data.t) (q : Z) : bool :=
  if is_big d
  then (start_bit d <=? q) && (q <? start_bit d + Data.length d)
  else (Data.start d <=? linear_to_saw_tooth_bitnum q)
       && (linear_to_saw_tooth_bitnum q <? Data.start d + Data.length d).

Definition well_formed (d : Data.t) : Prop :=
  recognized (Data.byte_order d) /\ 1 <= Data.length d.

Definition within_frame (W : Z) (d : Data.t) : Prop :=
  0 <= start_bit d /\ start_bit d + Data.length d <= W.

Definition disjoint (d d' : Data.t) : Prop :=
  forall q, ~ (claims d q = true /\ claims d' q = true).

(** A valid frame of [N] bytes: every field is well formed and lies
    within the frame, and no two fields overlap. *)
Definition valid_frame (datas : list Data.t) (N : Z) : Prop :=
  0 <= N
  /\ Forall well_formed datas
  /\ Forall (within_frame (8 * N)) datas
  /\ ForallOrdPairs disjoint datas.

(** The fields of either byte order are declared in ascending order of
    position. *)
Definition ascending (datas : list Data.t) : Prop :=
  ForallOrdPairs
    (fun d d' => Data.byte_order d = Data.byte_order d' ->
                 start_bit d <= start_bit d')
    datas.

(** Position [q] of the frame is real data of the big-endian program;
    of the little-endian program read against the byte-reversed frame. *)
Definition big_data_at (datas : list Data.t) (N q : Z) : bool :=
  bool_decide
    (mask_bits (create_big_items datas (8 * N)) !! Z.to_nat q = Some false).

Definition little_data_at (datas : list Data.t) (N q : Z) : bool :=
  bool_decide
    (mask_bits (create_little_items datas (8 * N))
       !! Z.to_nat (byte_reversed_position N q) = Some false).

(** Bit [q] of a mask of [8 * N] bits, counted MSB first. *)
Definition mask_at (N mask q : Z) : bool := Z.testbit mask (8 * N - 1 - q).

(** Every bit of the frame is covered exactly once: by the data of one
    program, or by the combined padding mask. *)
Definition covered_once (datas : list Data.t) (N : Z) (formats : Formats) : Prop :=
  forall q, 0 <= q < 8 * N ->
    length (filter (fun b => b = true)
              [ big_data_at datas N q; little_data_at datas N q;
                mask_at N (padding_mask formats) q ]) = 1%nat.

(** ** Values *)

(** The raw value [raw] has no entry in the choices of the field: the
    mapping is absent, or none of its keys is [raw]. *)
Definition no_choice (field : Data.t) (raw : Z) : Prop :=
  match Data.choices field with
  | None => True
  | Some l => raw ∉ l.*1
  end.

(** The same of a choices mapping alone. *)
Definition no_choice_in (choices : option (list (Z * string))) (raw : Z)
  : Prop :=
  match choices with
  | None => True
  | Some l => raw ∉ l.*1
  end.

(** [r] is the integer nearest to [n / d], the even one of the two when
    [n / d] lies halfway between them. *)
Definition nearest_half_even (n d r : Z) : Prop :=
  2 * Z.abs (n - r * d) <= Z.abs d
  /\ (2 * Z.abs (n - r * d) = Z.abs d -> Z.even r = true).

(** ** Round trip *)

(** The raw value fits the bits of the field. *)
Definition fits (d : Data.t) (raw : Z) : Prop :=
  if Data.is_signed d
  then - 2 ^ (Data.length d - 1) <= raw < 2 ^ (Data.length d - 1)
  else 0 <= raw < 2 ^ Data.length d.

(** An admissible value for an integer-kind field: a number whose
    nearest scaled integer fits the field, or a name of the field's
    choices, a dictionary whose keys all fit the field. *)
Definition admissible (data : gmap string value) (d : Data.t) : Prop :=
  Data.is_float d = false
  /\ match data !! Data.name d with
     | Some (VInt v) =>
         Data.scale d <> 0
         /\ exists raw,
              nearest_half_even (v - Data.offset d) (Data.scale d) raw
              /\ fits d raw
     | Some (VStr s) =>
         exists l,
           Data.choices d = Some l /\ NoDup l.*1
           /\ Forall (fun kv => fits d kv.1) l /\ s ∈ l.*2
     | None => False
     end.

(** The number stays within the precision of the decimal context. *)
Definition within_precision (data : gmap string value) (d : Data.t) : Prop :=
  match data !! Data.name d with
  | Some (VInt v) => Z.abs (v - Data.offset d) < 10 ^ 27
  | _ => True
  end.

(** Decoding the encoding of [data], with scaling both ways: without
    choice decoding every number comes back within half the scale, and
    with choice decoding every name comes back as it was. *)
Definition round_trips (datas : list Data.t) (N : Z)
    (data : gmap string value) : Prop :=
  exists frame,
    Did.encode datas N data true = Ok frame
    /\ (exists out,
          Did.decode datas N frame false true = Ok out
          /\ forall d v, d ∈ datas -> data !! Data.name d = Some (VInt v) ->
               exists v', out !! Data.name d = Some (VInt v')
                          /\ 2 * Z.abs (v' - v) <= Z.abs (Data.scale d))
    /\ (exists out,
          Did.decode datas N frame true true = Ok out
          /\ forall d s, d ∈ datas -> data !! Data.name d = Some (VStr s) ->
               out !! Data.name d = Some (VStr s)).

End Spec.

(** ** A frame of five bytes with fields of both byte orders

    [A] is byte 0 and [C] the twelve bits that end byte 3, both
    big-endian; [B] is byte 1 and [D] byte 4, both little-endian. *)

Module Examples.

Definition field_a : Data.t :=
  Data.mk "A" 7 8 "big_endian" false false 1 0 None.

Definition field_b : Data.t :=
  Data.mk "B" 8 8 "little_endian" false false 1 0 None.

Definition field_c : Data.t :=
  Data.mk "C" 19 12 "big_endian" false true 2 1 (Some [(3, "three"%string)]).

Definition field_d : Data.t :=
  Data.mk "D" 32 8 "little_endian" false false 1 0 None.

Definition frame : list Data.t := [field_a; field_b; field_c; field_d].

(** A frame of two bytes whose big-endian fields are declared out of
    order: [X] is byte 1 and [Y] byte 0. *)
Definition field_x : Data.t :=
  Data.mk "X" 15 8 "big_endian" false false 1 0 None.

Definition field_y : Data.t :=
  Data.mk "Y" 7 8 "big_endian" false false 1 0 None.

Definition unordered : list Data.t := [field_x; field_y].

(** An unsigned field of one byte scaled by [10 ^ 29]. *)
Definition field_wide : Data.t :=
  Data.mk "W" 7 8 "big_endian" false false (10 ^ 29) 0 None.

(** A frame of twelve bytes that is one unsigned field of 96 bits, and
    a value of 29 digits for it. *)
Definition field_e : Data.t :=
  Data.mk "E" 7 96 "big_endian" false false 1 0 None.

Definition value_e : gmap string value :=
  {[ "E"%string := VInt (10 ^ 28 + 1) ]}.

(** Values for the two fields of [unordered]. *)
Definition values_xy : gmap string value :=
  {[ "X"%string := VInt 1; "Y"%string := VInt 2 ]}.

(** Values for the four fields of [frame], and what they encode to. *)
Definition values : gmap string value :=
  {[ "A"%string := VInt 18; "B"%string := VInt 52;
     "C"%string := VStr "three"; "D"%string := VInt 200 ]}.

Definition raw_values : gmap string Z :=
  {[ "A"%string := 18; "B"%string := 52; "C"%string := 3; "D"%string := 200 ]}.

Definition buffer : bytes := [18; 52; 0; 3; 200].

End Examples.

(** * Further properties of the codec and of the loader *)

Module Props.

Import Utils Spec.

(** [x.to_bytes(length, 'big')]: the integer written as [length]
    big-endian bytes. *)
Definition int_to_bytes (length x : Z) : bytes :=
  bytes_of_bits (bits_of_uint (Z.to_nat (8 * length)) x).

(** The value of a field is a raw integer that fits its bits, and the
    field is of integer kind. *)
Definition raw_admissible (data : gmap string value) (d : Data.t) : Prop :=
  Data.is_float d = false
  /\ match data !! Data.name d with
     | Some (VInt v) => fits d v
     | _ => False
     end.

(** A layout item of integer kind, and the integers its bits hold. *)
Definition integer_kind (i : layout_item) : Prop :=
  match i with
  | Field _ Float _ => False
  | _ => True
  end.

Definition fits_kind (w : Z) (k : kind) (v : Z) : Prop :=
  match k with
  | Signed => - 2 ^ (w - 1) <= v < 2 ^ (w - 1)
  | _ => 0 <= v < 2 ^ w
  end.

(** A bytes object holds byte values. *)
Definition byte_values (b : bytes) : Prop := Forall (fun x => 0 <= x < 256) b.

(** The fields [create_big] lays out are those it does not skip, and
    likewise for [create_little]. *)
Definition in_big_layout (d : Data.t) : Prop :=
  Data.byte_order d <> "little_endian"%string.

Definition in_little_layout (d : Data.t) : Prop :=
  Data.byte_order d <> "big_endian"%string.

#[global] Instance in_big_layout_dec d : Decision (in_big_layout d) :=
  not_dec (decide (Data.byte_order d = "little_endian"%string)).

#[global] Instance in_little_layout_dec d : Decision (in_little_layout d) :=
  not_dec (decide (Data.byte_order d = "big_endian"%string)).

(** An item the two layouts are built from: padding of a positive
    length, or the item of one of the fields. *)
Definition built_item (datas : list Data.t) (i : item) : Prop :=
  (exists w, 0 < w /\ i = padding_item w)
  \/ (exists d, d ∈ datas /\ i = data_item d).

Definition item_width (i : item) : Z := (item_fmt i).2.

(** ** The loader *)

(** The fields follow one another from the linear offset [offset] up
    to [end_]: each has a length and starts at the start bit of its
    byte order at the running offset. *)
Fixpoint back_to_back {F : Type} (offset : Z) (datas : list (Cdd.DataObject F))
    (end_ : Z) : Prop :=
  match datas with
  | [] => end_ = offset
  | data :: rest =>
      exists l,
        Cdd.length data = Some l
        /\ Cdd.saw_tooth_start_from_linear_bitnum (Cdd.byte_order data) offset l
           = Ok (Cdd.start data)
        /\ back_to_back (offset + l) rest end_
  end.

(** The object is built from the data type. *)
Definition built_from {F : Type} (data_type : Cdd.DataType F)
    (data : Cdd.DataObject F) : Prop :=
  Cdd.length data = Cdd.dt_bit_length data_type
  /\ Cdd.byte_order data = Cdd.dt_byte_order data_type
  /\ Cdd.scale data = Cdd.dt_factor data_type
  /\ Cdd.offset data = Cdd.dt_offset data_type
  /\ Cdd.minimum data = Cdd.dt_minimum data_type
  /\ Cdd.maximum data = Cdd.dt_maximum data_type
  /\ Cdd.unit data = Cdd.dt_unit data_type
  /\ Cdd.choices data = Cdd.dt_choices data_type.

(** The codec's descriptor [d] has the name, position, width and byte
    order of the loaded object. *)
Definition describes {F : Type} (data : Cdd.DataObject F) (d : Data.t) : Prop :=
  Cdd.name data = Some (Data.name d)
  /\ Cdd.start data = Data.start d
  /\ Cdd.length data = Some (Data.length d)
  /\ Cdd.byte_order data = Data.byte_order d.

(** The TEXTMAP element [choice] is a range of the single point [k]. *)
Definition single_point {Element : Type} {tree : ElementTree.Interface Element}
    (int : string -> result Z) (choice : Element) (k : Z) : Prop :=
  exists s e,
    Cdd.dict_get (ElementTree.attrib choice) "s" = Some s
    /\ int (Cdd.strip ["("; ")"]%char s) = Ok k
    /\ Cdd.dict_get (ElementTree.attrib choice) "e" = Some e
    /\ int (Cdd.strip ["("; ")"]%char e) = Ok k.

(** Choices as the loader leaves them: [None] or a dictionary that is
    not empty. *)
Definition loaded_choices (choices : option (list (Z * option string))) : Prop :=
  match choices with
  | None => True
  | Some l => l <> [] /\ NoDup l.*1
  end.

(** A data type as the loader leaves it: its byte order is one of the
    two tags, its choices are [None] or not empty, and its factor and
    offset are the defaults or two floats. *)
Definition loaded_type {F : Type} (data_type : Cdd.DataType F) : Prop :=
  recognized (Cdd.dt_byte_order data_type)
  /\ loaded_choices (Cdd.dt_choices data_type)
  /\ ((Cdd.dt_factor data_type = Py.Int 1
       /\ Cdd.dt_offset data_type = Py.Int 0)
      \/ exists f o, Cdd.dt_factor data_type = Py.Float f
                     /\ Cdd.dt_offset data_type = Py.Float o).

(** A did as the loader leaves it. *)
Definition loaded_did {F : Type} (did : Cdd.DidObject F) : Prop :=
  exists end_,
    back_to_back 0 (Cdd.datas did) end_
    /\ Cdd.did_length did = (end_ + 7) / 8
    /\ Forall (fun data => recognized (Cdd.byte_order data)
                           /\ loaded_choices (Cdd.choices data))
         (Cdd.datas did).

End Props.

(** ** Values and buffers for the frame of five bytes *)

Module Cases.

(** Raw values of the four fields of [Examples.frame]. *)
Definition raw_data : gmap string value :=
  {[ "A"%string := VInt 18; "B"%string := VInt 52;
     "C"%string := VInt (-3); "D"%string := VInt 200 ]}.

(** A buffer with every bit set, and one that is too short. *)
Definition full_buffer : bytes := [255; 255; 255; 255; 255].

Definition short_buffer : bytes := [18; 52; 0].

(** A dictionary without a value for [B], and one in which the value
    of [A] takes nine bits. *)
Definition missing_data : gmap string value := {[ "A"%string := VInt 18 ]}.

Definition wide_data : gmap string value :=
  {[ "A"%string := VInt 256; "B"%string := VInt 52;
     "C"%string := VInt (-3); "D"%string := VInt 200 ]}.

(** The floats [1.0] and [0.0], and an int of 1025 bits. *)
Definition float_one : Float.t := S754_finite false 4503599627370496 (-52).

Definition float_zero : Float.t := S754_zero false.

Definition huge : Z := 2 ^ 1024.

End Cases.

(** ** A CDD document

    A document of one frame with three fields, and readings of decimal
    digits for the builtins [int] and [float]. *)

Module Doc.

(** A reading of decimal digits, for [int] and [float]. *)
Fixpoint digits_of (s : string) (acc : Z) : option Z :=
  match s with
  | EmptyString => Some acc
  | String c rest =>
      match Ascii.is_nat c with
      | Some d => digits_of rest (10 * acc + Z.of_nat d)
      | None => None
      end
  end.

Definition int_digits (s : string) : result Z :=
  match s with
  | EmptyString => Raise ValueError
  | _ =>
      match digits_of s 0 with
      | Some z => Ok z
      | None => Raise ValueError
      end
  end.

Definition float_digits (s : string) : result Float.t :=
  z ← int_digits s; Float.of_int z.

Definition leaf (tag text : string) : Xml.Element :=
  Xml.Node tag [] (Some text) [].

Definition named (name : string) : Xml.Element :=
  Xml.Node "NAME" [] None [leaf "TUV" name].

Definition textmap (s e text : string) : Xml.Element :=
  Xml.Node "TEXTMAP" [("s", s); ("e", e)]%string None
    [Xml.Node "TEXT" [] None [leaf "TUV" text]].

(** Three data types: a byte, a switch with two names and a range, and
    a scaled word. *)
Definition ident : Xml.Element :=
  Xml.Node "IDENT" [("id", "t1")]%string None
    [ named "byte";
      Xml.Node "CVALUETYPE"
        [("bl", "8"); ("bo", "21"); ("enc", "uns"); ("df", "hex")]%string
        None [] ].

Definition texttbl : Xml.Element :=
  Xml.Node "TEXTTBL" [("id", "t2")]%string None
    [ named "switch";
      Xml.Node "CVALUETYPE" [("bl", "4"); ("bo", "21")]%string None [];
      textmap "(0)" "(0)" "off";
      textmap "(1)" "(1)" "on";
      textmap "(2)" "(15)" "reserved";
      textmap "(1)" "(1)" "active" ].

Definition lincomp : Xml.Element :=
  Xml.Node "LINCOMP" [("id", "t3")]%string None
    [ named "word";
      Xml.Node "CVALUETYPE"
        [("bl", "16"); ("bo", "21"); ("minsz", "0"); ("maxsz", "1000")]%string
        None [];
      Xml.Node "PVALUETYPE" [] None [leaf "UNIT" "V"];
      Xml.Node "COMP" [("f", "2"); ("o", "1")]%string None [] ].

Definition dataobj (dtref qual : string) : Xml.Element :=
  Xml.Node "DATAOBJ" [("dtref", dtref)]%string None [leaf "QUAL" qual].

Definition diaginst : Xml.Element :=
  Xml.Node "DIAGINST" [] None
    [ leaf "QUAL" "Status";
      Xml.Node "STATICVALUE" [("v", "241")]%string None [];
      Xml.Node "SIMPLECOMPCONT" [] None
        [ dataobj "t1" "counter"; dataobj "t2" "switch";
          dataobj "t3" "voltage" ] ].

Definition ecudoc : Xml.Element :=
  Xml.Node "ECUDOC" [] None
    [ Xml.Node "DATATYPES" [] None [ident; texttbl; lincomp];
      Xml.Node "ECU" [] None
        [ Xml.Node "VAR" [] None
            [ Xml.Node "DIAGCLASS" [] None [diaginst] ] ] ].

Definition root : Xml.Element := Xml.Node "CANDELA" [] None [ecudoc].

(** The data type [lincomp] is loaded as. *)
Definition word : Cdd.DataType Float.t :=
  Cdd.mk_data_type (Some "word") "t3" (Some 16) None (Some 0) (Some 1000)
    None "big_endian" (Some "V")
    (Py.Float (S754_finite false 4503599627370496 (-51)))
    (Py.Float (S754_finite false 4503599627370496 (-52))).

Definition types : gmap string (Cdd.DataType Float.t) :=
  match Cdd._load_data_types int_digits float_digits (Some ecudoc) with
  | Cdd.Loaded types => types
  | Cdd.Failed _ => ∅
  end.

(** The frame [diaginst] is loaded as, and descriptors of the codec
    for its fields. *)
Definition status : Cdd.DidObject Float.t :=
  Cdd.mk_did 241 (Some "Status") 4
    [ Cdd.mk_data (Some "counter") 7 (Some 8) "big_endian" (Py.Int 1)
        (Py.Int 0) None None None None;
      Cdd.mk_data (Some "switch") 15 (Some 4) "big_endian" (Py.Int 1)
        (Py.Int 0) None None None
        (Some [(0, Some "off"); (1, Some "active")]%string);
      Cdd.mk_data (Some "voltage") 11 (Some 16) "big_endian"
        (Py.Float (S754_finite false 4503599627370496 (-51)))
        (Py.Float (S754_finite false 4503599627370496 (-52)))
        (Some 0) (Some 1000) (Some "V") None ].

Definition status_fields : list Data.t :=
  [ Data.mk "counter" 7 8 "big_endian" false false 1 0 None;
    Data.mk "switch" 15 4 "big_endian" false false 1 0
      (Some [(0, "off"); (1, "active")]%string);
    Data.mk "voltage" 11 16 "big_endian" false false 2 1 None ].

(** A little-endian field of three bits of byte 1, in the linear
    numbering of a CDD document. *)
Definition linear_field : Data.t :=
  Data.mk "L" 8 3 "little_endian" false false 1 0 None.

End Doc.

(** * Bit strings, bytes and integers *)

Section Bits.

Implicit Types (s t : bits) (v : Z) (b : bool).

Lemma fold_uint_of_bits s a :
  fold_left (fun acc b => 2 * acc + Z.b2z b) s a
  = a * 2 ^ Z.of_nat (length s) + uint_of_bits s.
Proof.
  unfold uint_of_bits. revert a.
  induction s as [|b s IH]; intros a; simpl fold_left.
  - simpl. lia.
  - rewrite IH, (IH (2 * 0 + Z.b2z b)).
    rewrite length_cons, Nat2Z.inj_succ, Z.pow_succ_r by lia. ring.
Qed.

Lemma uint_of_bits_cons b s :
  uint_of_bits (b :: s) = Z.b2z b * 2 ^ Z.of_nat (length s) + uint_of_bits s.
Proof.
  unfold uint_of_bits at 1. simpl fold_left.
  rewrite fold_uint_of_bits. f_equal.
Qed.

Lemma uint_of_bits_app s t :
  uint_of_bits (s ++ t)
  = uint_of_bits s * 2 ^ Z.of_nat (length t) + uint_of_bits t.
Proof.
  unfold uint_of_bits at 1. rewrite fold_left_app.
  fold (uint_of_bits s). apply fold_uint_of_bits.
Qed.

Lemma uint_of_bits_range s : 0 <= uint_of_bits s < 2 ^ Z.of_nat (length s).
Proof.
  induction s as [|b s IH].
  - unfold uint_of_bits; simpl. lia.
  - rewrite uint_of_bits_cons, length_cons, Nat2Z.inj_succ, Z.pow_succ_r by lia.
    destruct b; simpl Z.b2z; lia.
Qed.

Lemma length_bits_of_uint n v : length (bits_of_uint n v) = n.
Proof. induction n; simpl; auto. Qed.

Lemma bits_of_uint_lookup n v i :
  (i < n)%nat ->
  bits_of_uint n v !! i = Some (Z.testbit v (Z.of_nat (n - 1 - i))).
Proof.
  revert i. induction n as [|n IH]; intros i Hi; [lia|].
  destruct i as [|i]; simpl.
  - do 3 f_equal. lia.
  - rewrite IH by lia. do 3 f_equal. lia.
Qed.

Lemma testbit_low_of_sum b u n k :
  0 <= u < 2 ^ n -> 0 <= k < n ->
  Z.testbit (Z.b2z b * 2 ^ n + u) k = Z.testbit u k.
Proof.
  intros Hu Hk.
  rewrite <- (Z.mod_pow2_bits_low (Z.b2z b * 2 ^ n + u) n k) by lia.
  rewrite Z.add_comm, Z.mod_add by lia.
  rewrite Z.mod_small by lia. reflexivity.
Qed.

Lemma testbit_top_of_sum b u n :
  0 <= u < 2 ^ n -> 0 <= n ->
  Z.testbit (Z.b2z b * 2 ^ n + u) n = b.
Proof.
  intros Hu Hn. apply Z.b2z_inj.
  rewrite Z.testbit_spec' by lia.
  rewrite Z.add_comm, Z.div_add by lia.
  rewrite Z.div_small by lia. destruct b; reflexivity.
Qed.

Lemma testbit_uint_of_bits s i b :
  s !! i = Some b ->
  Z.testbit (uint_of_bits s) (Z.of_nat (length s - 1 - i)) = b.
Proof.
  revert i. induction s as [|c s IH]; intros i Hi; [done|].
  rewrite uint_of_bits_cons. pose proof (uint_of_bits_range s) as Hr.
  destruct i as [|i]; simpl in Hi.
  - injection Hi as ->. simpl length.
    replace (Z.of_nat (S (length s) - 1 - 0)) with (Z.of_nat (length s)) by lia.
    apply testbit_top_of_sum; lia.
  - pose proof (lookup_lt_Some _ _ _ Hi) as Hlt.
    rewrite testbit_low_of_sum by (simpl length; lia).
    simpl length.
    replace (S (length s) - 1 - S i)%nat with (length s - 1 - i)%nat by lia.
    auto.
Qed.

Lemma testbit_uint_of_bits_high s k :
  Z.of_nat (length s) <= k -> Z.testbit (uint_of_bits s) k = false.
Proof.
  intros Hk. pose proof (uint_of_bits_range s) as Hr.
  destruct (Z.eq_dec (uint_of_bits s) 0) as [->|Hne].
  - apply Z.testbit_0_l.
  - apply Z.bits_above_log2; [lia|].
    apply Z.log2_lt_pow2; [lia|].
    eapply Z.lt_le_trans; [apply Hr|]. apply Z.pow_le_mono_r; lia.
Qed.

Lemma bits_of_uint_of_bits s : bits_of_uint (length s) (uint_of_bits s) = s.
Proof.
  apply list_eq. intros i.
  destruct (s !! i) as [b|] eqn:Hi; rewrite ?Hi.
  - pose proof (lookup_lt_Some _ _ _ Hi).
    rewrite bits_of_uint_lookup by lia.
    f_equal. apply testbit_uint_of_bits; auto.
  - apply lookup_ge_None in Hi.
    apply lookup_ge_None. rewrite length_bits_of_uint. lia.
Qed.

Lemma uint_of_bits_of_uint n v :
  uint_of_bits (bits_of_uint n v) = v mod 2 ^ Z.of_nat n.
Proof.
  induction n as [|n IH].
  - unfold uint_of_bits; simpl. rewrite Z.mod_1_r. reflexivity.
  - simpl bits_of_uint. rewrite uint_of_bits_cons, IH, length_bits_of_uint.
    rewrite Nat2Z.inj_succ, Z.pow_succ_r by lia.
    rewrite (Z.mul_comm 2), Z.rem_mul_r by lia.
    rewrite Z.testbit_spec' by lia. lia.
Qed.

Lemma uint_of_bits_of_uint_small n v :
  0 <= v < 2 ^ Z.of_nat n -> uint_of_bits (bits_of_uint n v) = v.
Proof. intros. rewrite uint_of_bits_of_uint. apply Z.mod_small; lia. Qed.

Lemma bits_of_uint_lor n a c :
  bits_of_uint n (Z.lor a c)
  = zip_with orb (bits_of_uint n a) (bits_of_uint n c).
Proof.
  induction n as [|n IH]; simpl; [done|].
  rewrite Z.lor_spec, IH. reflexivity.
Qed.

Lemma uint_of_bits_replicate_false n : uint_of_bits (replicate n false) = 0.
Proof.
  induction n as [|n IH]; [done|].
  simpl replicate. rewrite uint_of_bits_cons, IH. simpl. lia.
Qed.

(** ** Bytes *)

Lemma mjoin_cons {A : Type} (x : list A) (l : list (list A)) :
  mjoin (x :: l) = x ++ mjoin l.
Proof. reflexivity. Qed.

Definition whole_bytes (cs : list bits) : Prop :=
  Forall (fun c => length c = 8%nat) cs.

Lemma bytes_of_bits_app8 c s :
  length c = 8%nat -> bytes_of_bits (c ++ s) = uint_of_bits c :: bytes_of_bits s.
Proof.
  intros Hc.
  do 9 (destruct c as [|? c]; try discriminate Hc).
  reflexivity.
Qed.

Lemma bytes_of_bits_join cs :
  whole_bytes cs -> bytes_of_bits (mjoin cs) = uint_of_bits <$> cs.
Proof.
  induction 1 as [|c cs Hc _ IH]; [done|].
  rewrite mjoin_cons.
  rewrite bytes_of_bits_app8 by done. simpl. by rewrite IH.
Qed.

Lemma chunks_exist n s :
  length s = (8 * n)%nat ->
  exists cs, s = mjoin cs /\ whole_bytes cs /\ length cs = n.
Proof.
  revert s. induction n as [|n IH]; intros s Hs.
  - destruct s; [|discriminate]. exists []. repeat split. constructor.
  - destruct (IH (drop 8 s)) as (cs & Hcs & Hall & Hlen).
    { rewrite length_drop. lia. }
    exists (take 8 s :: cs). repeat split.
    + rewrite mjoin_cons.
      rewrite <- Hcs. symmetry. apply take_drop.
    + constructor; [|done]. rewrite length_take. lia.
    + simpl. lia.
Qed.

Lemma length_join_whole cs :
  whole_bytes cs -> length (mjoin cs) = (8 * length cs)%nat.
Proof.
  induction 1 as [|c cs Hc _ IH]; [done|].
  rewrite mjoin_cons.
  rewrite length_app, IH, Hc. simpl. lia.
Qed.

Lemma bits_of_bytes_chunks cs :
  whole_bytes cs -> bits_of_bytes (uint_of_bits <$> cs) = mjoin cs.
Proof.
  unfold bits_of_bytes.
  induction 1 as [|c cs Hc _ IH]; [done|].
  rewrite !fmap_cons, !mjoin_cons.
  rewrite IH. f_equal. rewrite <- Hc. apply bits_of_uint_of_bits.
Qed.

Lemma fold_uint_of_bytes l a :
  fold_left (fun acc x => 256 * acc + x) l a
  = a * 256 ^ Z.of_nat (length l) + uint_of_bytes l.
Proof.
  unfold uint_of_bytes. revert a.
  induction l as [|x l IH]; intros a; simpl fold_left.
  - simpl. lia.
  - rewrite IH, (IH (256 * 0 + x)).
    rewrite length_cons, Nat2Z.inj_succ, Z.pow_succ_r by lia. ring.
Qed.

Lemma uint_of_bytes_cons x l :
  uint_of_bytes (x :: l) = x * 256 ^ Z.of_nat (length l) + uint_of_bytes l.
Proof.
  unfold uint_of_bytes at 1. simpl fold_left.
  rewrite fold_uint_of_bytes. f_equal.
Qed.

Lemma uint_of_bytes_chunks cs :
  whole_bytes cs -> uint_of_bytes (uint_of_bits <$> cs) = uint_of_bits (mjoin cs).
Proof.
  induction 1 as [|c cs Hc Hcs IH]; [done|].
  rewrite fmap_cons, mjoin_cons.
  rewrite uint_of_bytes_cons, uint_of_bits_app, IH.
  rewrite length_fmap, length_join_whole by done.
  f_equal. f_equal.
  rewrite Nat2Z.inj_mul, Z.pow_mul_r by lia. reflexivity.
Qed.

Lemma whole_bytes_reverse cs : whole_bytes cs -> whole_bytes (reverse cs).
Proof. unfold whole_bytes. apply Forall_reverse. Qed.

End Bits.

Section ByteReversal.

Import Spec.

Lemma byte_reversed_join cs :
  whole_bytes cs -> byte_reversed (mjoin cs) = mjoin (reverse cs).
Proof.
  intros Hcs. unfold byte_reversed.
  rewrite bytes_of_bits_join by done.
  rewrite <- fmap_reverse.
  apply bits_of_bytes_chunks, whole_bytes_reverse, Hcs.
Qed.

Lemma length_byte_reversed s n :
  length s = (8 * n)%nat -> length (byte_reversed s) = (8 * n)%nat.
Proof.
  intros Hs. destruct (chunks_exist n s Hs) as (cs & -> & Hcs & Hlen).
  rewrite byte_reversed_join by done.
  rewrite length_join_whole by (by apply whole_bytes_reverse).
  rewrite length_reverse. lia.
Qed.

Lemma byte_reversed_involutive s n :
  length s = (8 * n)%nat -> byte_reversed (byte_reversed s) = s.
Proof.
  intros Hs. destruct (chunks_exist n s Hs) as (cs & -> & Hcs & Hlen).
  rewrite byte_reversed_join by done.
  rewrite byte_reversed_join by (by apply whole_bytes_reverse).
  by rewrite reverse_involutive.
Qed.

Lemma byte_reversed_position_range N q :
  0 <= q < 8 * N -> 0 <= byte_reversed_position N q < 8 * N.
Proof.
  intros Hq. unfold byte_reversed_position.
  pose proof (Z.mod_pos_bound q 8 ltac:(lia)).
  pose proof (Z.div_mod q 8 ltac:(lia)).
  assert (0 <= q / 8 < N) by (split; [apply Z.div_pos; lia | apply Z.div_lt_upper_bound; lia]).
  lia.
Qed.

Lemma byte_reversed_position_involutive N q :
  0 <= q < 8 * N ->
  byte_reversed_position N (byte_reversed_position N q) = q.
Proof.
  intros Hq. unfold byte_reversed_position.
  pose proof (Z.mod_pos_bound q 8 ltac:(lia)).
  pose proof (Z.div_mod q 8 ltac:(lia)).
  assert (0 <= q / 8 < N) by (split; [apply Z.div_pos; lia | apply Z.div_lt_upper_bound; lia]).
  replace (8 * (N - 1 - q / 8) + q mod 8) with (q mod 8 + (N - 1 - q / 8) * 8) by lia.
  rewrite Z.div_add, Z.mod_add by lia.
  rewrite Z.div_small, Z.mod_small by lia. lia.
Qed.

Lemma byte_reversed_lookup s N q :
  Z.of_nat (length s) = 8 * N -> 0 <= q < 8 * N ->
  byte_reversed s !! Z.to_nat q = s !! Z.to_nat (byte_reversed_position N q).
Proof.
  intros Hs Hq.
  destruct (chunks_exist (Z.to_nat N) s ltac:(lia)) as (cs & -> & Hcs & Hlen).
  rewrite byte_reversed_join by done.
  pose proof (Z.mod_pos_bound q 8 ltac:(lia)) as Hm.
  pose proof (Z.div_mod q 8 ltac:(lia)) as Hd.
  assert (0 <= q / 8 < N) as Hq8
    by (split; [apply Z.div_pos; lia | apply Z.div_lt_upper_bound; lia]).
  set (j := Z.to_nat (q / 8)). set (i := Z.to_nat (q mod 8)).
  assert (Z.to_nat q = j * 8 + i)%nat as -> by (subst j i; lia).
  assert (Z.to_nat (byte_reversed_position N q)
          = (length cs - S j) * 8 + i)%nat as ->.
  { unfold byte_reversed_position. subst j i. lia. }
  assert (i < 8)%nat by (subst i; lia).
  assert (j < length cs)%nat by (subst j; lia).
  destruct (cs !! (length cs - S j)%nat) as [c|] eqn:Hc.
  - assert (reverse cs !! j = Some c) as Hr by (by apply reverse_lookup_Some).
    destruct (c !! i) as [b|] eqn:Hb.
    + transitivity (Some b).
      * apply (join_lookup_Some_same_length' 8); [by apply whole_bytes_reverse|done|eauto].
      * symmetry. apply (join_lookup_Some_same_length' 8); [done|done|eauto].
    + apply lookup_ge_None in Hb.
      assert (length c = 8%nat) by (eapply Forall_lookup_1 in Hcs; eauto).
      lia.
  - apply lookup_ge_None in Hc. lia.
Qed.

End ByteReversal.

(** * Bit numbering *)

Section BitNumbering.

Import Utils Spec.

Lemma saw_tooth_div8 n : linear_to_saw_tooth_bitnum n / 8 = n / 8.
Proof.
  unfold linear_to_saw_tooth_bitnum; cbn zeta.
  pose proof (Z.mod_pos_bound n 8 ltac:(lia)) as Hm.
  rewrite Z.add_comm, Z.div_add by lia.
  rewrite Z.div_small by lia. lia.
Qed.

Lemma saw_tooth_mod8 n : linear_to_saw_tooth_bitnum n mod 8 = 7 - n mod 8.
Proof.
  unfold linear_to_saw_tooth_bitnum; cbn zeta.
  pose proof (Z.mod_pos_bound n 8 ltac:(lia)) as Hm.
  rewrite Z.add_comm, Z.mod_add by lia.
  apply Z.mod_small; lia.
Qed.

Lemma saw_tooth_involutive n :
  linear_to_saw_tooth_bitnum (linear_to_saw_tooth_bitnum n) = n.
Proof.
  unfold linear_to_saw_tooth_bitnum at 1; cbn zeta.
  rewrite saw_tooth_div8, saw_tooth_mod8.
  pose proof (Z.div_mod n 8 ltac:(lia)). lia.
Qed.

(** C1: for every non-negative linear bit index [n], the conversion
    stays within the byte of [n] and is an involution; this holds for
    [linear_to_saw_tooth_bitnum] of utils.py and for its copy
    [saw_tooth_from_linear_bitnum] of cdd.py. *)
Theorem linear_to_saw_tooth_same_byte_involution (n : Z) :
  0 <= n ->
  (n / 8 = linear_to_saw_tooth_bitnum n / 8
   /\ linear_to_saw_tooth_bitnum (linear_to_saw_tooth_bitnum n) = n)
  /\ (n / 8 = Cdd.saw_tooth_from_linear_bitnum n / 8
      /\ Cdd.saw_tooth_from_linear_bitnum
           (Cdd.saw_tooth_from_linear_bitnum n) = n).
Proof.
  intros _.
  change Cdd.saw_tooth_from_linear_bitnum with linear_to_saw_tooth_bitnum.
  rewrite saw_tooth_div8, saw_tooth_involutive. auto.
Qed.

Lemma linear_to_saw_tooth_same_byte_involution_witness :
  0 <= 65
  /\ (65 / 8 = linear_to_saw_tooth_bitnum 65 / 8
      /\ linear_to_saw_tooth_bitnum (linear_to_saw_tooth_bitnum 65) = 65)
  /\ (65 / 8 = Cdd.saw_tooth_from_linear_bitnum 65 / 8
      /\ Cdd.saw_tooth_from_linear_bitnum
           (Cdd.saw_tooth_from_linear_bitnum 65) = 65).
Proof.
  split; [lia | apply (linear_to_saw_tooth_same_byte_involution 65); lia].
Defined.

Example linear_to_saw_tooth_cases :
  linear_to_saw_tooth_bitnum <$> [0; 1; 7; 8; 15; 32; 64; 65]
  = [7; 6; 0; 15; 8; 39; 71; 70].
Proof. reflexivity. Qed.

(** ** The start-bit convention *)

(** C2: for every width of at least one bit and every non-negative
    linear start, both copies of the start-bit conversion return the
    saw-tooth number of [linear_start] for a big-endian field and of
    [linear_start + width - 1] for a little-endian field; and they
    return the expected value on each of the twelve listed cases. *)
Theorem start_bit_conversion (linear_start width : Z) :
  0 <= linear_start -> 1 <= width ->
  (cdd_to_dbc_start_bit "big_endian" linear_start width
     = Ok (linear_to_saw_tooth_bitnum linear_start)
   /\ cdd_to_dbc_start_bit "little_endian" linear_start width
     = Ok (linear_to_saw_tooth_bitnum (linear_start + width - 1))
   /\ Cdd.saw_tooth_start_from_linear_bitnum "big_endian" linear_start width
     = Ok (linear_to_saw_tooth_bitnum linear_start)
   /\ Cdd.saw_tooth_start_from_linear_bitnum "little_endian" linear_start width
     = Ok (linear_to_saw_tooth_bitnum (linear_start + width - 1)))
  /\ Forall (fun '(bo, ls, w, expected) =>
               cdd_to_dbc_start_bit bo ls w = Ok expected
               /\ Cdd.saw_tooth_start_from_linear_bitnum bo ls w = Ok expected)
            start_bit_cases.
Proof.
  intros _ _. split.
  - repeat split.
  - unfold start_bit_cases. repeat constructor.
Qed.

Lemma start_bit_conversion_witness :
  (0 <= 32 /\ 1 <= 16)
  /\ cdd_to_dbc_start_bit "little_endian" 32 16 = Ok 40.
Proof.
  split; [lia|].
  destruct (start_bit_conversion 32 16 ltac:(lia) ltac:(lia))
    as [(_ & Hlittle & _) _].
  exact Hlittle.
Defined.

(** ** Unrecognized byte orders *)

Lemma eqb_unrecognized bo :
  ~ recognized bo ->
  String.eqb bo "big_endian" = false /\ String.eqb bo "little_endian" = false.
Proof.
  unfold recognized. intros H. split; apply String.eqb_neq; tauto.
Qed.

(** In utils.py the name [Error] is unbound, so the failure is a
    [NameError] whatever the tag. *)
Lemma cdd_to_dbc_start_bit_unrecognized bo ls w :
  ~ recognized bo ->
  cdd_to_dbc_start_bit bo ls w = Raise (NameError "Error").
Proof.
  intros [H1 H2]%eqb_unrecognized.
  unfold cdd_to_dbc_start_bit. rewrite H1, H2. reflexivity.
Qed.

(** The copy in cdd.py raises [Error] with a message that ends in the
    tag. *)
Lemma saw_tooth_start_unrecognized bo ls w :
  ~ recognized bo ->
  Cdd.saw_tooth_start_from_linear_bitnum bo ls w
  = Raise (Error [String.append "Unknown byte order: " bo]).
Proof.
  intros [H1 H2]%eqb_unrecognized.
  unfold Cdd.saw_tooth_start_from_linear_bitnum. rewrite H1, H2. reflexivity.
Qed.

(** At load time an unknown byte-order code is refused before the start
    bit is computed; the code is the second argument of the [Error]. *)
Lemma load_start_bit_unknown_code bo_code offset bit_length :
  bo_code <> "21"%string -> bo_code <> "12"%string ->
  Cdd.load_start_bit bo_code offset bit_length
  = Raise (Error ["Unsupported byte order code '%s'."; bo_code]%string).
Proof.
  intros H1%String.eqb_neq H2%String.eqb_neq.
  unfold Cdd.load_start_bit, Cdd.load_byte_order. rewrite H1, H2. reflexivity.
Qed.

(** C3: at the unrecognized tag [middle_endian] the conversion of
    utils.py raises [NameError] for the unbound name [Error], an
    exception that does not carry the tag, while the copy in cdd.py
    raises the [Error] that names it. *)
Theorem start_bit_unknown_byte_order :
  cdd_to_dbc_start_bit "middle_endian" 0 8 = Raise (NameError "Error")
  /\ Cdd.saw_tooth_start_from_linear_bitnum "middle_endian" 0 8
     = Raise (Error ["Unknown byte order: middle_endian"%string]).
Proof. split; reflexivity. Qed.

End BitNumbering.

(** * The two layout programs *)

Section Programs.

Import Utils Spec.

Lemma render_data d :
  render (Field (Data.length d) (kind_of d) (Data.name d)) = data_item d.
Proof.
  unfold render, data_item, get_format_string_type, kind_of, kind_char.
  destruct (Data.is_float d), (Data.is_signed d); reflexivity.
Qed.

Lemma render_padding w : render (Padding w) = padding_item w.
Proof. reflexivity. Qed.

Lemma recognized_little_eqb d :
  recognized (Data.byte_order d) ->
  String.eqb (Data.byte_order d) "little_endian" = negb (is_big d).
Proof.
  unfold is_big. intros [H|H]; rewrite H; reflexivity.
Qed.

Lemma recognized_big_eqb d :
  recognized (Data.byte_order d) ->
  String.eqb (Data.byte_order d) "big_endian" = negb (is_little d).
Proof.
  unfold is_little. intros [H|H]; rewrite H; reflexivity.
Qed.

Lemma start_bit_big d : is_big d = true -> start_bit d = msb_position d.
Proof. unfold is_big, start_bit. intros ->. reflexivity. Qed.

Lemma start_bit_not_big d : is_big d = false -> start_bit d = Data.start d.
Proof. unfold is_big, start_bit. intros ->. reflexivity. Qed.

(** The loop of [create_big], started from any state, appends the items
    of the cursor algorithm started at the same cursor. *)
Lemma create_big_fold W datas :
  Forall (fun d => recognized (Data.byte_order d)) datas ->
  forall items c,
    (let '(its, s) := fold_left create_big_step datas (items, c) in
     if s <? W then its ++ [padding_item (W - s)] else its)
    = items ++ (render <$> big_program datas c W).
Proof.
  induction 1 as [|d datas Hd _ IH]; intros items c.
  - simpl. destruct (c <? W); simpl; [reflexivity | by rewrite app_nil_r].
  - cbn [fold_left big_program]. unfold create_big_step at 2.
    rewrite (recognized_little_eqb d Hd).
    destruct (is_big d) eqn:Hbig; cbn [negb].
    + rewrite (start_bit_big d Hbig). rewrite IH.
      rewrite fmap_app, fmap_cons, render_data.
      destruct (c <? msb_position d) eqn:Hc.
      * assert ((0 <? msb_position d - c) = true) as -> by lia.
        cbn [fmap list_fmap]. rewrite render_padding.
        rewrite <- !app_assoc. reflexivity.
      * assert ((0 <? msb_position d - c) = false) as -> by lia.
        cbn [fmap list_fmap app]. rewrite <- !app_assoc. reflexivity.
    + apply IH.
Qed.

Lemma create_big_items_program datas W :
  Forall (fun d => recognized (Data.byte_order d)) datas ->
  create_big_items datas W = render <$> big_program datas 0 W.
Proof.
  intros Hrec. unfold create_big_items.
  pose proof (create_big_fold W datas Hrec [] 0) as Hfold.
  destruct (fold_left create_big_step datas ([], 0)) as [its s].
  exact Hfold.
Qed.

(** C4: for every ordered list of fields with recognized byte orders and
    every frame width [W], the items built by [create_big] are those of
    the cursor algorithm that starts at 0, walks the big-endian fields
    in declaration order, pads up to each field's MSB-first position,
    places the field, moves the cursor past it, and pads up to [W]; the
    format, padding mask and names [create_big] returns are read off
    these items. *)
Theorem create_big_follows_cursor_algorithm (datas : list Data.t) (W : Z) :
  Forall (fun d => recognized (Data.byte_order d)) datas ->
  create_big_items datas W = render <$> big_program datas 0 W
  /\ create_big datas W
     = (fmt (render <$> big_program datas 0 W),
        items_padding_mask (render <$> big_program datas 0 W),
        names (render <$> big_program datas 0 W)).
Proof.
  intros Hrec.
  pose proof (create_big_items_program datas W Hrec) as Hitems.
  split; [exact Hitems|].
  unfold create_big. rewrite Hitems. reflexivity.
Qed.

Lemma example_frame_recognized :
  Forall (fun d => recognized (Data.byte_order d)) Examples.frame.
Proof. repeat constructor; by (left + right). Qed.

Lemma create_big_follows_cursor_algorithm_witness :
  Forall (fun d => recognized (Data.byte_order d)) Examples.frame
  /\ create_big_items Examples.frame 40
     = render <$> [ Field 8 Unsigned "A"; Padding 12; Field 12 Signed "C";
                    Padding 8 ].
Proof.
  split; [exact example_frame_recognized|].
  exact (proj1 (create_big_follows_cursor_algorithm Examples.frame 40
                  example_frame_recognized)).
Defined.

(** The loop of [create_little], started from any state. *)
Lemma create_little_fold datas :
  Forall (fun d => recognized (Data.byte_order d)) datas ->
  forall items c,
    (let '(its, e) := fold_left create_little_step datas (items, c) in
     if 0 <? e then its ++ [padding_item e] else its)
    = items ++ (render <$> little_walk datas c).
Proof.
  induction 1 as [|d datas Hd _ IH]; intros items c.
  - simpl. destruct (0 <? c); simpl; [reflexivity | by rewrite app_nil_r].
  - cbn [fold_left little_walk]. unfold create_little_step at 2.
    rewrite (recognized_big_eqb d Hd).
    destruct (is_little d) eqn:Hlittle; cbn [negb].
    + rewrite IH. rewrite fmap_app, fmap_cons, render_data.
      destruct (0 <? c - (Data.start d + Data.length d)) eqn:Hc.
      * cbn [fmap list_fmap]. rewrite render_padding.
        rewrite <- !app_assoc. reflexivity.
      * cbn [fmap list_fmap app]. rewrite <- !app_assoc. reflexivity.
    + apply IH.
Qed.

Lemma create_little_items_program datas W :
  Forall (fun d => recognized (Data.byte_order d)) datas ->
  create_little_items datas W = render <$> little_program datas W.
Proof.
  intros Hrec. unfold create_little_items, little_program.
  assert (Forall (fun d => recognized (Data.byte_order d)) (reverse datas)) as Hrev
    by (by apply Forall_reverse).
  pose proof (create_little_fold (reverse datas) Hrev [] W) as Hfold.
  destruct (fold_left create_little_step (reverse datas) ([], W)) as [its e].
  exact Hfold.
Qed.

(** ** The byte-reversed padding mask of the little-endian program *)

Lemma mask_bits_app items items' :
  mask_bits (items ++ items') = mask_bits items ++ mask_bits items'.
Proof. unfold mask_bits. by rewrite fmap_app, join_app. Qed.

Lemma mask_bits_cons i items :
  mask_bits (i :: items) = item_mask i ++ mask_bits items.
Proof. reflexivity. Qed.

Lemma length_mask_padding w :
  length (item_mask (render (Padding w))) = Z.to_nat w.
Proof. simpl. apply length_replicate. Qed.

Lemma length_mask_field w k n :
  length (item_mask (render (Field w k n))) = Z.to_nat w.
Proof. simpl. apply length_replicate. Qed.

(** With a positive cursor the downward walk leaves at least one bit. *)
Lemma little_walk_mask_nonempty datas c :
  0 < c -> (0 < length (mask_bits (render <$> little_walk datas c)))%nat.
Proof.
  revert c. induction datas as [|d datas IH]; intros c Hc; cbn [little_walk].
  - assert ((0 <? c) = true) as -> by lia.
    cbn [fmap list_fmap]. rewrite mask_bits_cons, length_app, length_mask_padding. lia.
  - destruct (is_little d); [|by apply IH].
    rewrite fmap_app, mask_bits_app, length_app, fmap_cons, mask_bits_cons.
    rewrite length_app, length_mask_field.
    destruct (0 <? c - (Data.start d + Data.length d)) eqn:Hgap.
    + cbn [fmap list_fmap]. rewrite mask_bits_cons, length_app, length_mask_padding. lia.
    + destruct (Z.lt_ge_cases 0 (Data.length d)); [lia|].
      specialize (IH (Data.start d) ltac:(lia)). lia.
Qed.

Lemma length_pad_to_byte s :
  exists n, length (Bitstruct.pad_to_byte s) = (8 * n)%nat
            /\ (length s <= 8 * n)%nat.
Proof.
  unfold Bitstruct.pad_to_byte.
  pose proof (Z.mod_pos_bound (Z.of_nat (length s)) 8 ltac:(lia)) as Hm.
  pose proof (Z.div_mod (Z.of_nat (length s)) 8 ltac:(lia)) as Hd.
  assert (0 <= Z.of_nat (length s) / 8) by (apply Z.div_pos; lia).
  destruct (Z.of_nat (length s) mod 8 =? 0) eqn:Ht.
  - exists (Z.to_nat (Z.of_nat (length s) / 8)). lia.
  - exists (Z.to_nat (Z.of_nat (length s) / 8 + 1)).
    rewrite length_app, length_replicate. lia.
Qed.

Lemma pack_unsigned_mask s :
  s <> [] ->
  Bitstruct.pack_unsigned (Z.of_nat (length s)) (uint_of_bits s)
  = Ok (bytes_of_bits (Bitstruct.pad_to_byte s)).
Proof.
  intros Hs. unfold Bitstruct.pack_unsigned, Bitstruct.compile.
  assert (0 < Z.of_nat (length s)) as Hlen by (destruct s; [done | simpl; lia]).
  cbn [Bitstruct.parse_format].
  assert ((Z.of_nat (length s) <=? 0) = false) as -> by lia.
  cbn. unfold Bitstruct.pack. cbn [Bitstruct.infos Bitstruct.pack_bits Bitstruct.name].
  rewrite lookup_singleton_eq.
  unfold Bitstruct.pack_value. cbn [Bitstruct.type_ Bitstruct.size].
  pose proof (uint_of_bits_range s) as Hr.
  assert ((0 <=? uint_of_bits s) && (uint_of_bits s <? 2 ^ Z.of_nat (length s)) = true)
    as Hin by (apply andb_true_iff; lia).
  cbn. rewrite Hin. cbn.
  rewrite Nat2Z.id, bits_of_uint_of_bits, app_nil_r. reflexivity.
Qed.

Lemma uint_of_reversed_bytes s n :
  length s = (8 * n)%nat ->
  uint_of_bytes (reverse (bytes_of_bits s)) = uint_of_bits (byte_reversed s).
Proof.
  intros Hs. destruct (chunks_exist n s Hs) as (cs & -> & Hcs & Hlen).
  rewrite byte_reversed_join, bytes_of_bits_join by done.
  rewrite <- fmap_reverse.
  apply uint_of_bytes_chunks, whole_bytes_reverse, Hcs.
Qed.

Lemma bytes_of_bits_nonempty s n :
  length s = (8 * n)%nat -> (0 < n)%nat -> bytes_of_bits s <> [].
Proof.
  intros Hs Hn. destruct (chunks_exist n s Hs) as (cs & -> & Hcs & Hlen).
  rewrite bytes_of_bits_join by done.
  destruct cs; [simpl in Hlen; lia | done].
Qed.

Lemma int_hexlify_nonempty l : l <> [] -> int_hexlify l = Ok (uint_of_bytes l).
Proof. destruct l; [done | reflexivity]. Qed.

Lemma int_base2_nonempty s : s <> [] -> int_base2 s = Ok (uint_of_bits s).
Proof. destruct s; [done | reflexivity]. Qed.

Lemma items_padding_mask_uint items :
  items_padding_mask items = uint_of_bits (mask_bits items).
Proof.
  unfold items_padding_mask, int_base2.
  destruct (mask_bits items); reflexivity.
Qed.

Lemma create_little_result datas W :
  Forall (fun d => recognized (Data.byte_order d)) datas ->
  create_little datas W
  = Ok (fmt (render <$> little_program datas W),
        (if 0 <? W
         then uint_of_bits
                (byte_reversed
                   (Bitstruct.pad_to_byte
                      (mask_bits (render <$> little_program datas W))))
         else items_padding_mask (render <$> little_program datas W)),
        names (render <$> little_program datas W)).
Proof.
  intros Hrec.
  unfold create_little. rewrite (create_little_items_program datas W Hrec).
  set (items := render <$> little_program datas W).
  destruct (0 <? W) eqn:HW; [|reflexivity].
  assert (mask_bits items <> []) as Hne.
  { pose proof (little_walk_mask_nonempty (reverse datas) W ltac:(lia)) as Hlen.
    fold (little_program datas W) in Hlen. fold items in Hlen.
    destruct (mask_bits items); [simpl in Hlen; lia | done]. }
  rewrite items_padding_mask_uint, pack_unsigned_mask by done.
  destruct (length_pad_to_byte (mask_bits items)) as (n & Hn & Hle).
  assert (0 < n)%nat.
  { destruct (mask_bits items); [done | simpl in Hle; lia]. }
  cbn. rewrite int_hexlify_nonempty.
  - cbn. rewrite (uint_of_reversed_bytes _ n) by done. reflexivity.
  - intros Hnil. apply (f_equal reverse) in Hnil.
    rewrite reverse_involutive in Hnil.
    by apply (bytes_of_bits_nonempty _ n Hn).
Qed.

(** C5: for every ordered list of fields with recognized byte orders and
    every frame width [W], the items built by [create_little] are those
    of the downward cursor algorithm: the little-endian fields are
    walked last to first from cursor [W], a gap above a field is padded,
    the field is placed and the cursor set to its start, and what is
    left of the cursor is padded.  The layout reads against the
    byte-reversed frame: for a positive [W] the padding mask
    [create_little] returns is the mask of these items with its bytes
    reversed. *)
Theorem create_little_follows_cursor_algorithm (datas : list Data.t) (W : Z) :
  Forall (fun d => recognized (Data.byte_order d)) datas ->
  create_little_items datas W = render <$> little_program datas W
  /\ create_little datas W
     = Ok (fmt (render <$> little_program datas W),
           (if 0 <? W
            then uint_of_bits
                   (byte_reversed
                      (Bitstruct.pad_to_byte
                         (mask_bits (render <$> little_program datas W))))
            else items_padding_mask (render <$> little_program datas W)),
           names (render <$> little_program datas W)).
Proof.
  intros Hrec. split.
  - by apply create_little_items_program.
  - by apply create_little_result.
Qed.

Lemma create_little_follows_cursor_algorithm_witness :
  Forall (fun d => recognized (Data.byte_order d)) Examples.frame
  /\ create_little_items Examples.frame 40
     = render <$> [ Field 8 Unsigned "D"; Padding 16; Field 8 Unsigned "B";
                    Padding 8 ].
Proof.
  split; [exact example_frame_recognized|].
  exact (proj1 (create_little_follows_cursor_algorithm Examples.frame 40
                  example_frame_recognized)).
Defined.

End Programs.

(** * Where the two programs put the fields *)

Section Layout.

Import Utils Spec.

(** The fields of a walk are met in order and fit: the hypotheses under
    which the cursor algorithms place every field at its own position. *)
Fixpoint big_chain (datas : list Data.t) (c W : Z) : Prop :=
  match datas with
  | [] => c <= W
  | d :: rest =>
      if is_big d
      then c <= msb_position d /\ 0 <= Data.length d
           /\ big_chain rest (msb_position d + Data.length d) W
      else big_chain rest c W
  end.

Fixpoint little_chain (datas : list Data.t) (e : Z) : Prop :=
  match datas with
  | [] => 0 <= e
  | d :: rest =>
      if is_little d
      then 0 <= Data.length d /\ Data.start d + Data.length d <= e
           /\ little_chain rest (Data.start d)
      else little_chain rest e
  end.

Definition in_big (d : Data.t) (q : Z) : bool :=
  is_big d && (msb_position d <=? q) && (q <? msb_position d + Data.length d).

Definition in_little (d : Data.t) (t : Z) : bool :=
  is_little d && (Data.start d <=? t) && (t <? Data.start d + Data.length d).

Lemma mask_bits_gap (c p : Z) (rest : list layout_item) (b : bool) :
  c <= p ->
  mask_bits (render <$> ((if b then [Padding (p - c)] else []) ++ rest))
  = (if b then replicate (Z.to_nat (p - c)) true else [])
    ++ mask_bits (render <$> rest).
Proof.
  intros _. destruct b; cbn [app fmap list_fmap]; [|reflexivity].
  rewrite mask_bits_cons. reflexivity.
Qed.

Lemma mask_bits_padding w :
  mask_bits (render <$> [Padding w]) = replicate (Z.to_nat w) true.
Proof. unfold mask_bits. cbn. apply app_nil_r. Qed.

Lemma big_chain_le datas c W : big_chain datas c W -> c <= W.
Proof.
  revert c. induction datas as [|d datas IH]; intros c; cbn [big_chain]; [done|].
  destruct (is_big d); [|by apply IH].
  intros (? & ? & H%IH). lia.
Qed.

Lemma big_chain_below datas c W q :
  big_chain datas c W -> q < c -> existsb (fun d => in_big d q) datas = false.
Proof.
  revert c. induction datas as [|d datas IH]; intros c; cbn [big_chain existsb]; [done|].
  unfold in_big at 1. destruct (is_big d); cbn [andb].
  - intros (? & ? & H) Hq. rewrite (IH _ H) by lia.
    assert ((msb_position d <=? q) = false) as -> by lia. reflexivity.
  - intros H Hq. by rewrite (IH _ H).
Qed.

(** The padding mask of the big-endian program, bit by bit. *)
Lemma big_program_mask datas W :
  forall c, big_chain datas c W ->
    length (mask_bits (render <$> big_program datas c W)) = Z.to_nat (W - c)
    /\ forall q, c <= q < W ->
         mask_bits (render <$> big_program datas c W) !! Z.to_nat (q - c)
         = Some (negb (existsb (fun d => in_big d q) datas)).
Proof.
  induction datas as [|d datas IH]; intros c Hchain; cbn [big_chain big_program] in *.
  - assert (mask_bits (render <$> (if c <? W then [Padding (W - c)] else []))
            = replicate (Z.to_nat (W - c)) true) as ->.
    { destruct (c <? W) eqn:Hc; [apply mask_bits_padding|].
      replace (Z.to_nat (W - c)) with 0%nat by lia. reflexivity. }
    split; [apply length_replicate|].
    intros q Hq. cbn [existsb negb]. apply lookup_replicate_2. lia.
  - cbn [existsb]. unfold in_big at 1.
    destruct (is_big d) eqn:Hbig; cbn [andb].
    + destruct Hchain as (Hc & Hlen & Hrest).
      destruct (IH _ Hrest) as [IHlen IHq].
      pose proof (big_chain_le _ _ _ Hrest) as Hle.
      rewrite mask_bits_gap by done.
      rewrite fmap_cons, mask_bits_cons. cbn [render item_mask].
      set (pad := if c <? msb_position d
                  then replicate (Z.to_nat (msb_position d - c)) true else []).
      assert (length pad = Z.to_nat (msb_position d - c)) as Hpad.
      { subst pad. destruct (c <? msb_position d) eqn:E;
          [apply length_replicate | simpl; lia]. }
      assert (forall i, (i < length pad)%nat -> pad !! i = Some true) as Hpadq.
      { subst pad. intros i Hi. destruct (c <? msb_position d);
          [apply lookup_replicate_2; by rewrite length_replicate in Hi
          | simpl in Hi; lia]. }
      split.
      * rewrite !length_app, length_replicate, IHlen, Hpad. lia.
      * intros q Hq.
        destruct (Z.lt_ge_cases q (msb_position d)) as [Hlt|Hge].
        { rewrite lookup_app_l by lia. rewrite Hpadq by lia.
          rewrite (big_chain_below _ _ _ q Hrest) by lia.
          assert ((msb_position d <=? q) = false) as -> by lia. reflexivity. }
        rewrite lookup_app_r by lia. rewrite Hpad.
        assert ((msb_position d <=? q) = true) as -> by lia. cbn [andb].
        destruct (Z.lt_ge_cases q (msb_position d + Data.length d)) as [Hin|Hout].
        { rewrite lookup_app_l by (rewrite length_replicate; lia).
          assert ((q <? msb_position d + Data.length d) = true) as -> by lia.
          cbn [orb negb]. apply lookup_replicate_2. lia. }
        rewrite lookup_app_r by (rewrite length_replicate; lia).
        rewrite length_replicate.
        assert ((q <? msb_position d + Data.length d) = false) as -> by lia.
        cbn [orb]. rewrite <- (IHq q) by lia. f_equal. lia.
    + apply IH, Hchain.
Qed.

Lemma little_chain_nonneg datas e : little_chain datas e -> 0 <= e.
Proof.
  revert e. induction datas as [|d datas IH]; intros e; cbn [little_chain]; [done|].
  destruct (is_little d); [|by apply IH].
  intros (? & ? & H%IH). lia.
Qed.

Lemma little_chain_above datas e t :
  little_chain datas e -> e <= t -> existsb (fun d => in_little d t) datas = false.
Proof.
  revert e. induction datas as [|d datas IH]; intros e; cbn [little_chain existsb]; [done|].
  unfold in_little at 1. destruct (is_little d); cbn [andb].
  - intros (? & ? & H) Ht. rewrite (IH _ H) by lia.
    assert ((t <? Data.start d + Data.length d) = false) as -> by lia.
    by rewrite andb_false_r.
  - intros H Ht. by rewrite (IH _ H).
Qed.

(** The padding mask of the downward walk: the bit at distance [t] from
    the end of the program. *)
Lemma little_walk_mask datas :
  forall e, little_chain datas e ->
    length (mask_bits (render <$> little_walk datas e)) = Z.to_nat e
    /\ forall t, 0 <= t < e ->
         mask_bits (render <$> little_walk datas e) !! Z.to_nat (e - 1 - t)
         = Some (negb (existsb (fun d => in_little d t) datas)).
Proof.
  induction datas as [|d datas IH]; intros e Hchain; cbn [little_chain little_walk] in *.
  - assert (mask_bits (render <$> (if 0 <? e then [Padding e] else []))
            = replicate (Z.to_nat e) true) as ->.
    { destruct (0 <? e) eqn:He; [apply mask_bits_padding|].
      replace (Z.to_nat e) with 0%nat by lia. reflexivity. }
    split; [apply length_replicate|].
    intros t Ht. cbn [existsb negb]. apply lookup_replicate_2. lia.
  - cbn [existsb]. unfold in_little at 1.
    destruct (is_little d) eqn:Hlittle; cbn [andb].
    + destruct Hchain as (Hlen & He & Hrest).
      destruct (IH _ Hrest) as [IHlen IHt].
      pose proof (little_chain_nonneg _ _ Hrest) as Hs.
      set (top := Data.start d + Data.length d) in *.
      replace (e - top) with (e - top) by reflexivity.
      assert (mask_bits
                (render <$> ((if 0 <? e - top then [Padding (e - top)] else [])
                             ++ Field (Data.length d) (kind_of d) (Data.name d)
                                :: little_walk datas (Data.start d)))
              = replicate (Z.to_nat (e - top)) true
                ++ replicate (Z.to_nat (Data.length d)) false
                ++ mask_bits (render <$> little_walk datas (Data.start d))) as ->.
      { destruct (0 <? e - top) eqn:E; cbn [app fmap list_fmap].
        - rewrite !mask_bits_cons. reflexivity.
        - rewrite mask_bits_cons.
          replace (Z.to_nat (e - top)) with 0%nat by lia. reflexivity. }
      split.
      * rewrite !length_app, !length_replicate, IHlen. lia.
      * intros t Ht.
        destruct (Z.lt_ge_cases t top) as [Hlt|Hge].
        2:{ rewrite lookup_app_l by (rewrite length_replicate; lia).
            rewrite (little_chain_above _ _ t Hrest) by lia.
            assert ((t <? top) = false) as -> by lia.
            rewrite andb_false_r. cbn [orb negb].
            apply lookup_replicate_2. lia. }
        rewrite lookup_app_r by (rewrite length_replicate; lia).
        rewrite length_replicate.
        assert ((t <? top) = true) as -> by lia. rewrite andb_true_r.
        destruct (Z.lt_ge_cases t (Data.start d)) as [Hbelow|Hin].
        { rewrite lookup_app_r by (rewrite length_replicate; lia).
          rewrite length_replicate.
          assert ((Data.start d <=? t) = false) as -> by lia.
          cbn [orb]. rewrite <- (IHt t) by lia. f_equal. lia. }
        rewrite lookup_app_l by (rewrite length_replicate; lia).
        assert ((Data.start d <=? t) = true) as -> by lia.
        cbn [orb negb]. apply lookup_replicate_2. lia.
    + apply IH, Hchain.
Qed.

End Layout.

(** * Valid frames *)

Section Frames.

Import Utils Spec.

Lemma is_big_order d : is_big d = true -> Data.byte_order d = "big_endian"%string.
Proof. unfold is_big. apply String.eqb_eq. Qed.

Lemma is_little_order d :
  is_little d = true -> Data.byte_order d = "little_endian"%string.
Proof. unfold is_little. apply String.eqb_eq. Qed.

Lemma big_not_little d : is_big d = true -> is_little d = false.
Proof. intros H%is_big_order. unfold is_little. by rewrite H. Qed.

Lemma not_big_little d :
  recognized (Data.byte_order d) -> is_big d = false -> is_little d = true.
Proof. unfold is_big, is_little. intros [H|H]; rewrite H; [discriminate|done]. Qed.

Lemma in_big_claims d q : in_big d q = is_big d && claims d q.
Proof.
  unfold in_big, claims. destruct (is_big d) eqn:Hbig; [|reflexivity].
  rewrite (start_bit_big d Hbig). cbn [andb]. reflexivity.
Qed.

Lemma in_little_claims d q :
  recognized (Data.byte_order d) ->
  in_little d (linear_to_saw_tooth_bitnum q) = is_little d && claims d q.
Proof.
  intros Hrec. unfold in_little, claims.
  destruct (is_big d) eqn:Hbig.
  - rewrite (big_not_little d Hbig). reflexivity.
  - rewrite (not_big_little d Hrec Hbig). cbn [andb]. reflexivity.
Qed.

Lemma claims_little_start d :
  is_big d = false -> 1 <= Data.length d ->
  claims d (linear_to_saw_tooth_bitnum (Data.start d)) = true.
Proof.
  intros Hbig Hlen. unfold claims. rewrite Hbig, saw_tooth_involutive.
  apply andb_true_iff. lia.
Qed.

Lemma ForallOrdPairs_snoc {A : Type} (R : A -> A -> Prop) (l : list A) (x : A) :
  ForallOrdPairs R (l ++ [x]) ->
  ForallOrdPairs R l /\ Forall (fun y => R y x) l.
Proof.
  induction l as [|a l IH]; cbn [app]; intros H.
  - split; constructor.
  - inversion H as [|? ? Ha Hl]; subst.
    apply Forall_app in Ha as [Ha Hx]. apply Forall_cons in Hx as [Hx _].
    destruct (IH Hl) as [IH1 IH2].
    split; constructor; auto.
Qed.

Lemma existsb_reverse {A : Type} (f : A -> bool) (l : list A) :
  existsb f (reverse l) = existsb f l.
Proof.
  apply Bool.eq_iff_eq_true. rewrite !existsb_exists.
  split; intros (x & Hx & Hf); exists x; split; auto;
    apply list_elem_of_In; apply list_elem_of_In in Hx;
    by apply elem_of_reverse.
Qed.

(** In a valid frame whose big-endian fields are declared in ascending
    order the upward walk meets them in order. *)
Lemma valid_big_chain W datas :
  Forall well_formed datas -> Forall (within_frame W) datas ->
  ForallOrdPairs disjoint datas -> ascending datas ->
  forall c, c <= W ->
    Forall (fun d => is_big d = true -> c <= msb_position d) datas ->
    big_chain datas c W.
Proof.
  unfold ascending.
  induction datas as [|d datas IH]; intros Hwf Hin Hdis Hasc c Hc Hfirst;
    cbn [big_chain]; [done|].
  apply Forall_cons in Hwf as [[Hrec Hlen] Hwf].
  apply Forall_cons in Hin as [[Hlo Hhi] Hin].
  inversion Hdis as [|? ? Hdis1 Hdis2]; subst.
  inversion Hasc as [|? ? Hasc1 Hasc2]; subst.
  apply Forall_cons in Hfirst as [Hd Hfirst].
  destruct (is_big d) eqn:Hbig.
  - rewrite (start_bit_big d Hbig) in Hlo, Hhi.
    split; [by apply Hd|]. split; [lia|].
    apply IH; auto.
    apply Forall_forall. intros d' Hd' Hbig'.
    rewrite Forall_forall in Hdis1, Hasc1, Hwf.
    specialize (Hdis1 d' Hd'). specialize (Hasc1 d' Hd').
    destruct (Hwf d' Hd') as [_ Hlen'].
    rewrite (is_big_order d Hbig), (is_big_order d' Hbig') in Hasc1.
    specialize (Hasc1 eq_refl).
    rewrite (start_bit_big d Hbig), (start_bit_big d' Hbig') in Hasc1.
    destruct (Z.lt_ge_cases (msb_position d') (msb_position d + Data.length d))
      as [Hov|]; [|lia].
    exfalso. apply (Hdis1 (msb_position d')).
    unfold claims. rewrite Hbig, Hbig'.
    rewrite (start_bit_big d Hbig), (start_bit_big d' Hbig').
    split; apply andb_true_iff; lia.
  - apply IH; auto.
Qed.

(** In a valid frame whose little-endian fields are declared in
    ascending order the downward walk meets them in order. *)
Lemma valid_little_chain W datas :
  Forall well_formed datas -> Forall (within_frame W) datas ->
  ForallOrdPairs disjoint datas -> ascending datas ->
  forall e, 0 <= e ->
    Forall (fun d => is_little d = true -> Data.start d + Data.length d <= e) datas ->
    little_chain (reverse datas) e.
Proof.
  unfold ascending.
  induction datas as [|d datas IH] using rev_ind;
    intros Hwf Hin Hdis Hasc e He Hlast; [done|].
  rewrite reverse_snoc. cbn [little_chain].
  apply Forall_app in Hwf as [Hwf [[Hrec Hlen] _]%Forall_cons].
  apply Forall_app in Hin as [Hin [[Hlo Hhi] _]%Forall_cons].
  apply ForallOrdPairs_snoc in Hdis as [Hdis2 Hdis1].
  apply ForallOrdPairs_snoc in Hasc as [Hasc2 Hasc1].
  apply Forall_app in Hlast as [Hlast [Hd _]%Forall_cons].
  destruct (is_little d) eqn:Hlittle.
  - assert (is_big d = false) as Hbig.
    { destruct (is_big d) eqn:E; [|done].
      by rewrite (big_not_little d E) in Hlittle. }
    rewrite (start_bit_not_big d Hbig) in Hlo, Hhi.
    split; [lia|]. split; [by apply Hd|].
    apply IH; auto.
    apply Forall_forall. intros d' Hd' Hlittle'.
    rewrite Forall_forall in Hdis1, Hasc1, Hwf.
    specialize (Hdis1 d' Hd'). specialize (Hasc1 d' Hd').
    destruct (Hwf d' Hd') as [_ Hlen'].
    assert (is_big d' = false) as Hbig'.
    { destruct (is_big d') eqn:E; [|done].
      by rewrite (big_not_little d' E) in Hlittle'. }
    rewrite (is_little_order d Hlittle), (is_little_order d' Hlittle') in Hasc1.
    specialize (Hasc1 eq_refl).
    rewrite (start_bit_not_big d Hbig), (start_bit_not_big d' Hbig') in Hasc1.
    destruct (Z.lt_ge_cases (Data.start d) (Data.start d' + Data.length d'))
      as [Hov|]; [|lia].
    exfalso. apply (Hdis1 (linear_to_saw_tooth_bitnum (Data.start d))).
    split; [|by apply claims_little_start].
    unfold claims. rewrite Hbig', saw_tooth_involutive.
    apply andb_true_iff. lia.
  - apply IH; auto.
Qed.

Lemma valid_frame_big_chain datas N :
  valid_frame datas N -> ascending datas -> big_chain datas 0 (8 * N).
Proof.
  intros (HN & Hwf & Hin & Hdis) Hasc.
  apply (valid_big_chain (8 * N)); auto; [lia|].
  apply Forall_forall. intros d Hd Hbig.
  rewrite Forall_forall in Hin. destruct (Hin d Hd) as [Hlo _].
  by rewrite (start_bit_big d Hbig) in Hlo.
Qed.

Lemma valid_frame_little_chain datas N :
  valid_frame datas N -> ascending datas ->
  little_chain (reverse datas) (8 * N).
Proof.
  intros (HN & Hwf & Hin & Hdis) Hasc.
  apply (valid_little_chain (8 * N)); auto; [lia|].
  apply Forall_forall. intros d Hd Hlittle.
  rewrite Forall_forall in Hin. destruct (Hin d Hd) as [_ Hhi].
  assert (is_big d = false) as Hbig.
  { destruct (is_big d) eqn:E; [|done].
    by rewrite (big_not_little d E) in Hlittle. }
  by rewrite (start_bit_not_big d Hbig) in Hhi.
Qed.

End Frames.

(** * The compiled formats of a frame *)

Section Formats.

Import Utils Spec.

(** The bitstruct field a layout item compiles to. *)
Definition info_of (i : layout_item) : Bitstruct.info :=
  match i with
  | Padding w => Bitstruct.mk_info "p"%char w None
  | Field w k n => Bitstruct.mk_info (kind_char k) w (Some n)
  end.

Definition positive_width (i : layout_item) : Prop :=
  match i with
  | Padding w => 0 < w
  | Field w _ _ => 0 < w
  end.

(** The padding mask [create_little] returns. *)
Definition little_padding_mask (datas : list Data.t) (W : Z) : Z :=
  if 0 <? W
  then uint_of_bits
         (byte_reversed
            (Bitstruct.pad_to_byte
               (mask_bits (render <$> little_program datas W))))
  else items_padding_mask (render <$> little_program datas W).

(** The formats [create_encode_decode_formats] returns. *)
Definition formats_of (datas : list Data.t) (N : Z) : Formats :=
  mk_formats
    (Bitstruct.mk_compiled (info_of <$> big_program datas 0 (8 * N)))
    (Bitstruct.mk_compiled (info_of <$> little_program datas (8 * N)))
    (Z.land (items_padding_mask (render <$> big_program datas 0 (8 * N)))
            (little_padding_mask datas (8 * N))).

Lemma parse_format_program prog :
  Forall positive_width prog ->
  Bitstruct.parse_format (fmt (render <$> prog)) (names (render <$> prog))
  = Ok (info_of <$> prog).
Proof.
  induction 1 as [|i prog Hi _ IH]; [reflexivity|].
  destruct i as [w|w k n]; cbn [positive_width] in Hi.
  - cbn. assert ((w <=? 0) = false) as -> by lia.
    unfold fmt, names in IH. cbn in IH. rewrite IH. reflexivity.
  - cbn. assert ((w <=? 0) = false) as -> by lia.
    assert (Bitstruct.is_padding (kind_char k) = false) as -> by (by destruct k).
    assert (Bitstruct.is_value (kind_char k) = true) as -> by (by destruct k).
    unfold fmt, names in IH. cbn in IH. rewrite IH. reflexivity.
Qed.

Lemma big_program_positive datas W :
  Forall well_formed datas ->
  forall c, Forall positive_width (big_program datas c W).
Proof.
  induction 1 as [|d datas [_ Hlen] _ IH]; intros c; cbn [big_program].
  - destruct (c <? W) eqn:E; [|constructor].
    constructor; [cbn; lia | constructor].
  - destruct (is_big d); [|apply IH].
    apply Forall_app. split.
    + destruct (c <? msb_position d) eqn:E; [|constructor].
      constructor; [cbn; lia | constructor].
    + constructor; [cbn; lia | apply IH].
Qed.

Lemma little_walk_positive datas :
  Forall well_formed datas ->
  forall c, Forall positive_width (little_walk datas c).
Proof.
  induction 1 as [|d datas [_ Hlen] _ IH]; intros c; cbn [little_walk].
  - destruct (0 <? c) eqn:E; [|constructor].
    constructor; [cbn; lia | constructor].
  - destruct (is_little d); [|apply IH].
    apply Forall_app. split.
    + destruct (0 <? c - (Data.start d + Data.length d)) eqn:E; [|constructor].
      constructor; [cbn; lia | constructor].
    + constructor; [cbn; lia | apply IH].
Qed.

Lemma well_formed_recognized datas :
  Forall well_formed datas ->
  Forall (fun d => recognized (Data.byte_order d)) datas.
Proof. intros H. eapply Forall_impl; [exact H|]. by intros d [? _]. Qed.

(** For well-formed fields the formats are built without an error. *)
Lemma create_formats_programs datas N :
  Forall well_formed datas ->
  create_encode_decode_formats datas N = Ok (formats_of datas N).
Proof.
  intros Hwf. pose proof (well_formed_recognized datas Hwf) as Hrec.
  unfold create_encode_decode_formats, create_big.
  rewrite (create_big_items_program datas (8 * N) Hrec).
  rewrite (create_little_result datas (8 * N) Hrec).
  cbn [mbind result_bind].
  unfold Bitstruct.compile.
  rewrite (parse_format_program (big_program datas 0 (8 * N)))
    by (by apply big_program_positive).
  rewrite (parse_format_program (little_program datas (8 * N)))
    by (apply little_walk_positive; by apply Forall_reverse).
  reflexivity.
Qed.

End Formats.

(** * Every bit of a frame is covered once *)

Section Cover.

Import Utils Spec.

Lemma pad_to_byte_whole s n :
  length s = (8 * n)%nat -> Bitstruct.pad_to_byte s = s.
Proof.
  intros Hs. unfold Bitstruct.pad_to_byte.
  replace (Z.of_nat (length s)) with (Z.of_nat n * 8) by lia.
  rewrite Z.mod_mul by lia. reflexivity.
Qed.

Lemma frame_end_position N q :
  0 <= q < 8 * N ->
  8 * N - 1 - byte_reversed_position N q = linear_to_saw_tooth_bitnum q.
Proof.
  intros _. unfold byte_reversed_position, linear_to_saw_tooth_bitnum. lia.
Qed.

(** The big-endian program's padding mask at a position of the frame. *)
Lemma big_mask_lookup datas N q :
  valid_frame datas N -> ascending datas -> 0 <= q < 8 * N ->
  mask_bits (render <$> big_program datas 0 (8 * N)) !! Z.to_nat q
  = Some (negb (existsb (fun d => in_big d q) datas)).
Proof.
  intros Hvalid Hasc Hq.
  destruct (big_program_mask datas (8 * N) 0
              (valid_frame_big_chain datas N Hvalid Hasc)) as [_ Hlookup].
  rewrite <- (Hlookup q) by lia. f_equal. lia.
Qed.

Lemma big_mask_length datas N :
  valid_frame datas N -> ascending datas ->
  length (mask_bits (render <$> big_program datas 0 (8 * N))) = Z.to_nat (8 * N).
Proof.
  intros Hvalid Hasc.
  destruct (big_program_mask datas (8 * N) 0
              (valid_frame_big_chain datas N Hvalid Hasc)) as [Hlen _].
  rewrite Hlen. f_equal. lia.
Qed.

(** The little-endian program's padding mask at the position a bit of
    the frame has in the byte-reversed frame. *)
Lemma little_mask_lookup datas N q :
  valid_frame datas N -> ascending datas -> 0 <= q < 8 * N ->
  mask_bits (render <$> little_program datas (8 * N))
    !! Z.to_nat (byte_reversed_position N q)
  = Some (negb (existsb
                  (fun d => in_little d (linear_to_saw_tooth_bitnum q)) datas)).
Proof.
  intros Hvalid Hasc Hq.
  destruct (little_walk_mask (reverse datas) (8 * N)
              (valid_frame_little_chain datas N Hvalid Hasc)) as [_ Hlookup].
  pose proof (byte_reversed_position_range N q Hq) as Hr.
  pose proof (frame_end_position N q Hq) as He.
  unfold little_program.
  rewrite <- (existsb_reverse _ datas).
  rewrite <- (Hlookup (linear_to_saw_tooth_bitnum q)) by lia.
  f_equal. lia.
Qed.

Lemma little_mask_length datas N :
  valid_frame datas N -> ascending datas ->
  length (mask_bits (render <$> little_program datas (8 * N))) = Z.to_nat (8 * N).
Proof.
  intros Hvalid Hasc.
  by destruct (little_walk_mask (reverse datas) (8 * N)
                 (valid_frame_little_chain datas N Hvalid Hasc)) as [Hlen _].
Qed.

Lemma testbit_mask s N q b :
  Z.of_nat (length s) = 8 * N -> 0 <= q < 8 * N ->
  s !! Z.to_nat q = Some b ->
  Z.testbit (uint_of_bits s) (8 * N - 1 - q) = b.
Proof.
  intros Hs Hq Hb.
  rewrite <- (testbit_uint_of_bits s (Z.to_nat q) b Hb).
  f_equal. lia.
Qed.

(** No position is data of both programs. *)
Lemma no_shared_data datas N q :
  valid_frame datas N ->
  existsb (fun d => in_big d q) datas
  && existsb (fun d => in_little d (linear_to_saw_tooth_bitnum q)) datas = false.
Proof.
  intros (_ & Hwf & _ & Hdis).
  apply Bool.not_true_is_false. intros [Hb Hl]%andb_true_iff.
  apply existsb_exists in Hb as (d & Hd & Hb).
  apply existsb_exists in Hl as (d' & Hd' & Hl).
  rewrite in_big_claims in Hb. apply andb_true_iff in Hb as [Hbig Hc].
  rewrite Forall_forall in Hwf.
  destruct (Hwf d' ltac:(by apply list_elem_of_In)) as [Hrec _].
  rewrite (in_little_claims d' q Hrec) in Hl.
  apply andb_true_iff in Hl as [Hlittle Hc'].
  destruct (ForallOrdPairs_In Hdis d d' Hd Hd') as [->|[H|H]].
  - by rewrite (big_not_little d' Hbig) in Hlittle.
  - by apply (H q).
  - by apply (H q).
Qed.

Lemma covered_once_formats datas N :
  valid_frame datas N -> ascending datas ->
  covered_once datas N (formats_of datas N).
Proof.
  intros Hvalid Hasc q Hq.
  pose proof Hvalid as (HN & Hwf & _).
  pose proof (well_formed_recognized datas Hwf) as Hrec.
  pose proof (big_mask_lookup datas N q Hvalid Hasc Hq) as Hbig.
  pose proof (little_mask_lookup datas N q Hvalid Hasc Hq) as Hlittle.
  pose proof (big_mask_length datas N Hvalid Hasc) as Hblen.
  pose proof (little_mask_length datas N Hvalid Hasc) as Hllen.
  pose proof (no_shared_data datas N q Hvalid) as Hshared.
  unfold big_data_at, little_data_at, mask_at.
  rewrite (create_big_items_program datas (8 * N) Hrec).
  rewrite (create_little_items_program datas (8 * N) Hrec).
  rewrite Hbig, Hlittle.
  cbn [padding_mask formats_of]. rewrite Z.land_spec.
  rewrite items_padding_mask_uint.
  assert (Z.of_nat (length (mask_bits (render <$> big_program datas 0 (8 * N))))
          = 8 * N) as Hblen' by (rewrite Hblen; lia).
  rewrite (testbit_mask _ N q _ Hblen' Hq Hbig).
  unfold little_padding_mask.
  assert ((0 <? 8 * N) = true) as -> by lia.
  rewrite (pad_to_byte_whole _ (Z.to_nat N)) by lia.
  assert (byte_reversed (mask_bits (render <$> little_program datas (8 * N)))
            !! Z.to_nat q
          = Some (negb (existsb
                          (fun d => in_little d (linear_to_saw_tooth_bitnum q))
                          datas))) as Hrev.
  { rewrite (byte_reversed_lookup _ N q) by lia. exact Hlittle. }
  assert (Z.of_nat
            (length (byte_reversed
                       (mask_bits (render <$> little_program datas (8 * N)))))
          = 8 * N) as Hrlen
    by (rewrite (length_byte_reversed _ (Z.to_nat N)) by lia; lia).
  rewrite (testbit_mask _ N q _ Hrlen Hq Hrev).
  destruct (existsb (fun d => in_big d q) datas),
           (existsb (fun d => in_little d (linear_to_saw_tooth_bitnum q)) datas);
    try discriminate Hshared; reflexivity.
Qed.

(** C6: in a valid frame (non-negative byte length; every field of a
    recognized byte order, at least one bit wide and within the frame;
    no two fields overlapping) whose fields of either byte order are
    declared in ascending order of position, the formats are built, and
    every bit of the frame is exactly one of: data of the big-endian
    program, data of the little-endian program read against the
    byte-reversed frame, or a bit of the combined padding mask, the
    bitwise AND of the big-endian padding mask and the byte-reversed
    little-endian padding mask.  In particular no bit is data of both
    programs. *)
Theorem ordered_valid_frame_covered_once (datas : list Data.t) (N : Z) :
  valid_frame datas N -> ascending datas ->
  exists formats,
    create_encode_decode_formats datas N = Ok formats
    /\ covered_once datas N formats.
Proof.
  intros Hvalid Hasc. exists (formats_of datas N). split.
  - apply create_formats_programs. by destruct Hvalid as (_ & Hwf & _).
  - by apply covered_once_formats.
Qed.

Lemma claims_big_iff d q :
  is_big d = true ->
  claims d q = true <-> start_bit d <= q < start_bit d + Data.length d.
Proof. unfold claims. intros ->. rewrite andb_true_iff. lia. Qed.

Lemma claims_little_iff d q :
  is_big d = false ->
  claims d q = true
  <-> Data.start d <= linear_to_saw_tooth_bitnum q < Data.start d + Data.length d.
Proof. unfold claims. intros ->. rewrite andb_true_iff. lia. Qed.

(** The attributes of a given field, evaluated. *)
Ltac eval_field_in H :=
  repeat match type of H with
         | context [start_bit ?d] =>
             let v := eval vm_compute in (start_bit d) in
             change (start_bit d) with v in H
         | context [Data.start ?d] =>
             let v := eval vm_compute in (Data.start d) in
             change (Data.start d) with v in H
         | context [Data.length ?d] =>
             let v := eval vm_compute in (Data.length d) in
             change (Data.length d) with v in H
         end.

(** Disjointness of two given fields, by arithmetic on the position. *)
Ltac solve_disjoint :=
  let q := fresh "q" in
  let H1 := fresh "H" in
  let H2 := fresh "H" in
  intros q [H1 H2];
  first [rewrite claims_big_iff in H1 by reflexivity
        |rewrite claims_little_iff in H1 by reflexivity];
  first [rewrite claims_big_iff in H2 by reflexivity
        |rewrite claims_little_iff in H2 by reflexivity];
  eval_field_in H1; eval_field_in H2;
  unfold linear_to_saw_tooth_bitnum in H1, H2; cbn zeta in H1, H2;
  pose proof (Z.div_mod q 8 ltac:(lia));
  pose proof (Z.mod_pos_bound q 8 ltac:(lia));
  lia.

(** The frame bounds of a given field. *)
Ltac solve_within :=
  unfold within_frame;
  match goal with
  | |- context [start_bit ?d] =>
      let v := eval vm_compute in (start_bit d) in
      change (start_bit d) with v
  end;
  cbn; lia.

Lemma example_frame_valid : valid_frame Examples.frame 5.
Proof.
  split; [lia|]. split; [|split].
  - repeat (constructor; [split; [by (left + right) | cbn; lia]|]); constructor.
  - repeat (constructor; [solve_within|]); constructor.
  - repeat (constructor;
            [repeat (constructor; [solve_disjoint|]); constructor|]);
      constructor.
Qed.

Lemma example_frame_ascending : ascending Examples.frame.
Proof.
  unfold ascending.
  repeat (constructor;
          [repeat (constructor;
                   [let H := fresh in
                    intros H; try discriminate H; by vm_compute|]);
           constructor|]);
    constructor.
Qed.

Lemma ordered_valid_frame_covered_once_witness :
  (valid_frame Examples.frame 5 /\ ascending Examples.frame)
  /\ exists formats,
       create_encode_decode_formats Examples.frame 5 = Ok formats
       /\ covered_once Examples.frame 5 formats.
Proof.
  split; [split; [exact example_frame_valid | exact example_frame_ascending]|].
  exact (ordered_valid_frame_covered_once Examples.frame 5
           example_frame_valid example_frame_ascending).
Defined.

Lemma unordered_frame_valid : valid_frame Examples.unordered 2.
Proof.
  split; [lia|]. split; [|split].
  - repeat (constructor; [split; [by (left + right) | cbn; lia]|]); constructor.
  - repeat (constructor; [solve_within|]); constructor.
  - repeat (constructor;
            [repeat (constructor; [solve_disjoint|]); constructor|]);
      constructor.
Qed.

(** The frame of the one field [E] of twelve bytes is valid. *)
Lemma wide_frame_valid : valid_frame [Examples.field_e] 12.
Proof.
  split; [lia|]. split; [|split].
  - repeat (constructor; [split; [by (left + right) | cbn; lia]|]); constructor.
  - repeat (constructor; [solve_within|]); constructor.
  - repeat (constructor; [constructor|]); constructor.
Qed.

(** The frame [unordered] is valid, yet its first bit is covered by
    nothing: the big-endian program places [X] and [Y] one after the
    other from bit 8 on, and the combined mask is clear at bit 0. *)
Lemma unordered_frame_not_covered :
  valid_frame Examples.unordered 2
  /\ ~ (exists formats,
          create_encode_decode_formats Examples.unordered 2 = Ok formats
          /\ covered_once Examples.unordered 2 formats).
Proof.
  split; [exact unordered_frame_valid|].
  intros (formats & Hf & Hcov).
  vm_compute in Hf. injection Hf as <-.
  specialize (Hcov 0 ltac:(lia)).
  vm_compute in Hcov. discriminate Hcov.
Qed.

End Cover.

(** * Encoding and decoding a frame *)

Section Codec.

Import Utils Spec.

Lemma reverse_nonempty {A : Type} (l : list A) : l <> [] -> reverse l <> [].
Proof.
  intros Hl Hnil. apply Hl.
  rewrite <- (reverse_involutive l), Hnil. reflexivity.
Qed.

(** C7: for every non-empty field list, when the fields encode to the
    raw values [unpacked] and the two compiled programs pack them into
    the non-empty buffers [big_packed] and [little_packed],
    [encode_data] returns the bitwise OR of [big_packed] and of
    [little_packed] with its bytes reversed, each read as one unsigned
    big-endian integer; and [decode_data] unpacks the buffer with the
    big-endian program and the byte-reversed buffer with the
    little-endian program, and decodes every field from the union of
    the two results, which is the same in either order when the two
    name sets are disjoint. *)
Theorem encode_decode_merge_programs
    (data : gmap string value) (fields : list Data.t) (formats : Formats)
    (scaling decode_choices : bool)
    (unpacked : gmap string Z) (big_packed little_packed : bytes)
    (frame : bytes) (big little : gmap string Z) :
  fields <> [] ->
  comprehension (fun field => _encode_field field data scaling) fields ∅
    = Ok unpacked ->
  Bitstruct.pack (big_endian formats) unpacked = Ok big_packed ->
  Bitstruct.pack (little_endian formats) unpacked = Ok little_packed ->
  big_packed <> [] -> little_packed <> [] ->
  Bitstruct.unpack (big_endian formats) frame = Ok big ->
  Bitstruct.unpack (little_endian formats) (reverse frame) = Ok little ->
  big ##ₘ little ->
  encode_data data fields formats scaling
    = Ok (Z.lor (uint_of_bytes big_packed)
                (uint_of_bytes (reverse little_packed)))
  /\ decode_data frame fields formats decode_choices scaling
     = comprehension
         (fun field =>
            raw ← getitem (big ∪ little) (Data.name field);
            _decode_field field raw decode_choices scaling)
         fields ∅.
Proof.
  intros Hfields Hunpacked Hbig Hlittle Hb Hl Hubig Hulittle Hdisjoint. split.
  - unfold encode_data.
    destruct fields as [|field fields]; [done|].
    cbn [length Nat.eqb]. rewrite Hunpacked. cbn [mbind result_bind].
    rewrite Hbig, Hlittle. cbn [mbind result_bind fmap result_fmap].
    rewrite (int_hexlify_nonempty big_packed Hb).
    rewrite (int_hexlify_nonempty _ (reverse_nonempty _ Hl)).
    reflexivity.
  - unfold decode_data. rewrite Hubig, Hulittle. cbn [mbind result_bind].
    rewrite (map_union_comm big little Hdisjoint). reflexivity.
Qed.

Lemma example_names_disjoint :
  ({[ "A"%string := 18; "C"%string := 3 ]} : gmap string Z)
    ##ₘ {[ "B"%string := 52; "D"%string := 200 ]}.
Proof. apply map_disjoint_dom. set_solver. Qed.

Lemma encode_decode_merge_programs_witness :
  encode_data Examples.values Examples.frame (formats_of Examples.frame 5) true
    = Ok (Z.lor (uint_of_bytes [18; 0; 0; 3; 0])
                (uint_of_bytes (reverse [200; 0; 0; 52; 0])))
  /\ decode_data Examples.buffer Examples.frame (formats_of Examples.frame 5)
       true true
     = comprehension
         (fun field =>
            raw ← getitem ({[ "A"%string := 18; "C"%string := 3 ]}
                           ∪ {[ "B"%string := 52; "D"%string := 200 ]})
                          (Data.name field);
            _decode_field field raw true true)
         Examples.frame ∅.
Proof.
  apply (encode_decode_merge_programs
           Examples.values Examples.frame (formats_of Examples.frame 5)
           true true Examples.raw_values
           [18; 0; 0; 3; 0] [200; 0; 0; 52; 0] Examples.buffer
           {[ "A"%string := 18; "C"%string := 3 ]}
           {[ "B"%string := 52; "D"%string := 200 ]}).
  - discriminate.
  - reflexivity.
  - reflexivity.
  - reflexivity.
  - discriminate.
  - discriminate.
  - reflexivity.
  - reflexivity.
  - exact example_names_disjoint.
Defined.

(** ** Decoding one field *)

Lemma lookup_choice_none l raw : raw ∉ l.*1 -> Data.lookup_choice l raw = None.
Proof.
  induction l as [|[k s] l IH]; cbn [Data.lookup_choice]; [done|].
  rewrite fmap_cons, not_elem_of_cons. cbn [fst]. intros [Hne Hl].
  assert ((k =? raw) = false) as -> by lia. by apply IH.
Qed.

(** On a field with an integer scale and offset and a raw integer
    without a matching choice, decoding with choice decoding enabled
    returns [scale * raw + offset] when scaling is requested and the raw
    integer otherwise. *)
Lemma decode_field_falls_back (field : Data.t) (raw : Z) (scaling : bool) :
  no_choice field raw ->
  _decode_field field raw true scaling
  = Ok (VInt (if scaling
              then Data.scale field * raw + Data.offset field
              else raw)).
Proof.
  unfold no_choice, _decode_field, Data.choices_getitem.
  destruct (Data.choices field) as [l|].
  - intros Hraw. rewrite (lookup_choice_none l raw Hraw).
    by destruct scaling.
  - intros _. by destruct scaling.
Qed.

End Codec.

(** * Decimal arithmetic and the rounding of an encoded field *)

Section DecimalFacts.

Import Utils Spec.

Lemma digits_fuel_spec fuel :
  forall n, 0 < n -> n < 2 ^ (Z.of_nat fuel + 1) ->
    1 <= Decimal.digits_fuel fuel n
    /\ 10 ^ (Decimal.digits_fuel fuel n - 1) <= n
         < 10 ^ Decimal.digits_fuel fuel n.
Proof.
  induction fuel as [|fuel IH]; intros n Hn Hb; cbn [Decimal.digits_fuel].
  - change (2 ^ (Z.of_nat 0 + 1)) with 2 in Hb.
    change (10 ^ (1 - 1)) with 1. change (10 ^ 1) with 10. lia.
  - destruct (n <? 10) eqn:Hsmall.
    + change (10 ^ (1 - 1)) with 1. change (10 ^ 1) with 10. lia.
    + assert (0 < n / 10) as Hq by (apply Z.div_str_pos; lia).
      assert (n / 10 < 2 ^ (Z.of_nat fuel + 1)) as Hqb.
      { apply Z.div_lt_upper_bound; [lia|].
        rewrite Nat2Z.inj_succ in Hb.
        replace (Z.succ (Z.of_nat fuel) + 1) with (Z.succ (Z.of_nat fuel + 1)) in Hb by lia.
        rewrite Z.pow_succ_r in Hb by lia. lia. }
      destruct (IH (n / 10) Hq Hqb) as (Hd & Hlo & Hhi).
      set (d := Decimal.digits_fuel fuel (n / 10)) in *.
      pose proof (Z.div_mod n 10 ltac:(lia)) as Hdm.
      pose proof (Z.mod_pos_bound n 10 ltac:(lia)) as Hm.
      replace (1 + d - 1) with (Z.succ (d - 1)) by lia.
      replace (1 + d) with (Z.succ d) by lia.
      rewrite !Z.pow_succ_r by lia. lia.
Qed.

Lemma digits_spec n :
  n <> 0 ->
  1 <= Decimal.digits n
  /\ 10 ^ (Decimal.digits n - 1) <= Z.abs n < 10 ^ Decimal.digits n.
Proof.
  intros Hn. unfold Decimal.digits.
  apply digits_fuel_spec; [lia|].
  destruct (Z.log2_spec (Z.abs n) ltac:(lia)) as [_ Hhi].
  rewrite Z2Nat.id by apply Z.log2_nonneg.
  replace (Z.log2 (Z.abs n) + 1) with (Z.succ (Z.log2 (Z.abs n))) by lia.
  exact Hhi.
Qed.

Lemma digits_pos n : 1 <= Decimal.digits n.
Proof.
  destruct (Z.eq_dec n 0) as [->|Hn]; [by vm_compute|].
  by destruct (digits_spec n Hn).
Qed.

Lemma digits_upper n k : 1 <= k -> Z.abs n < 10 ^ k -> Decimal.digits n <= k.
Proof.
  intros Hk Hn. destruct (Z.eq_dec n 0) as [->|Hne].
  - change (Decimal.digits 0) with 1. lia.
  - destruct (digits_spec n Hne) as (Hd & Hlo & _).
    destruct (Z.le_gt_cases (Decimal.digits n) k) as [|Hgt]; [done|].
    exfalso.
    assert (10 ^ k <= 10 ^ (Decimal.digits n - 1))
      by (apply Z.pow_le_mono_r; lia).
    lia.
Qed.

(** ** Rounding half to even *)

Lemma div_half_even_spec a b :
  0 < b -> nearest_half_even a b (Decimal.div_half_even a b).
Proof.
  intros Hb. unfold nearest_half_even, Decimal.div_half_even. cbn zeta.
  pose proof (Z.div_mod a b ltac:(lia)) as Hdm.
  pose proof (Z.mod_pos_bound a b Hb) as Hm.
  set (q := a / b) in *. set (r := a mod b) in *.
  assert (a - q * b = r) as Hq by lia.
  assert (a - (q + 1) * b = r - b) as Hq1 by lia.
  rewrite (Z.abs_eq b) by lia.
  destruct (2 * r <? b) eqn:H1.
  - rewrite Hq. split; lia.
  - destruct (b <? 2 * r) eqn:H2.
    + rewrite Hq1. split; lia.
    + destruct (Z.even q) eqn:He.
      * rewrite Hq. split; [lia|done].
      * rewrite Hq1. split; [lia|]. intros _.
        replace (q + 1) with (Z.succ q) by lia.
        rewrite Z.even_succ, <- Z.negb_even, He. reflexivity.
Qed.

Lemma nearest_half_even_unique a b r1 r2 :
  0 < b -> nearest_half_even a b r1 -> nearest_half_even a b r2 -> r1 = r2.
Proof.
  intros Hb [H1 T1] [H2 T2]. rewrite (Z.abs_eq b) in * by lia.
  assert (r1 - r2 = 0 \/ r1 - r2 = 1 \/ r1 - r2 = -1) as [H|[H|H]] by nia.
  - lia.
  - exfalso. replace r1 with (Z.succ r2) in * by lia.
    assert (a - Z.succ r2 * b = a - r2 * b - b) as E by lia.
    rewrite E in *.
    assert (Z.even (Z.succ r2) = true) as Heven by (apply T1; lia).
    assert (Z.even r2 = true) as Heven' by (apply T2; lia).
    rewrite Z.even_succ, <- Z.negb_even, Heven' in Heven. discriminate.
  - exfalso. replace r2 with (Z.succ r1) in * by lia.
    assert (a - Z.succ r1 * b = a - r1 * b - b) as E by lia.
    rewrite E in *.
    assert (Z.even (Z.succ r1) = true) as Heven by (apply T2; lia).
    assert (Z.even r1 = true) as Heven' by (apply T1; lia).
    rewrite Z.even_succ, <- Z.negb_even, Heven' in Heven. discriminate.
Qed.

Lemma nearest_half_even_opp a b r :
  nearest_half_even a b r -> nearest_half_even (- a) b (- r).
Proof.
  unfold nearest_half_even. intros [H T].
  replace (- a - - r * b) with (- (a - r * b)) by lia.
  rewrite Z.abs_opp, Z.even_opp. auto.
Qed.

Lemma div_half_even_opp a b :
  0 < b -> Decimal.div_half_even (- a) b = - Decimal.div_half_even a b.
Proof.
  intros Hb. apply (nearest_half_even_unique (- a) b); [done| |].
  - by apply div_half_even_spec.
  - by apply nearest_half_even_opp, div_half_even_spec.
Qed.

(** Rounding [N / D] first to a multiple of [1 / P] and then to an
    integer gives the integer nearest to [N / D], when [P] is even and
    exceeds [D]. *)
Lemma nearest_half_even_twice N D P c r :
  0 < D < P -> Z.even P = true ->
  nearest_half_even (N * P) D c -> nearest_half_even c P r ->
  nearest_half_even N D r.
Proof.
  intros [HD HP] Heven [Hc Tc] [Hr Tr].
  unfold nearest_half_even.
  rewrite (Z.abs_eq D) in * by lia. rewrite (Z.abs_eq P) in * by lia.
  set (x := N * P - c * D) in *. set (y := c - r * P) in *.
  set (z := N - r * D).
  assert (P * z = x + D * y) as Hz by (subst x y z; ring).
  assert (P * Z.abs z <= Z.abs x + D * Z.abs y) as Hle.
  { rewrite <- (Z.abs_eq P) at 1 by lia. rewrite <- Z.abs_mul, Hz.
    etransitivity; [apply Z.abs_triangle|].
    rewrite Z.abs_mul, (Z.abs_eq D) by lia. lia. }
  pose proof (Z.abs_nonneg z) as Hz0.
  pose proof (Z.abs_nonneg y) as Hy0.
  assert (D * (2 * Z.abs y) <= D * P) as Hdy by (apply Z.mul_le_mono_nonneg_l; lia).
  split.
  - destruct (Z.le_gt_cases (2 * Z.abs z) D) as [|Hgt]; [done|]. exfalso.
    assert (P * (D + 1) <= P * (2 * Z.abs z)) by (apply Z.mul_le_mono_nonneg_l; lia).
    lia.
  - intros Htie.
    destruct (Z.eq_dec (2 * Z.abs y) P) as [Hy|Hy]; [by apply Tr|]. exfalso.
    apply Z.even_spec in Heven as [P' HP'].
    assert (2 * Z.abs y <= P - 2) as Hy2 by lia.
    assert (D * (2 * Z.abs y) <= D * (P - 2)) by (apply Z.mul_le_mono_nonneg_l; lia).
    assert (P * (2 * Z.abs z) = P * D) by (by rewrite Htie).
    lia.
Qed.

End DecimalFacts.

Section EncodeField.

Import Utils Spec.

Lemma pow10_pos k : 0 < 10 ^ k \/ k < 0.
Proof.
  destruct (Z.lt_ge_cases k 0); [by right|left].
  apply Z.pow_pos_nonneg; lia.
Qed.

(** The quotient of two integers, the dividend below [10 ^ 27]: the
    scale [10 ^ k] at which the context rounds it exceeds the divisor. *)
Lemma quotient_shape n d :
  n <> 0 -> d <> 0 -> Z.abs n < 10 ^ 27 ->
  exists k,
    1 <= k /\ Z.abs d < 10 ^ k
    /\ Decimal.quotient n d
       = Decimal.mk
           (Z.sgn n * Z.sgn d
            * Decimal.div_half_even (Z.abs n * 10 ^ k) (Z.abs d))
           (- k).
Proof.
  intros Hn Hd Hsmall.
  unfold Decimal.quotient. cbn zeta.
  assert ((Z.abs n =? 0) = false) as -> by lia.
  destruct (digits_spec (Z.abs n) ltac:(lia)) as (HdN & HloN & HhiN).
  destruct (digits_spec (Z.abs d) ltac:(lia)) as (HdD & HloD & HhiD).
  rewrite Z.abs_idemp in HloN, HhiN, HloD, HhiD.
  pose proof (digits_upper (Z.abs n) 27 ltac:(lia)
                ltac:(by rewrite Z.abs_idemp)) as HN27.
  set (dN := Decimal.digits (Z.abs n)) in *.
  set (dD := Decimal.digits (Z.abs d)) in *.
  unfold Decimal.prec.
  set (reaches := if 0 <=? dN - dD
                  then Z.abs d * 10 ^ (dN - dD) <=? Z.abs n
                  else Z.abs d <=? Z.abs n * 10 ^ (- (dN - dD))).
  destruct reaches eqn:Hreach; subst reaches.
  - exists (28 - 1 - (dN - dD)).
    assert ((0 <=? 28 - 1 - (dN - dD)) = true) as -> by lia.
    split; [lia|]. split; [|reflexivity].
    destruct (0 <=? dN - dD) eqn:He0.
    + assert (0 < 10 ^ (dN - dD)) by (apply Z.pow_pos_nonneg; lia).
      assert (10 ^ 27 = 10 ^ (28 - 1 - (dN - dD)) * 10 ^ (dN - dD)) as E.
      { rewrite <- Z.pow_add_r by lia. f_equal; lia. }
      apply (Z.mul_lt_mono_pos_r (10 ^ (dN - dD))); [done|].
      rewrite <- E. lia.
    + assert (0 < 10 ^ (- (dN - dD))) by (apply Z.pow_pos_nonneg; lia).
      assert (10 ^ (28 - 1 - (dN - dD)) = 10 ^ 27 * 10 ^ (- (dN - dD))) as ->.
      { rewrite <- Z.pow_add_r by lia. f_equal; lia. }
      assert (Z.abs n * 10 ^ (- (dN - dD)) < 10 ^ 27 * 10 ^ (- (dN - dD)))
        by (apply Z.mul_lt_mono_pos_r; lia).
      lia.
  - exists (28 - 1 - (dN - dD - 1)).
    assert ((0 <=? 28 - 1 - (dN - dD - 1)) = true) as -> by lia.
    split; [lia|]. split; [|reflexivity].
    assert (10 ^ dD <= 10 ^ (28 - 1 - (dN - dD - 1)))
      by (apply Z.pow_le_mono_r; lia).
    lia.
Qed.

Lemma sub_of_int_exact v offset :
  Z.abs (v - offset) < 10 ^ 27 ->
  Decimal.sub (Decimal.of_int v) (Decimal.of_int offset)
  = Decimal.mk (v - offset) 0.
Proof.
  intros Hsmall. unfold Decimal.sub, Decimal.of_int, Decimal.fix_.
  cbn [Decimal.exp Decimal.coef]. change (Z.min 0 0) with 0.
  change (10 ^ (0 - 0)) with 1. rewrite !Z.mul_1_r.
  assert (Decimal.digits (v - offset) <= 27)
    by (apply digits_upper; lia).
  unfold Decimal.prec.
  assert ((Decimal.digits (v - offset) <=? 28) = true) as -> by lia.
  reflexivity.
Qed.

Lemma nearest_half_even_signs n d r :
  n <> 0 -> d <> 0 ->
  nearest_half_even (Z.abs n) (Z.abs d) r ->
  nearest_half_even n d (Z.sgn n * Z.sgn d * r).
Proof.
  unfold nearest_half_even. intros Hn Hd [H T].
  rewrite Z.abs_idemp in *.
  assert (Z.abs (n - Z.sgn n * Z.sgn d * r * d)
          = Z.abs (Z.abs n - r * Z.abs d)) as ->.
  { destruct (Z.lt_trichotomy n 0) as [?|[?|?]]; [|lia|];
      destruct (Z.lt_trichotomy d 0) as [?|[?|?]]; lia. }
  split; [done|]. intros Htie.
  assert (Z.even (Z.sgn n * Z.sgn d * r) = Z.even r) as ->; [|by apply T].
  rewrite !Z.even_mul.
  destruct (Z.lt_trichotomy n 0) as [?|[?|?]]; [|lia|];
    destruct (Z.lt_trichotomy d 0) as [?|[?|?]]; try lia;
    rewrite ?(Z.sgn_neg n), ?(Z.sgn_pos n), ?(Z.sgn_neg d), ?(Z.sgn_pos d) by lia;
    reflexivity.
Qed.

Lemma to_integral_signed s c k :
  1 <= k -> (s = 1 \/ s = -1) ->
  Decimal.to_integral (Decimal.mk (s * c) (- k + 0 - 0))
  = s * Decimal.div_half_even c (10 ^ k).
Proof.
  intros Hk Hs. unfold Decimal.to_integral. cbn [Decimal.exp Decimal.coef].
  assert ((0 <=? - k + 0 - 0) = false) as -> by lia.
  replace (- (- k + 0 - 0)) with k by lia.
  assert (0 < 10 ^ k) by (apply Z.pow_pos_nonneg; lia).
  destruct Hs as [->| ->].
  - by rewrite !Z.mul_1_l.
  - replace (-1 * c) with (- c) by lia.
    rewrite div_half_even_opp by done. lia.
Qed.

Lemma even_pow10 k : 1 <= k -> Z.even (10 ^ k) = true.
Proof.
  intros Hk. replace k with (Z.succ (k - 1)) by lia.
  rewrite Z.pow_succ_r by lia. rewrite Z.even_mul. reflexivity.
Qed.

(** The raw value of an integer-kind field: the decimal computation of
    [_encode_field] on integers whose difference is below [10 ^ 27]. *)
Lemma encode_integer_nearest v offset scale :
  scale <> 0 -> Z.abs (v - offset) < 10 ^ 27 ->
  exists raw,
    (q ← Decimal.div (Decimal.sub (Decimal.of_int v) (Decimal.of_int offset))
                     (Decimal.of_int scale);
     Ok (Decimal.to_integral q)) = Ok raw
    /\ nearest_half_even (v - offset) scale raw.
Proof.
  intros Hscale Hsmall.
  rewrite (sub_of_int_exact v offset Hsmall).
  unfold Decimal.div, Decimal.of_int. cbn [Decimal.coef Decimal.exp].
  assert ((scale =? 0) = false) as -> by lia.
  cbn [mbind result_bind].
  set (n := v - offset) in *.
  destruct (Z.eq_dec n 0) as [Hn|Hn].
  - exists 0. rewrite Hn. split; [reflexivity|].
    unfold nearest_half_even. cbn. split; [lia|done].
  - destruct (quotient_shape n scale Hn Hscale Hsmall) as (k & Hk & Hlt & ->).
    cbn [Decimal.coef Decimal.exp].
    eexists. split.
    + rewrite to_integral_signed; [reflexivity|done|].
      destruct (Z.lt_trichotomy n 0) as [?|[?|?]]; [|lia|];
        destruct (Z.lt_trichotomy scale 0) as [?|[?|?]]; try lia;
        rewrite ?(Z.sgn_neg n), ?(Z.sgn_pos n),
          ?(Z.sgn_neg scale), ?(Z.sgn_pos scale) by lia; lia.
    + apply nearest_half_even_signs; [done..|].
      assert (0 < 10 ^ k) by (apply Z.pow_pos_nonneg; lia).
      apply (nearest_half_even_twice _ _ (10 ^ k)
               (Decimal.div_half_even (Z.abs n * 10 ^ k) (Z.abs scale))).
      * lia.
      * by apply even_pow10.
      * apply div_half_even_spec. lia.
      * by apply div_half_even_spec.
Qed.

(** C8: for every integer-kind field with a non-zero integer scale and
    every integer value with [|value - offset| < 10 ^ 27], encoding with
    scaling returns the integer nearest to the exact quotient
    [(value - offset) / scale], the even one on a tie.  (The quotient is
    computed in decimal arithmetic of 28 significant digits, which is
    exact enough below that bound.) *)
Theorem encode_field_rounds_half_even
    (field : Data.t) (data : gmap string value) (v : Z) :
  Data.is_float field = false ->
  data !! Data.name field = Some (VInt v) ->
  Data.scale field <> 0 ->
  Z.abs (v - Data.offset field) < 10 ^ 27 ->
  exists raw,
    _encode_field field data true = Ok raw
    /\ nearest_half_even (v - Data.offset field) (Data.scale field) raw.
Proof.
  intros Hfloat Hv Hscale Hsmall.
  unfold _encode_field, getitem. rewrite Hv, Hfloat.
  cbn [mbind result_bind].
  exact (encode_integer_nearest v (Data.offset field) (Data.scale field)
           Hscale Hsmall).
Qed.

Lemma encode_field_rounds_half_even_witness :
  (Data.is_float Examples.field_c = false
   /\ ({[ "C"%string := VInt 6 ]} : gmap string value)
        !! Data.name Examples.field_c = Some (VInt 6)
   /\ Data.scale Examples.field_c <> 0
   /\ Z.abs (6 - Data.offset Examples.field_c) < 10 ^ 27)
  /\ exists raw,
       _encode_field Examples.field_c {[ "C"%string := VInt 6 ]} true = Ok raw
       /\ nearest_half_even (6 - Data.offset Examples.field_c)
            (Data.scale Examples.field_c) raw.
Proof.
  assert (Data.scale Examples.field_c <> 0) as Hscale by discriminate.
  assert (Z.abs (6 - Data.offset Examples.field_c) < 10 ^ 27) as Hsmall
    by reflexivity.
  split; [repeat split; done|].
  exact (encode_field_rounds_half_even Examples.field_c
           {[ "C"%string := VInt 6 ]} 6 eq_refl eq_refl Hscale Hsmall).
Defined.

(** With a value of 29 digits the subtraction is rounded to 28 digits
    before the division: [5 * 10 ^ 28 + 1] over the scale [10 ^ 29]
    encodes to 0, while the exact quotient lies above one half. *)
Lemma encode_field_wide_value_not_nearest :
  _encode_field Examples.field_wide
    {[ "W"%string := VInt (5 * 10 ^ 28 + 1) ]} true = Ok 0
  /\ ~ nearest_half_even
        (5 * 10 ^ 28 + 1 - Data.offset Examples.field_wide)
        (Data.scale Examples.field_wide) 0.
Proof.
  split; [by vm_compute|].
  intros [H _]. vm_compute in H. by apply H.
Qed.

End EncodeField.

(** * Packing and unpacking a layout program *)

Section PackUnpack.

Import Utils Spec.

Lemma result_bind_ok {A B : Type} (r : result A) (k : A -> result B) (b : B) :
  r ≫= k = Ok b -> exists a, r = Ok a /\ k a = Ok b.
Proof. destruct r as [a|e]; [|discriminate]. intros H. by exists a. Qed.

Lemma pack_value_length i v s :
  Bitstruct.pack_value i v = Ok s -> length s = Z.to_nat (Bitstruct.size i).
Proof.
  unfold Bitstruct.pack_value.
  repeat match goal with |- context [if ?c then _ else _] => destruct c end;
    try discriminate; intros [= <-]; apply length_bits_of_uint.
Qed.

Lemma testbit_top_set x n :
  1 <= n -> 2 ^ (n - 1) <= x < 2 ^ n -> Z.testbit x (n - 1) = true.
Proof.
  intros Hn Hx. apply Z.testbit_true; [lia|].
  assert (0 < 2 ^ (n - 1)) by (apply Z.pow_pos_nonneg; lia).
  assert (2 ^ n = 2 * 2 ^ (n - 1)) as E.
  { replace n with (Z.succ (n - 1)) at 1 by lia. apply Z.pow_succ_r. lia. }
  assert (x / 2 ^ (n - 1) = 1) as ->; [|done].
  symmetry. apply (Z.div_unique x (2 ^ (n - 1)) 1 (x - 2 ^ (n - 1))); lia.
Qed.

Lemma testbit_top_clear x n :
  1 <= n -> 0 <= x < 2 ^ (n - 1) -> Z.testbit x (n - 1) = false.
Proof.
  intros Hn Hx. apply Z.testbit_false; [lia|].
  rewrite Z.div_small by lia. reflexivity.
Qed.

(** What was packed into a field is what is unpacked from it. *)
Lemma unpack_pack_value i v s :
  0 < Bitstruct.size i ->
  Bitstruct.pack_value i v = Ok s -> Bitstruct.unpack_value i s = Ok v.
Proof.
  intros Hsize. unfold Bitstruct.pack_value, Bitstruct.unpack_value.
  set (w := Bitstruct.size i) in *. clearbody w.
  assert (Z.of_nat (Z.to_nat w) = w) as Hw by lia.
  destruct (Ascii.eqb (Bitstruct.type_ i) "u").
  - destruct ((0 <=? v) && (v <? 2 ^ w)) eqn:Hfit; [|discriminate].
    apply andb_true_iff in Hfit as [H0 H1].
    intros [= <-]. f_equal.
    apply uint_of_bits_of_uint_small. rewrite Hw. lia.
  - destruct (Ascii.eqb (Bitstruct.type_ i) "s"); [|discriminate].
    destruct ((- 2 ^ (w - 1) <=? v) && (v <? 2 ^ (w - 1))) eqn:Hfit; [|discriminate].
    apply andb_true_iff in Hfit as [H0 H1].
    intros [= <-]. f_equal.
    assert (0 < 2 ^ (w - 1)) by (apply Z.pow_pos_nonneg; lia).
    assert (2 ^ w = 2 * 2 ^ (w - 1)) as E.
    { replace w with (Z.succ (w - 1)) at 1 by lia. apply Z.pow_succ_r. lia. }
    destruct (Z.to_nat w) as [|m] eqn:Hm; [lia|].
    assert (Z.of_nat m = w - 1) as Hm' by lia.
    set (enc := if v <? 0 then v + 2 ^ w else v).
    apply Z.leb_le in H0. apply Z.ltb_lt in H1.
    assert (0 <= enc < 2 ^ w) as Henc.
    { subst enc. destruct (v <? 0) eqn:Hneg; lia. }
    assert (uint_of_bits (bits_of_uint (S m) enc) = enc) as Huint
      by (apply uint_of_bits_of_uint_small; rewrite Hw; lia).
    assert (Z.of_nat (length (bits_of_uint (S m) enc)) = w) as Hlen
      by (rewrite length_bits_of_uint; lia).
    revert Huint Hlen. cbn [bits_of_uint]. rewrite Hm'. intros -> Hlen.
    destruct (Z.testbit enc (w - 1)) eqn:Htop.
    + rewrite Hlen. subst enc. destruct (v <? 0) eqn:Hneg; [lia|].
      rewrite testbit_top_clear in Htop by lia. discriminate.
    + subst enc. destruct (v <? 0) eqn:Hneg; [|reflexivity].
      rewrite testbit_top_set in Htop by lia. discriminate.
Qed.

(** The packed bits of a program are as long as its padding mask and
    are clear wherever the mask is set. *)
Lemma pack_bits_program prog U :
  Forall positive_width prog ->
  forall B, Bitstruct.pack_bits (info_of <$> prog) U = Ok B ->
    length B = length (mask_bits (render <$> prog))
    /\ forall j, mask_bits (render <$> prog) !! j = Some true ->
                 B !! j = Some false.
Proof.
  induction 1 as [|i prog Hi _ IH]; intros B HB.
  - injection HB as <-. split; [done|]. intros j Hj. done.
  - rewrite fmap_cons in HB. cbn [Bitstruct.pack_bits] in HB.
    apply result_bind_ok in HB as (head & Hhead & HB).
    apply result_bind_ok in HB as (tail & Htail & HB).
    injection HB as <-.
    destruct (IH tail Htail) as [IHlen IHj].
    rewrite fmap_cons, mask_bits_cons.
    assert (length head = length (item_mask (render i))
            /\ forall j, item_mask (render i) !! j = Some true ->
                         head !! j = Some false) as [Hlen Hj].
    { destruct i as [w|w k n]; cbn [info_of Bitstruct.name Bitstruct.size] in Hhead.
      - injection Hhead as <-. cbn [render item_mask].
        rewrite !length_replicate. split; [done|].
        intros j [_ Hjw]%lookup_replicate. by apply lookup_replicate_2.
      - destruct (U !! n) as [v|]; [|discriminate].
        apply pack_value_length in Hhead. cbn [Bitstruct.size] in Hhead.
        cbn [render item_mask]. rewrite length_replicate. split; [done|].
        intros j [? _]%lookup_replicate. discriminate. }
    split.
    + rewrite !length_app. lia.
    + intros j Hmask.
      destruct (Nat.lt_ge_cases j (length head)) as [Hlt|Hge].
      * rewrite lookup_app_l in Hmask by lia.
        rewrite lookup_app_l by lia. by apply Hj.
      * rewrite lookup_app_r in Hmask by lia.
        rewrite lookup_app_r by lia. apply IHj. by rewrite Hlen.
Qed.

(** The names of the fields of a program. *)
Definition program_names (prog : list layout_item) : list string :=
  names (render <$> prog).

(** Unpacking what a program packed returns, for each of its fields,
    the value that was packed. *)
Lemma unpack_pack_program prog U :
  Forall positive_width prog ->
  forall B acc, Bitstruct.pack_bits (info_of <$> prog) U = Ok B ->
    exists acc',
      Bitstruct.unpack_bits (info_of <$> prog) B acc = Ok acc'
      /\ forall n, acc' !! n
                   = if decide (n ∈ program_names prog) then U !! n else acc !! n.
Proof.
  induction 1 as [|i prog Hi _ IH]; intros B acc HB.
  - exists acc. split; [done|]. intros n. done.
  - rewrite fmap_cons in HB. cbn [Bitstruct.pack_bits] in HB.
    apply result_bind_ok in HB as (head & Hhead & HB).
    apply result_bind_ok in HB as (tail & Htail & HB).
    injection HB as <-.
    rewrite fmap_cons. cbn [Bitstruct.unpack_bits].
    destruct i as [w|w k n]; cbn [info_of Bitstruct.name Bitstruct.size] in *.
    + injection Hhead as <-.
      rewrite drop_app_length' by (by rewrite length_replicate).
      destruct (IH tail acc Htail) as (acc' & Hacc' & Hlookup).
      exists acc'. split; [done|]. exact Hlookup.
    + destruct (U !! n) as [v|] eqn:HU; [|discriminate].
      pose proof (pack_value_length _ _ _ Hhead) as Hlen.
      cbn [Bitstruct.size] in Hlen.
      rewrite take_app_length' by done.
      rewrite drop_app_length' by done.
      rewrite (unpack_pack_value
                 (Bitstruct.mk_info (kind_char k) w (Some n)) v head Hi Hhead).
      cbn [mbind result_bind].
      destruct (IH tail (<[n := v]> acc) Htail) as (acc' & Hacc' & Hlookup).
      exists acc'. split; [done|]. intros m. rewrite Hlookup.
      unfold program_names, names. rewrite fmap_cons. cbn [omap list_omap render item_name].
      fold (names (render <$> prog)).
      destruct (decide (m ∈ names (render <$> prog))) as [Hin|Hout].
      * rewrite decide_True by (by right). done.
      * destruct (decide (m = n)) as [->|Hne].
        -- rewrite decide_True by (by left). by rewrite lookup_insert_eq.
        -- rewrite decide_False by (by intros [?|?]%elem_of_cons).
           by rewrite lookup_insert_ne.
Qed.

(** Unpacking reads the data bits only. *)
Lemma unpack_bits_agree prog :
  forall X Y acc,
    (forall j, mask_bits (render <$> prog) !! j = Some false -> X !! j = Y !! j) ->
    Bitstruct.unpack_bits (info_of <$> prog) X acc
    = Bitstruct.unpack_bits (info_of <$> prog) Y acc.
Proof.
  induction prog as [|i prog IH]; intros X Y acc Hagree; [done|].
  rewrite fmap_cons in Hagree. rewrite mask_bits_cons in Hagree.
  rewrite fmap_cons. cbn [Bitstruct.unpack_bits].
  assert (forall j, mask_bits (render <$> prog) !! j = Some false ->
                    drop (Z.to_nat (Bitstruct.size (info_of i))) X !! j
                    = drop (Z.to_nat (Bitstruct.size (info_of i))) Y !! j) as Hdrop.
  { intros j Hj. rewrite !lookup_drop. apply Hagree.
    rewrite lookup_app_r;
      destruct i; cbn [render item_mask info_of Bitstruct.size];
      rewrite length_replicate; try lia.
    - replace (Z.to_nat width + j - Z.to_nat width)%nat with j by lia. done.
    - replace (Z.to_nat width + j - Z.to_nat width)%nat with j by lia. done. }
  destruct i as [w|w k n]; cbn [info_of Bitstruct.name Bitstruct.size] in *.
  - by apply IH.
  - assert (take (Z.to_nat w) X = take (Z.to_nat w) Y) as ->.
    { apply list_eq. intros j.
      destruct (Nat.lt_ge_cases j (Z.to_nat w)) as [Hlt|Hge].
      - rewrite !lookup_take_lt by done. apply Hagree.
        rewrite lookup_app_l by (cbn; by rewrite length_replicate).
        cbn [render item_mask]. by apply lookup_replicate_2.
      - by rewrite !lookup_take_ge. }
    destruct (Bitstruct.unpack_value _ _) as [v|e]; [|done].
    cbn [mbind result_bind]. by apply IH.
Qed.

Lemma zip_orb_agree_l (B R mask : bits) :
  (forall j, mask !! j = Some false -> R !! j = Some false) ->
  forall j, mask !! j = Some false -> zip_with orb B R !! j = B !! j.
Proof.
  intros HR j Hj. rewrite lookup_zip_with, (HR j Hj).
  destruct (B !! j) as [b|]; [|done]. cbn. by rewrite orb_false_r.
Qed.

Lemma zip_orb_agree_r (B R mask : bits) :
  (forall j, mask !! j = Some false -> B !! j = Some false) ->
  forall j, mask !! j = Some false -> zip_with orb B R !! j = R !! j.
Proof.
  intros HB j Hj. rewrite lookup_zip_with, (HB j Hj).
  destruct (R !! j) as [b|]; done.
Qed.

Lemma number_of_bits_program prog :
  Forall positive_width prog ->
  Bitstruct.number_of_bits (info_of <$> prog)
  = Z.of_nat (length (mask_bits (render <$> prog))).
Proof.
  induction 1 as [|i prog Hi _ IH]; [done|].
  rewrite !fmap_cons, mask_bits_cons, length_app. cbn [Bitstruct.number_of_bits foldr].
  fold (Bitstruct.number_of_bits (info_of <$> prog)). rewrite IH.
  destruct i as [w|w k n]; cbn [positive_width] in Hi;
    cbn [info_of Bitstruct.size render item_mask]; rewrite length_replicate; lia.
Qed.

End PackUnpack.

(** * The values of a round trip *)

Section Values.

Import Utils Spec.

Lemma nearest_half_even_flip n d r :
  nearest_half_even n d r <-> nearest_half_even (- n) (- d) r.
Proof.
  unfold nearest_half_even.
  replace (- n - r * - d) with (- (n - r * d)) by lia.
  by rewrite !Z.abs_opp.
Qed.

Lemma nearest_half_even_unique_nonzero n d r1 r2 :
  d <> 0 -> nearest_half_even n d r1 -> nearest_half_even n d r2 -> r1 = r2.
Proof.
  intros Hd H1 H2. destruct (Z.lt_trichotomy d 0) as [?|[?|?]]; [|lia|].
  - apply nearest_half_even_flip in H1, H2.
    apply (nearest_half_even_unique (- n) (- d)); [lia|done..].
  - by apply (nearest_half_even_unique n d).
Qed.

Lemma find_choice_some l s :
  s ∈ l.*2 -> exists k, Data.find_choice l s = Some k /\ (k, s) ∈ l.
Proof.
  induction l as [|[k s'] l IH]; [by intros ?%elem_of_nil|].
  rewrite fmap_cons. cbn [snd Data.find_choice]. intros Hs.
  destruct (String.eqb s' s) eqn:E.
  - apply String.eqb_eq in E as ->. exists k. split; [done|by left].
  - apply String.eqb_neq in E. apply elem_of_cons in Hs as [->|Hs]; [done|].
    destruct (IH Hs) as (k' & Hk' & Hin). exists k'. split; [done|by right].
Qed.

Lemma lookup_choice_nodup l k s :
  NoDup l.*1 -> (k, s) ∈ l -> Data.lookup_choice l k = Some s.
Proof.
  induction l as [|[k' s'] l IH]; [by intros _ ?%elem_of_nil|].
  rewrite fmap_cons. cbn [fst Data.lookup_choice].
  intros [Hk' Hl]%NoDup_cons Hin.
  apply elem_of_cons in Hin as [[= -> ->]|Hin].
  - by rewrite Z.eqb_refl.
  - destruct (k' =? k) eqn:E; [|by apply IH].
    apply Z.eqb_eq in E as ->. exfalso. apply Hk'.
    apply list_elem_of_fmap. by exists (k, s).
Qed.

(** The raw value [_encode_field] computes for a field. *)
Definition raw_of (data : gmap string value) (d : Data.t) : Z :=
  match _encode_field d data true with
  | Ok raw => raw
  | Raise _ => 0
  end.

(** An admissible value within the precision is encoded to a raw value
    that fits, is nearest to the scaled number, and decodes to the name
    it came from. *)
Lemma encode_field_admissible data d :
  admissible data d -> within_precision data d ->
  _encode_field d data true = Ok (raw_of data d)
  /\ fits d (raw_of data d)
  /\ (forall v, data !! Data.name d = Some (VInt v) ->
        nearest_half_even (v - Data.offset d) (Data.scale d) (raw_of data d))
  /\ (forall s, data !! Data.name d = Some (VStr s) ->
        Data.choices_getitem d (raw_of data d) = Ok s).
Proof.
  unfold admissible, within_precision, raw_of.
  intros [Hfloat Hadm] Hprec.
  unfold _encode_field, getitem.
  destruct (data !! Data.name d) as [[v|s]|] eqn:Hv; [| |done];
    cbn [mbind result_bind].
  - destruct Hadm as (Hscale & raw0 & Hnear0 & Hfits0).
    rewrite Hfloat.
    destruct (encode_integer_nearest v (Data.offset d) (Data.scale d)
                Hscale Hprec) as (raw & -> & Hnear).
    assert (raw = raw0) as ->
      by (by apply (nearest_half_even_unique_nonzero
                      (v - Data.offset d) (Data.scale d))).
    cbn. split; [reflexivity|]. split; [done|].
    split; [by intros ? [= <-] | by intros ? [=]].
  - destruct Hadm as (l & Hl & Hnodup & Hkeys & Hs).
    unfold Data.choice_string_to_number, Data.choices_getitem. rewrite Hl.
    destruct (find_choice_some l s Hs) as (k & -> & Hin).
    cbn. split; [reflexivity|]. split; [|split].
    + rewrite Forall_forall in Hkeys. exact (Hkeys (k, s) Hin).
    + by intros ? [=].
    + intros ? [= <-]. by rewrite (lookup_choice_nodup l k s Hnodup Hin).
Qed.

(** A comprehension over fields of distinct names. *)
Lemma comprehension_lookup {A : Type} (f : Data.t -> result A)
    (g : Data.t -> A) (fields : list Data.t) :
  (forall d, d ∈ fields -> f d = Ok (g d)) ->
  NoDup (Data.name <$> fields) ->
  forall acc, exists M,
    comprehension f fields acc = Ok M
    /\ (forall d, d ∈ fields -> M !! Data.name d = Some (g d))
    /\ (forall n, n ∉ Data.name <$> fields -> M !! n = acc !! n).
Proof.
  induction fields as [|d fields IH]; intros Hf Hnodup acc.
  - exists acc. split; [done|]. split; [by intros ? ?%elem_of_nil|done].
  - rewrite fmap_cons in Hnodup. apply NoDup_cons in Hnodup as [Hd Hnodup].
    cbn [comprehension]. rewrite (Hf d ltac:(by left)). cbn [mbind result_bind].
    destruct (IH ltac:(intros; apply Hf; by right) Hnodup
                (<[Data.name d := g d]> acc)) as (M & HM & Hin & Hout).
    exists M. split; [done|]. split.
    + intros d' [->|Hd']%elem_of_cons; [|by apply Hin].
      rewrite (Hout _ Hd). by rewrite lookup_insert_eq.
    + intros n Hn. rewrite fmap_cons in Hn.
      apply not_elem_of_cons in Hn as [Hne Hn].
      rewrite (Hout n Hn). by rewrite lookup_insert_ne.
Qed.

Lemma decode_field_total d raw decode_choices scaling :
  exists x, _decode_field d raw decode_choices scaling = Ok x.
Proof.
  unfold _decode_field, Data.choices_getitem.
  destruct decode_choices, scaling, (Data.choices d) as [l|];
    try destruct (Data.lookup_choice l raw); eauto.
Qed.

(** ** The fields of a program *)

Lemma big_program_field datas W w k n :
  forall c, Field w k n ∈ big_program datas c W ->
    exists d, d ∈ datas /\ w = Data.length d /\ k = kind_of d /\ n = Data.name d.
Proof.
  induction datas as [|d datas IH]; intros c; cbn [big_program].
  - destruct (c <? W); [|by intros ?%elem_of_nil].
    intros [[=]|?%elem_of_nil]%elem_of_cons; done.
  - destruct (is_big d).
    + intros [Hpad|[Hd|Hrest]%elem_of_cons]%elem_of_app.
      * destruct (c <? msb_position d); [|by apply elem_of_nil in Hpad].
        apply elem_of_cons in Hpad as [[=]|?%elem_of_nil]; done.
      * injection Hd as -> -> ->. exists d. repeat split. by left.
      * destruct (IH _ Hrest) as (d' & Hd' & ?). exists d'. split; [by right|done].
    + intros Hrest. destruct (IH _ Hrest) as (d' & Hd' & ?).
      exists d'. split; [by right|done].
Qed.

Lemma little_walk_field datas w k n :
  forall c, Field w k n ∈ little_walk datas c ->
    exists d, d ∈ datas /\ w = Data.length d /\ k = kind_of d /\ n = Data.name d.
Proof.
  induction datas as [|d datas IH]; intros c; cbn [little_walk].
  - destruct (0 <? c); [|by intros ?%elem_of_nil].
    intros [[=]|?%elem_of_nil]%elem_of_cons; done.
  - destruct (is_little d).
    + intros [Hpad|[Hd|Hrest]%elem_of_cons]%elem_of_app.
      * destruct (0 <? c - (Data.start d + Data.length d));
          [|by apply elem_of_nil in Hpad].
        apply elem_of_cons in Hpad as [[=]|?%elem_of_nil]; done.
      * injection Hd as -> -> ->. exists d. repeat split. by left.
      * destruct (IH _ Hrest) as (d' & Hd' & ?). exists d'. split; [by right|done].
    + intros Hrest. destruct (IH _ Hrest) as (d' & Hd' & ?).
      exists d'. split; [by right|done].
Qed.

Lemma program_names_app prog prog' :
  program_names (prog ++ prog') = program_names prog ++ program_names prog'.
Proof. unfold program_names, names. by rewrite fmap_app, omap_app. Qed.

Lemma big_program_names datas W d :
  d ∈ datas -> is_big d = true ->
  forall c, Data.name d ∈ program_names (big_program datas c W).
Proof.
  induction datas as [|d' datas IH]; [by intros ?%elem_of_nil|].
  intros Hd Hbig c. cbn [big_program].
  apply elem_of_cons in Hd as [<-|Hd].
  - rewrite Hbig, program_names_app. apply elem_of_app. right. by left.
  - destruct (is_big d'); [|by apply IH].
    rewrite program_names_app. apply elem_of_app. right. right. by apply IH.
Qed.

Lemma little_walk_names datas d :
  d ∈ datas -> is_little d = true ->
  forall c, Data.name d ∈ program_names (little_walk datas c).
Proof.
  induction datas as [|d' datas IH]; [by intros ?%elem_of_nil|].
  intros Hd Hlittle c. cbn [little_walk].
  apply elem_of_cons in Hd as [<-|Hd].
  - rewrite Hlittle, program_names_app. apply elem_of_app. right. by left.
  - destruct (is_little d'); [|by apply IH].
    rewrite program_names_app. apply elem_of_app. right. right. by apply IH.
Qed.

(** ** Packing succeeds *)

Lemma pack_value_fits d raw :
  Data.is_float d = false -> fits d raw ->
  exists s,
    Bitstruct.pack_value
      (Bitstruct.mk_info (kind_char (kind_of d)) (Data.length d)
         (Some (Data.name d))) raw = Ok s.
Proof.
  unfold fits, kind_of, Bitstruct.pack_value. intros -> Hfits.
  cbn [Bitstruct.type_ Bitstruct.size].
  destruct (Data.is_signed d); cbn [kind_char].
  - change (Ascii.eqb "s" "u") with false. change (Ascii.eqb "s" "s") with true.
    cbn match.
    assert ((- 2 ^ (Data.length d - 1) <=? raw) && (raw <? 2 ^ (Data.length d - 1))
            = true) as -> by (apply andb_true_iff; lia).
    eauto.
  - change (Ascii.eqb "u" "u") with true. cbn match.
    assert ((0 <=? raw) && (raw <? 2 ^ Data.length d) = true) as ->
      by (apply andb_true_iff; lia).
    eauto.
Qed.

Lemma pack_bits_succeeds prog U :
  (forall w k n, Field w k n ∈ prog ->
     exists v s, U !! n = Some v
       /\ Bitstruct.pack_value (Bitstruct.mk_info (kind_char k) w (Some n)) v
          = Ok s) ->
  exists B, Bitstruct.pack_bits (info_of <$> prog) U = Ok B.
Proof.
  induction prog as [|i prog IH]; intros Hfields; [by exists []|].
  destruct IH as [tail Htail]; [intros; apply Hfields; by right|].
  rewrite fmap_cons. cbn [Bitstruct.pack_bits]. rewrite Htail.
  destruct i as [w|w k n]; cbn [info_of Bitstruct.name Bitstruct.size].
  - cbn [mbind result_bind]. eauto.
  - destruct (Hfields w k n ltac:(by left)) as (v & s & -> & ->).
    cbn [mbind result_bind]. eauto.
Qed.

End Values.

(** * The round trip through a frame buffer *)

Section RoundTrip.

Import Utils Spec.

Lemma length_bytes_of_bits s n :
  length s = (8 * n)%nat -> length (bytes_of_bits s) = n.
Proof.
  intros Hs. destruct (chunks_exist n s Hs) as (cs & -> & Hcs & Hlen).
  rewrite bytes_of_bits_join by done. by rewrite length_fmap.
Qed.

Lemma bits_of_bytes_of_bits s n :
  length s = (8 * n)%nat -> bits_of_bytes (bytes_of_bits s) = s.
Proof.
  intros Hs. destruct (chunks_exist n s Hs) as (cs & -> & Hcs & Hlen).
  rewrite bytes_of_bits_join by done. by apply bits_of_bytes_chunks.
Qed.

Lemma uint_of_bytes_of_bits s n :
  length s = (8 * n)%nat -> uint_of_bytes (bytes_of_bits s) = uint_of_bits s.
Proof.
  intros Hs. destruct (chunks_exist n s Hs) as (cs & -> & Hcs & Hlen).
  rewrite bytes_of_bits_join by done. by apply uint_of_bytes_chunks.
Qed.

Lemma byte_reversed_lookup_nat s n j :
  length s = (8 * n)%nat -> (j < 8 * n)%nat ->
  byte_reversed s !! j
  = s !! Z.to_nat (byte_reversed_position (Z.of_nat n) (Z.of_nat j)).
Proof.
  intros Hs Hj.
  rewrite <- (byte_reversed_lookup s (Z.of_nat n) (Z.of_nat j)) by lia.
  by rewrite Nat2Z.id.
Qed.

Lemma byte_reversed_zip_orb X Y n :
  length X = (8 * n)%nat -> length Y = (8 * n)%nat ->
  byte_reversed (zip_with orb X Y)
  = zip_with orb (byte_reversed X) (byte_reversed Y).
Proof.
  intros HX HY.
  assert (length (zip_with orb X Y) = (8 * n)%nat) as HZ
    by (rewrite length_zip_with; lia).
  apply (list_eq_same_length _ _ (8 * n)%nat).
  - rewrite length_zip_with, !(length_byte_reversed _ n) by done. lia.
  - by apply length_byte_reversed.
  - intros j x y Hj Hx Hy.
    rewrite (byte_reversed_lookup_nat _ n j HZ Hj) in Hx.
    rewrite lookup_zip_with in Hx, Hy.
    rewrite !(byte_reversed_lookup_nat _ n j) in Hy by done.
    congruence.
Qed.

Section Frame.

Variables (datas : list Data.t) (N : Z) (U : gmap string Z).
Hypothesis Hvalid : valid_frame datas N.
Hypothesis Hasc : ascending datas.

Let bigP := big_program datas 0 (8 * N).
Let litP := little_program datas (8 * N).

Lemma mask_position j (mask : bits) b :
  length mask = Z.to_nat (8 * N) -> mask !! j = Some b ->
  0 <= Z.of_nat j < 8 * N.
Proof. intros Hlen Hj%lookup_lt_Some. lia. Qed.

(** Where the big-endian program holds data, the byte-reversed packing
    of the little-endian program is clear; and the other way round. *)
Lemma big_data_clear_in_little L :
  Bitstruct.pack_bits (info_of <$> litP) U = Ok L ->
  forall j, mask_bits (render <$> bigP) !! j = Some false ->
            byte_reversed L !! j = Some false.
Proof.
  intros HL j Hj.
  pose proof Hvalid as (HN & Hwf & _).
  pose proof (mask_position j _ _ (big_mask_length datas N Hvalid Hasc) Hj) as Hq.
  destruct (pack_bits_program litP U
              ltac:(apply little_walk_positive; by apply Forall_reverse) L HL)
    as [HlenL HclearL].
  pose proof (little_mask_length datas N Hvalid Hasc) as Hllen.
  fold litP in Hllen.
  rewrite <- (Nat2Z.id j) at 1.
  rewrite (byte_reversed_lookup L N (Z.of_nat j)) by lia.
  pose proof (big_mask_lookup datas N _ Hvalid Hasc Hq) as Hbig.
  rewrite Nat2Z.id in Hbig. fold bigP in Hbig. rewrite Hj in Hbig.
  pose proof (little_mask_lookup datas N _ Hvalid Hasc Hq) as Hlittle.
  pose proof (no_shared_data datas N (Z.of_nat j) Hvalid) as Hshared.
  fold litP in Hlittle. apply HclearL. rewrite Hlittle. f_equal.
  destruct (existsb (fun d => in_big d (Z.of_nat j)) datas); [|discriminate].
  cbn [andb] in Hshared. by rewrite Hshared.
Qed.

Lemma little_data_clear_in_big B :
  Bitstruct.pack_bits (info_of <$> bigP) U = Ok B ->
  forall j, mask_bits (render <$> litP) !! j = Some false ->
            byte_reversed B !! j = Some false.
Proof.
  intros HB j Hj.
  pose proof Hvalid as (HN & Hwf & _).
  pose proof (mask_position j _ _ (little_mask_length datas N Hvalid Hasc) Hj) as Hq.
  destruct (pack_bits_program bigP U
              ltac:(by apply big_program_positive) B HB) as [HlenB HclearB].
  pose proof (big_mask_length datas N Hvalid Hasc) as Hblen.
  fold bigP in Hblen.
  rewrite <- (Nat2Z.id j) at 1.
  rewrite (byte_reversed_lookup B N (Z.of_nat j)) by lia.
  set (q := byte_reversed_position N (Z.of_nat j)).
  pose proof (byte_reversed_position_range N _ Hq) as Hq'. fold q in Hq'.
  pose proof (byte_reversed_position_involutive N _ Hq) as Hinv. fold q in Hinv.
  pose proof (big_mask_lookup datas N q Hvalid Hasc Hq') as Hbig.
  pose proof (little_mask_lookup datas N q Hvalid Hasc Hq') as Hlittle.
  rewrite Hinv, Nat2Z.id in Hlittle. fold litP in Hlittle.
  rewrite Hj in Hlittle.
  pose proof (no_shared_data datas N q Hvalid) as Hshared.
  fold bigP in Hbig. apply HclearB. rewrite Hbig. f_equal.
  destruct (existsb (fun d => in_little d (linear_to_saw_tooth_bitnum q)) datas);
    [|discriminate].
  rewrite andb_true_r in Hshared. by rewrite Hshared.
Qed.

(** Unpacking the merged buffer returns what each program packed. *)
Lemma unpack_merged B L :
  Bitstruct.pack_bits (info_of <$> bigP) U = Ok B ->
  Bitstruct.pack_bits (info_of <$> litP) U = Ok L ->
  exists UB UL,
    Bitstruct.unpack (big_endian (formats_of datas N))
      (bytes_of_bits (zip_with orb B (byte_reversed L))) = Ok UB
    /\ Bitstruct.unpack (little_endian (formats_of datas N))
         (reverse (bytes_of_bits (zip_with orb B (byte_reversed L)))) = Ok UL
    /\ (forall n, UB !! n = if decide (n ∈ program_names bigP)
                            then U !! n else None)
    /\ (forall n, UL !! n = if decide (n ∈ program_names litP)
                            then U !! n else None).
Proof.
  intros HB HL.
  pose proof Hvalid as (HN & Hwf & _).
  assert (Forall positive_width bigP) as Hbpos by (by apply big_program_positive).
  assert (Forall positive_width litP) as Hlpos
    by (apply little_walk_positive; by apply Forall_reverse).
  destruct (pack_bits_program bigP U Hbpos B HB) as [HlenB _].
  destruct (pack_bits_program litP U Hlpos L HL) as [HlenL _].
  pose proof (big_mask_length datas N Hvalid Hasc) as Hblen. fold bigP in Hblen.
  pose proof (little_mask_length datas N Hvalid Hasc) as Hllen. fold litP in Hllen.
  set (n := Z.to_nat N).
  assert (Z.of_nat n = N) as Hn by lia. clearbody n.
  assert (length B = (8 * n)%nat) as HB8 by lia.
  assert (length L = (8 * n)%nat) as HL8 by lia.
  pose proof (length_byte_reversed L n HL8) as HR8.
  set (M := zip_with orb B (byte_reversed L)).
  assert (length M = (8 * n)%nat) as HM8 by (subst M; rewrite length_zip_with; lia).
  destruct (unpack_pack_program bigP U Hbpos B ∅ HB) as (UB & HUB & HlookB).
  destruct (unpack_pack_program litP U Hlpos L ∅ HL) as (UL & HUL & HlookL).
  exists UB, UL. split; [|split; [|split]].
  - unfold Bitstruct.unpack. cbn [formats_of big_endian Bitstruct.infos].
    fold bigP. rewrite (bits_of_bytes_of_bits M n HM8).
    rewrite (number_of_bits_program bigP Hbpos).
    assert ((Z.of_nat (length M) <? Z.of_nat (length (mask_bits (render <$> bigP))))
            = false) as -> by lia.
    rewrite <- HUB. apply unpack_bits_agree.
    apply zip_orb_agree_l. by apply big_data_clear_in_little.
  - unfold Bitstruct.unpack. cbn [formats_of little_endian Bitstruct.infos].
    fold litP. fold (byte_reversed M).
    rewrite (length_byte_reversed M n HM8).
    rewrite (number_of_bits_program litP Hlpos).
    assert ((Z.of_nat (8 * n) <? Z.of_nat (length (mask_bits (render <$> litP))))
            = false) as -> by (apply Z.ltb_ge; rewrite Hllen; clear -Hn HN; lia).
    subst M. rewrite (byte_reversed_zip_orb B _ n HB8 HR8).
    rewrite (byte_reversed_involutive L n HL8).
    rewrite <- HUL. apply unpack_bits_agree.
    apply zip_orb_agree_r. by apply little_data_clear_in_big.
  - intros m. rewrite HlookB. by rewrite lookup_empty.
  - intros m. rewrite HlookL. by rewrite lookup_empty.
Qed.

End Frame.

End RoundTrip.

Section RoundTripTheorem.

Import Utils Spec.

Lemma valid_nonempty_positive datas N :
  valid_frame datas N -> datas <> [] -> 1 <= N.
Proof.
  intros (_ & Hwf & Hin & _) Hne.
  destruct datas as [|d datas]; [done|].
  apply Forall_cons in Hwf as [[_ Hlen] _].
  apply Forall_cons in Hin as [[Hlo Hhi] _]. lia.
Qed.

Lemma field_is_big_or_little d :
  recognized (Data.byte_order d) -> is_big d = true \/ is_little d = true.
Proof.
  intros Hrec. destruct (is_big d) eqn:Hbig; [by left|right].
  by apply not_big_little.
Qed.

Section Encoded.

Variables (datas : list Data.t) (N : Z) (data : gmap string value).
Hypothesis Hvalid : valid_frame datas N.
Hypothesis Hasc : ascending datas.
Hypothesis Hnames : NoDup (Data.name <$> datas).
Hypothesis Hadm : Forall (admissible data) datas.
Hypothesis Hprec : Forall (within_precision data) datas.

Let bigP := big_program datas 0 (8 * N).
Let litP := little_program datas (8 * N).

Lemma encoded_field d :
  d ∈ datas ->
  _encode_field d data true = Ok (raw_of data d)
  /\ fits d (raw_of data d)
  /\ (forall v, data !! Data.name d = Some (VInt v) ->
        nearest_half_even (v - Data.offset d) (Data.scale d) (raw_of data d))
  /\ (forall s, data !! Data.name d = Some (VStr s) ->
        Data.choices_getitem d (raw_of data d) = Ok s).
Proof.
  intros Hd. rewrite Forall_forall in Hadm, Hprec.
  apply encode_field_admissible; auto.
Qed.

(** The raw values, and the two packings. *)
Lemma packings :
  exists U B L,
    comprehension (fun field => _encode_field field data true) datas ∅ = Ok U
    /\ (forall d, d ∈ datas -> U !! Data.name d = Some (raw_of data d))
    /\ Bitstruct.pack_bits (info_of <$> bigP) U = Ok B
    /\ Bitstruct.pack_bits (info_of <$> litP) U = Ok L
    /\ length B = Z.to_nat (8 * N) /\ length L = Z.to_nat (8 * N).
Proof.
  pose proof Hvalid as (HN & Hwf & _).
  destruct (comprehension_lookup
              (fun field => _encode_field field data true) (raw_of data) datas
              ltac:(intros d Hd; by destruct (encoded_field d Hd))
              Hnames ∅) as (U & HU & Hlookup & _).
  assert (forall d, d ∈ datas ->
            exists s, Bitstruct.pack_value
                        (Bitstruct.mk_info (kind_char (kind_of d)) (Data.length d)
                           (Some (Data.name d))) (raw_of data d) = Ok s) as Hpack.
  { intros d Hd. destruct (encoded_field d Hd) as (_ & Hfits & _).
    rewrite Forall_forall in Hadm. destruct (Hadm d Hd) as [Hfloat _].
    by apply pack_value_fits. }
  destruct (pack_bits_succeeds bigP U) as [B HB].
  { intros w k n Hfield.
    destruct (big_program_field _ _ _ _ _ _ Hfield) as (d & Hd & -> & -> & ->).
    destruct (Hpack d Hd) as [s Hs]. exists (raw_of data d), s.
    split; [by apply Hlookup|done]. }
  destruct (pack_bits_succeeds litP U) as [L HL].
  { intros w k n Hfield.
    destruct (little_walk_field _ _ _ _ _ Hfield) as (d & Hd & -> & -> & ->).
    rewrite elem_of_reverse in Hd.
    destruct (Hpack d Hd) as [s Hs]. exists (raw_of data d), s.
    split; [by apply Hlookup|done]. }
  exists U, B, L. repeat (split; [done|]).
  destruct (pack_bits_program bigP U
              ltac:(by apply big_program_positive) B HB) as [HlenB _].
  destruct (pack_bits_program litP U
              ltac:(apply little_walk_positive; by apply Forall_reverse) L HL)
    as [HlenL _].
  rewrite HlenB, HlenL. split.
  - apply (big_mask_length datas N Hvalid Hasc).
  - apply (little_mask_length datas N Hvalid Hasc).
Qed.

(** The frame buffer of a frame with at least one field is the bitwise
    OR of the big-endian packing and the byte-reversed little-endian
    packing. *)
Lemma encode_merged U B L :
  datas <> [] ->
  comprehension (fun field => _encode_field field data true) datas ∅ = Ok U ->
  Bitstruct.pack_bits (info_of <$> bigP) U = Ok B ->
  Bitstruct.pack_bits (info_of <$> litP) U = Ok L ->
  length B = Z.to_nat (8 * N) -> length L = Z.to_nat (8 * N) ->
  Did.encode datas N data true
  = Ok (bytes_of_bits (zip_with orb B (byte_reversed L))).
Proof.
  intros Hne HU HB HL HlenB HlenL.
  pose proof Hvalid as (HN & Hwf & _).
  pose proof (valid_nonempty_positive datas N Hvalid Hne) as HN1.
  set (n := Z.to_nat N). assert (Z.of_nat n = N) as Hn by lia.
  assert (0 < n)%nat as Hnpos by lia. clearbody n.
  assert (length B = (8 * n)%nat) as HB8 by lia.
  assert (length L = (8 * n)%nat) as HL8 by lia.
  unfold Did.encode. rewrite (create_formats_programs datas N Hwf).
  cbn [mbind result_bind]. unfold encode_data.
  assert ((length datas =? 0)%nat = false) as ->
    by (clear -Hne; by destruct datas).
  rewrite HU. cbn [mbind result_bind].
  unfold Bitstruct.pack. cbn [formats_of big_endian little_endian Bitstruct.infos].
  fold bigP litP. rewrite HB, HL. cbn [mbind result_bind fmap result_fmap].
  rewrite !(pad_to_byte_whole _ n) by done.
  rewrite (int_hexlify_nonempty (bytes_of_bits B))
    by (by apply (bytes_of_bits_nonempty _ n)).
  rewrite (int_hexlify_nonempty (reverse (bytes_of_bits L)))
    by (apply reverse_nonempty; by apply (bytes_of_bits_nonempty _ n)).
  cbn [mbind result_bind].
  rewrite (uint_of_bytes_of_bits B n HB8).
  rewrite (uint_of_reversed_bytes L n HL8).
  unfold Did.frame_of_int. rewrite bits_of_uint_lor.
  rewrite <- HlenB at 1. rewrite bits_of_uint_of_bits.
  pose proof (length_byte_reversed L n HL8) as HR8.
  replace (Z.to_nat (8 * N)) with (length (byte_reversed L)) by lia.
  rewrite bits_of_uint_of_bits. reflexivity.
Qed.

(** Decoding the frame buffer of a frame with at least one field
    decodes every field from its raw value. *)
Lemma decode_merged U B L decode_choices :
  (forall d, d ∈ datas -> U !! Data.name d = Some (raw_of data d)) ->
  Bitstruct.pack_bits (info_of <$> bigP) U = Ok B ->
  Bitstruct.pack_bits (info_of <$> litP) U = Ok L ->
  length B = Z.to_nat (8 * N) -> length L = Z.to_nat (8 * N) ->
  exists out,
    Did.decode datas N (bytes_of_bits (zip_with orb B (byte_reversed L)))
      decode_choices true = Ok out
    /\ forall d, d ∈ datas ->
         _decode_field d (raw_of data d) decode_choices true
         = Ok (default (VInt 0) (out !! Data.name d))
         /\ is_Some (out !! Data.name d).
Proof.
  intros Hlookup HB HL HlenB HlenL.
  pose proof Hvalid as (HN & Hwf & _).
  set (n := Z.to_nat N). assert (Z.of_nat n = N) as Hn by lia.
  assert (length B = (8 * n)%nat) as HB8 by lia.
  assert (length L = (8 * n)%nat) as HL8 by lia.
  pose proof (length_byte_reversed L n HL8) as HR8.
  set (M := zip_with orb B (byte_reversed L)).
  assert (length M = (8 * n)%nat) as HM8 by (subst M; rewrite length_zip_with; lia).
  destruct (unpack_merged datas N U Hvalid Hasc B L HB HL)
    as (UB & UL & HUB & HUL & HlookB & HlookL).
  fold M in HUB, HUL.
  unfold Did.decode. rewrite (create_formats_programs datas N Hwf).
  cbn [mbind result_bind].
  rewrite take_ge by (rewrite (length_bytes_of_bits M n HM8); lia).
  unfold decode_data. rewrite HUB, HUL. cbn [mbind result_bind].
  assert (forall d, d ∈ datas ->
            (UL ∪ UB) !! Data.name d = Some (raw_of data d)) as Hunion.
  { intros d Hd. rewrite Forall_forall in Hwf. destruct (Hwf d Hd) as [Hrec _].
    specialize (HlookB (Data.name d)). specialize (HlookL (Data.name d)).
    rewrite (Hlookup d Hd) in HlookB, HlookL.
    destruct (field_is_big_or_little d Hrec) as [Hbig|Hlittle].
    - rewrite decide_True in HlookB by (by apply big_program_names).
      destruct (decide (Data.name d ∈ program_names litP)) as [Hin|Hout].
      + rewrite decide_True in HlookL by done. by apply lookup_union_Some_l.
      + rewrite decide_False in HlookL by done. by rewrite lookup_union_r.
    - rewrite decide_True in HlookL
        by (apply little_walk_names; [by apply elem_of_reverse|done]).
      by apply lookup_union_Some_l. }
  set (g := fun d : Data.t =>
              match _decode_field d (raw_of data d) decode_choices true with
              | Ok x => x
              | Raise _ => VInt 0
              end).
  destruct (comprehension_lookup
              (fun field =>
                 raw ← getitem (UL ∪ UB) (Data.name field);
                 _decode_field field raw decode_choices true)
              g datas) with (acc := (∅ : gmap string value))
    as (out & Hout & Hin & _).
  { intros d Hd. unfold getitem. rewrite (Hunion d Hd). cbn [mbind result_bind].
    subst g. cbn beta.
    by destruct (decode_field_total d (raw_of data d) decode_choices true) as [x ->]. }
  { exact Hnames. }
  exists out. split; [exact Hout|].
  intros d Hd. rewrite (Hin d Hd). cbn [default]. split; [|by eexists].
  subst g. cbn beta.
  by destruct (decode_field_total d (raw_of data d) decode_choices true) as [x ->].
Qed.

End Encoded.

End RoundTripTheorem.

Section RoundTripClaim.

Import Utils Spec.

(** A frame without fields: the buffer is all zeros and decodes to the
    empty dictionary. *)
Lemma unpack_without_fields N bs :
  0 <= N -> length (bits_of_bytes bs) = Z.to_nat (8 * N) ->
  Bitstruct.unpack (big_endian (formats_of [] N)) bs = Ok ∅
  /\ Bitstruct.unpack (little_endian (formats_of [] N)) bs = Ok ∅.
Proof.
  intros HN Hlen. unfold Bitstruct.unpack.
  cbn [formats_of big_endian little_endian Bitstruct.infos].
  unfold little_program. cbn [reverse rev_append big_program little_walk].
  rewrite Hlen.
  destruct (0 <? 8 * N) eqn:HW; cbn.
  - assert ((Z.of_nat (Z.to_nat (8 * N)) <? 8 * N - 0 + 0) = false) as ->
      by (apply Z.ltb_ge; lia).
    assert ((Z.of_nat (Z.to_nat (8 * N)) <? 8 * N + 0) = false) as ->
      by (apply Z.ltb_ge; lia).
    done.
  - assert ((Z.of_nat (Z.to_nat (8 * N)) <? 0) = false) as ->
      by (apply Z.ltb_ge; lia).
    done.
Qed.

Lemma round_trips_without_fields N data : 0 <= N -> round_trips [] N data.
Proof.
  intros HN. unfold round_trips, Did.encode, Did.decode.
  rewrite (create_formats_programs [] N ltac:(constructor)).
  cbn [mbind result_bind encode_data length Nat.eqb].
  set (n := Z.to_nat N).
  set (zeros := bits_of_uint (Z.to_nat (8 * N)) 0).
  assert (length zeros = (8 * n)%nat) as Hz
    by (subst zeros n; rewrite length_bits_of_uint; lia).
  exists (Did.frame_of_int N 0). split; [done|].
  unfold Did.frame_of_int. fold zeros.
  rewrite take_ge by (rewrite (length_bytes_of_bits zeros n Hz); lia).
  unfold decode_data.
  destruct (unpack_without_fields N (bytes_of_bits zeros) HN) as [-> _].
  { rewrite (bits_of_bytes_of_bits zeros n Hz). lia. }
  destruct (unpack_without_fields N (reverse (bytes_of_bits zeros)) HN) as [_ ->].
  { fold (byte_reversed zeros). rewrite (length_byte_reversed zeros n Hz). lia. }
  cbn [mbind result_bind comprehension].
  split; exists ∅; (split; [done|]); by intros d ? ?%elem_of_nil.
Qed.

(** C9: in a valid frame whose fields of either byte order are declared
    in ascending order and have distinct names, for every admissible
    assignment of values to integer-kind fields whose numbers stay
    within the decimal precision ([|value - offset| < 10 ^ 27]),
    encoding with scaling returns a frame buffer, and decoding it with
    scaling returns, without choice decoding, every number within half
    the scale of the original and, with choice decoding, every name
    that was encoded exactly. *)
Theorem encode_decode_round_trip
    (datas : list Data.t) (N : Z) (data : gmap string value) :
  valid_frame datas N -> ascending datas ->
  NoDup (Data.name <$> datas) ->
  Forall (admissible data) datas ->
  Forall (within_precision data) datas ->
  round_trips datas N data.
Proof.
  intros Hvalid Hasc Hnames Hadm Hprec.
  destruct (decide (datas = [])) as [->|Hne].
  { apply round_trips_without_fields. by destruct Hvalid. }
  destruct (packings datas N data Hvalid Hasc Hnames Hadm Hprec)
    as (U & B & L & HU & Hlookup & HB & HL & HlenB & HlenL).
  exists (bytes_of_bits (zip_with orb B (byte_reversed L))).
  split; [by apply (encode_merged datas N data Hvalid U)|]. split.
  - destruct (decode_merged datas N data Hvalid Hasc Hnames U B L false
                Hlookup HB HL HlenB HlenL) as (out & Hout & Hfields).
    exists out. split; [done|]. intros d v Hd Hv.
    destruct (Hfields d Hd) as [Hdec [x Hx]].
    destruct (encoded_field datas data Hadm Hprec d Hd) as (_ & _ & Hnear & _).
    destruct (Hnear v Hv) as [Hhalf _].
    rewrite Hx in Hdec. cbn in Hdec. injection Hdec as <-.
    eexists. split; [exact Hx|].
    replace (Data.scale d * raw_of data d + Data.offset d - v)
      with (- (v - Data.offset d - raw_of data d * Data.scale d)) by lia.
    by rewrite Z.abs_opp.
  - destruct (decode_merged datas N data Hvalid Hasc Hnames U B L true
                Hlookup HB HL HlenB HlenL) as (out & Hout & Hfields).
    exists out. split; [done|]. intros d s Hd Hs.
    destruct (Hfields d Hd) as [Hdec [x Hx]].
    destruct (encoded_field datas data Hadm Hprec d Hd) as (_ & _ & _ & Hname).
    rewrite Hx in Hdec. unfold _decode_field in Hdec.
    rewrite (Hname s Hs) in Hdec. injection Hdec as <-. exact Hx.
Qed.

Lemma example_names_distinct : NoDup (Data.name <$> Examples.frame).
Proof. match goal with |- ?G => exact (bool_decide_unpack G I) end. Qed.

Lemma example_values_admissible :
  Forall (admissible Examples.values) Examples.frame.
Proof.
  assert (forall d v raw,
            Data.is_float d = false ->
            Examples.values !! Data.name d = Some (VInt v) ->
            Data.scale d <> 0 ->
            nearest_half_even (v - Data.offset d) (Data.scale d) raw ->
            fits d raw -> admissible Examples.values d) as Hint.
  { intros d v raw Hf Hv Hs Hn Hfit. split; [done|]. rewrite Hv. eauto. }
  repeat apply Forall_cons_2; [| | | |apply Forall_nil_2].
  - by apply (Hint _ 18 18); vm_compute.
  - by apply (Hint _ 52 52); vm_compute.
  - split; [done|]. exists [(3, "three"%string)].
    split; [done|]. split; [|split].
    + by apply NoDup_singleton.
    + by apply Forall_singleton; vm_compute.
    + by left.
  - by apply (Hint _ 200 200); vm_compute.
Qed.

Lemma example_values_within_precision :
  Forall (within_precision Examples.values) Examples.frame.
Proof. repeat (constructor; [by vm_compute|]). constructor. Qed.

Lemma encode_decode_round_trip_witness :
  (valid_frame Examples.frame 5 /\ ascending Examples.frame
   /\ NoDup (Data.name <$> Examples.frame)
   /\ Forall (admissible Examples.values) Examples.frame
   /\ Forall (within_precision Examples.values) Examples.frame)
  /\ round_trips Examples.frame 5 Examples.values.
Proof.
  split.
  - repeat split.
    + exact (proj1 example_frame_valid).
    + exact (proj1 (proj2 example_frame_valid)).
    + exact (proj1 (proj2 (proj2 example_frame_valid))).
    + exact (proj2 (proj2 (proj2 example_frame_valid))).
    + exact example_frame_ascending.
    + exact example_names_distinct.
    + exact example_values_admissible.
    + exact example_values_within_precision.
  - exact (encode_decode_round_trip Examples.frame 5 Examples.values
             example_frame_valid example_frame_ascending example_names_distinct
             example_values_admissible example_values_within_precision).
Defined.

Lemma wide_value_admissible :
  Forall (admissible Examples.value_e) [Examples.field_e].
Proof.
  apply Forall_singleton. split; [done|].
  change (Examples.value_e !! Data.name Examples.field_e)
    with (Some (VInt (10 ^ 28 + 1))).
  split; [done|]. exists (10 ^ 28 + 1). by vm_compute.
Qed.

Lemma unordered_values_admissible :
  Forall (admissible Examples.values_xy) Examples.unordered.
Proof.
  repeat apply Forall_cons_2; [| |apply Forall_nil_2].
  - split; [done|].
    change (Examples.values_xy !! Data.name Examples.field_x)
      with (Some (VInt 1)).
    split; [done|]. exists 1. by vm_compute.
  - split; [done|].
    change (Examples.values_xy !! Data.name Examples.field_y)
      with (Some (VInt 2)).
    split; [done|]. exists 2. by vm_compute.
Qed.

(** Two valid frames with admissible values that do not round-trip.
    The value [10 ^ 28 + 1] of the 96-bit field [E] has 29 digits: the
    decimal subtraction of the offset rounds it to [10 ^ 28], which is
    what decoding returns, one whole unit of the scale away.  The frame
    [unordered] declares byte 1 before byte 0: the big-endian program
    then describes 32 bits, and unpacking the two bytes of the frame
    raises. *)
Lemma round_trip_fails_wide_value_or_unordered :
  (valid_frame [Examples.field_e] 12
   /\ Forall (admissible Examples.value_e) [Examples.field_e]
   /\ ~ round_trips [Examples.field_e] 12 Examples.value_e)
  /\ (valid_frame Examples.unordered 2
      /\ Forall (admissible Examples.values_xy) Examples.unordered
      /\ ~ round_trips Examples.unordered 2 Examples.values_xy).
Proof.
  split.
  - split; [exact wide_frame_valid|]. split; [exact wide_value_admissible|].
    intros (frame & Henc & (out & Hdec & Htol) & _).
    vm_compute in Henc. injection Henc as <-.
    destruct (Htol Examples.field_e (10 ^ 28 + 1)) as (v' & Hv' & Hclose).
    { by left. }
    { done. }
    vm_compute in Hdec. injection Hdec as <-.
    vm_compute in Hv'. injection Hv' as <-.
    vm_compute in Hclose. by apply Hclose.
  - split; [exact unordered_frame_valid|].
    split; [exact unordered_values_admissible|].
    intros (frame & Henc & (out & Hdec & _) & _).
    vm_compute in Henc. injection Henc as <-.
    vm_compute in Hdec. discriminate Hdec.
Qed.

End RoundTripClaim.

(** * Decoding with a scale and an offset of either number type *)

Section FloatScale.

Import Utils Spec Props.

(** On a field whose scale and offset are ints, [_decode_field_numbers]
    is [_decode_field]. *)
Lemma decode_field_numbers_int (field : Data.t) (value : Z)
    (decode_choices scaling : bool) :
  _decode_field_numbers (Data.choices field) (Int (Data.scale field))
    (Int (Data.offset field)) value decode_choices scaling
  = (fun x => match x with
              | VInt z => Number (Int z)
              | VStr s => Name s
              end) <$> _decode_field field value decode_choices scaling.
Proof.
  unfold _decode_field_numbers, _decode_field, choices_subscript,
    Data.choices_getitem.
  destruct decode_choices, scaling; cbn; try done;
    destruct (Data.choices field) as [l|]; try done;
    by destruct (Data.lookup_choice l value).
Qed.

Lemma float_one_of_int : Float.of_int 1 = Ok Cases.float_one.
Proof. reflexivity. Qed.

Lemma float_zero_of_int : Float.of_int 0 = Ok Cases.float_zero.
Proof. reflexivity. Qed.

Lemma of_int_outcome (z : Z) :
  (exists f, Float.of_int z = Ok f) \/ Float.of_int z = Raise OverflowError.
Proof.
  unfold Float.of_int.
  destruct (binary_normalize Float.prec Float.emax z 0 false);
    [left|right|left|left]; by eauto.
Qed.

Lemma number_mul_outcome (a b : Number.t) :
  (exists n, Number.mul a b = Ok n) \/ Number.mul a b = Raise OverflowError.
Proof.
  destruct a as [x|f], b as [y|g]; cbn; eauto.
  - destruct (of_int_outcome x) as [[u ->]| ->]; cbn; eauto.
  - destruct (of_int_outcome y) as [[u ->]| ->]; cbn; eauto.
Qed.

Lemma number_add_outcome (a b : Number.t) :
  (exists n, Number.add a b = Ok n) \/ Number.add a b = Raise OverflowError.
Proof.
  destruct a as [x|f], b as [y|g]; cbn; eauto.
  - destruct (of_int_outcome x) as [[u ->]| ->]; cbn; eauto.
  - destruct (of_int_outcome y) as [[u ->]| ->]; cbn; eauto.
Qed.

(** C10: for a raw integer without a matching choice (the choices
    mapping is absent, or has no such key), decoding with choice
    decoding enabled returns the raw integer when scaling is not
    requested, and the integer [scale * raw + offset] when scaling is
    requested and the scale and the offset are ints.  With a float scale
    or offset the scaled value is computed on floats: decoding returns a
    number or raises [OverflowError], and nothing else. *)
Theorem decode_field_numbers_falls_back
    (choices : option (list (Z * string))) (scale offset : Number.t)
    (raw : Z) (scaling : bool) :
  no_choice_in choices raw ->
  (scaling = false ->
   _decode_field_numbers choices scale offset raw true scaling
   = Ok (Number (Int raw)))
  /\ (forall s o : Z, scale = Int s -> offset = Int o -> scaling = true ->
      _decode_field_numbers choices scale offset raw true scaling
      = Ok (Number (Int (s * raw + o))))
  /\ ((exists n, _decode_field_numbers choices scale offset raw true scaling
                 = Ok (Number n))
      \/ _decode_field_numbers choices scale offset raw true scaling
         = Raise OverflowError).
Proof.
  intros Hraw.
  assert (_decode_field_numbers choices scale offset raw true scaling
          = if scaling
            then product ← Number.mul scale (Int raw);
                 sum ← Number.add product offset;
                 Ok (Number sum)
            else Ok (Number (Int raw))) as ->.
  { unfold _decode_field_numbers, choices_subscript.
    destruct choices as [l|]; [|done].
    by rewrite (lookup_choice_none l raw Hraw). }
  repeat split.
  - by intros ->.
  - by intros s o -> -> ->.
  - destruct scaling; [|by eauto].
    destruct (number_mul_outcome scale (Int raw)) as [[p ->]| ->];
      cbn; [|by right].
    destruct (number_add_outcome p offset) as [[n ->]| ->]; cbn; by eauto.
Qed.

Lemma decode_field_numbers_falls_back_witness :
  no_choice_in (Data.choices Examples.field_c) 5
  /\ _decode_field_numbers (Data.choices Examples.field_c)
       (Int (Data.scale Examples.field_c))
       (Int (Data.offset Examples.field_c)) 5 true true
     = Ok (Number (Int 11)).
Proof.
  assert (no_choice_in (Data.choices Examples.field_c) 5) as H.
  { cbn. rewrite list_elem_of_singleton. discriminate. }
  split; [exact H|].
  exact (proj1 (proj2 (decode_field_numbers_falls_back
                         (Data.choices Examples.field_c)
                         (Int (Data.scale Examples.field_c))
                         (Int (Data.offset Examples.field_c)) 5 true H))
           2 1 eq_refl eq_refl eq_refl).
Defined.

(** With the scale [1.0], the offset [0.0] and no choices, decoding the
    raw integer [2 ^ 1024] with choice decoding and scaling raises
    [OverflowError]: the integer is too large to convert to a float.
    Without scaling the raw integer is returned. *)
Lemma decode_field_float_scale_overflows :
  no_choice_in None Cases.huge
  /\ _decode_field_numbers None (Py.Float Cases.float_one)
       (Py.Float Cases.float_zero) Cases.huge true true = Raise OverflowError
  /\ _decode_field_numbers None (Py.Float Cases.float_one)
       (Py.Float Cases.float_zero) Cases.huge true false
     = Ok (Number (Int Cases.huge)).
Proof. split; [exact I|]. split; by vm_compute. Qed.

End FloatScale.

(** * What [encode_data] writes into a frame *)

Section PaddingClear.

Import Utils Spec.

(** A bit of the combined padding mask of a valid frame: the position
    is data of neither program. *)
Lemma padding_mask_bit datas N q :
  valid_frame datas N -> ascending datas -> 0 <= q < 8 * N ->
  Z.testbit (padding_mask (formats_of datas N)) (8 * N - 1 - q)
  = negb (existsb (fun d => in_big d q) datas)
    && negb (existsb (fun d => in_little d (linear_to_saw_tooth_bitnum q)) datas).
Proof.
  intros Hvalid Hasc Hq.
  pose proof (big_mask_lookup datas N q Hvalid Hasc Hq) as Hbig.
  pose proof (little_mask_lookup datas N q Hvalid Hasc Hq) as Hlittle.
  pose proof (big_mask_length datas N Hvalid Hasc) as Hblen.
  pose proof (little_mask_length datas N Hvalid Hasc) as Hllen.
  cbn [padding_mask formats_of]. rewrite Z.land_spec.
  rewrite items_padding_mask_uint.
  rewrite (testbit_mask _ N q _ ltac:(rewrite Hblen; lia) Hq Hbig).
  unfold little_padding_mask.
  assert ((0 <? 8 * N) = true) as -> by lia.
  rewrite (pad_to_byte_whole _ (Z.to_nat N)) by lia.
  f_equal. apply testbit_mask; [|done|].
  - rewrite (length_byte_reversed _ (Z.to_nat N)) by lia. lia.
  - rewrite (byte_reversed_lookup _ N q) by lia. exact Hlittle.
Qed.

Lemma padding_mask_high datas N k :
  valid_frame datas N -> ascending datas -> 8 * N <= k ->
  Z.testbit (padding_mask (formats_of datas N)) k = false.
Proof.
  intros Hvalid Hasc Hk.
  pose proof (big_mask_length datas N Hvalid Hasc) as Hblen.
  cbn [padding_mask formats_of]. rewrite Z.land_spec.
  rewrite items_padding_mask_uint.
  rewrite testbit_uint_of_bits_high; [done|]. rewrite Hblen.
  destruct Hvalid as [HN _]. lia.
Qed.

End PaddingClear.
Section Packings.

Import Utils Spec.

Variables (datas : list Data.t) (N : Z).
Hypothesis Hvalid : valid_frame datas N.
Hypothesis Hasc : ascending datas.

Let bigP := big_program datas 0 (8 * N).
Let litP := little_program datas (8 * N).

Lemma program_lengths U B L :
  Bitstruct.pack_bits (info_of <$> bigP) U = Ok B ->
  Bitstruct.pack_bits (info_of <$> litP) U = Ok L ->
  length B = Z.to_nat (8 * N) /\ length L = Z.to_nat (8 * N).
Proof.
  intros HB HL. pose proof Hvalid as (HN & Hwf & _).
  destruct (pack_bits_program bigP U
              ltac:(by apply big_program_positive) B HB) as [-> _].
  destruct (pack_bits_program litP U
              ltac:(apply little_walk_positive; by apply Forall_reverse) L HL)
    as [-> _].
  split.
  - apply (big_mask_length datas N Hvalid Hasc).
  - apply (little_mask_length datas N Hvalid Hasc).
Qed.

(** [encode_data] on a frame with at least one field, from the raw
    values and the two packings. *)
Lemma encode_data_merged data scaling U B L :
  datas <> [] ->
  comprehension (fun field => _encode_field field data scaling) datas ∅ = Ok U ->
  Bitstruct.pack_bits (info_of <$> bigP) U = Ok B ->
  Bitstruct.pack_bits (info_of <$> litP) U = Ok L ->
  encode_data data datas (formats_of datas N) scaling
  = Ok (Z.lor (uint_of_bits B) (uint_of_bits (byte_reversed L))).
Proof.
  intros Hne HU HB HL.
  destruct (program_lengths U B L HB HL) as [HlenB HlenL].
  pose proof Hvalid as (HN & Hwf & _).
  pose proof (valid_nonempty_positive datas N Hvalid Hne) as HN1.
  set (n := Z.to_nat N). assert (Z.of_nat n = N) as Hn by lia.
  assert (0 < n)%nat as Hnpos by lia. clearbody n.
  assert (length B = (8 * n)%nat) as HB8 by lia.
  assert (length L = (8 * n)%nat) as HL8 by lia.
  unfold encode_data.
  assert ((length datas =? 0)%nat = false) as ->
    by (clear -Hne; by destruct datas).
  rewrite HU. cbn [mbind result_bind].
  unfold Bitstruct.pack. cbn [formats_of big_endian little_endian Bitstruct.infos].
  fold bigP litP. rewrite HB, HL. cbn [mbind result_bind fmap result_fmap].
  rewrite !(pad_to_byte_whole _ n) by done.
  rewrite (int_hexlify_nonempty (bytes_of_bits B))
    by (by apply (bytes_of_bits_nonempty _ n)).
  rewrite (int_hexlify_nonempty (reverse (bytes_of_bits L)))
    by (apply reverse_nonempty; by apply (bytes_of_bits_nonempty _ n)).
  cbn [mbind result_bind].
  rewrite (uint_of_bytes_of_bits B n HB8).
  by rewrite (uint_of_reversed_bytes L n HL8).
Qed.

Lemma encode_data_packings data scaling packed :
  datas <> [] ->
  encode_data data datas (formats_of datas N) scaling = Ok packed ->
  exists U B L,
    comprehension (fun field => _encode_field field data scaling) datas ∅ = Ok U
    /\ Bitstruct.pack_bits (info_of <$> bigP) U = Ok B
    /\ Bitstruct.pack_bits (info_of <$> litP) U = Ok L
    /\ packed = Z.lor (uint_of_bits B) (uint_of_bits (byte_reversed L)).
Proof.
  intros Hne Henc. pose proof Henc as Henc'. unfold encode_data in Henc.
  assert ((length datas =? 0)%nat = false) as Hlen
    by (clear -Hne; by destruct datas).
  rewrite Hlen in Henc.
  destruct (comprehension _ datas ∅) as [U|e] eqn:HU; [|discriminate Henc].
  cbn [mbind result_bind] in Henc. unfold Bitstruct.pack in Henc.
  cbn [formats_of big_endian little_endian Bitstruct.infos] in Henc.
  fold bigP litP in Henc.
  destruct (Bitstruct.pack_bits (info_of <$> bigP) U) as [B|e] eqn:HB;
    [|discriminate Henc].
  destruct (Bitstruct.pack_bits (info_of <$> litP) U) as [L|e] eqn:HL;
    [|discriminate Henc].
  exists U, B, L. repeat (split; [done|]).
  rewrite (encode_data_merged data scaling U B L Hne HU HB HL) in Henc'.
  by injection Henc' as <-.
Qed.

End Packings.

Section EncodeRange.

Import Utils Spec.

Lemma lor_range a b n :
  0 <= n -> 0 <= a < 2 ^ n -> 0 <= b < 2 ^ n -> 0 <= Z.lor a b < 2 ^ n.
Proof.
  intros Hn Ha Hb.
  rewrite <- (Z.mod_small a (2 ^ n)), <- (Z.mod_small b (2 ^ n)) by done.
  rewrite <- !Z.land_ones, <- Z.land_lor_distr_l, Z.land_ones by done.
  apply Z.mod_pos_bound. lia.
Qed.

Lemma encode_data_clear datas N data scaling packed :
  valid_frame datas N -> ascending datas ->
  encode_data data datas (formats_of datas N) scaling = Ok packed ->
  0 <= packed < 2 ^ (8 * N)
  /\ Z.land packed (padding_mask (formats_of datas N)) = 0.
Proof.
  intros Hvalid Hasc Henc. pose proof Hvalid as (HN & Hwf & _).
  destruct (decide (datas = [])) as [->|Hne].
  { cbn in Henc. injection Henc as <-. split; [|done].
    split; [done|]. apply Z.pow_pos_nonneg; lia. }
  destruct (encode_data_packings datas N Hvalid Hasc data scaling packed Hne Henc)
    as (U & B & L & HU & HB & HL & ->).
  destruct (program_lengths datas N Hvalid Hasc U B L HB HL) as [HlenB HlenL].
  set (n := Z.to_nat N). assert (Z.of_nat n = N) as Hn by lia. clearbody n.
  assert (length L = (8 * n)%nat) as HL8 by lia.
  pose proof (length_byte_reversed L n HL8) as HR8.
  assert (Z.of_nat (length B) = 8 * N) as HB' by lia.
  assert (Z.of_nat (length (byte_reversed L)) = 8 * N) as HR' by lia.
  split.
  - apply lor_range; [lia| |].
    + rewrite <- HB'. apply uint_of_bits_range.
    + rewrite <- HR'. apply uint_of_bits_range.
  - apply Z.bits_inj'. intros k Hk. rewrite Z.land_spec, Z.lor_spec, Z.bits_0.
    destruct (Z.le_gt_cases (8 * N) k) as [Hhigh|Hlow].
    { by rewrite (padding_mask_high datas N k Hvalid Hasc Hhigh), andb_false_r. }
    set (q := 8 * N - 1 - k). assert (0 <= q < 8 * N) as Hq by lia.
    replace k with (8 * N - 1 - q) by lia.
    rewrite (padding_mask_bit datas N q Hvalid Hasc Hq).
    pose proof (big_mask_lookup datas N q Hvalid Hasc Hq) as Hbig.
    pose proof (little_mask_lookup datas N q Hvalid Hasc Hq) as Hlittle.
    destruct (existsb (fun d => in_big d q) datas); [by rewrite andb_false_r|].
    destruct (existsb (fun d => in_little d (linear_to_saw_tooth_bitnum q)) datas);
      [by rewrite andb_false_r|].
    destruct (pack_bits_program _ U
                ltac:(by apply (big_program_positive datas (8 * N))) B HB)
      as [_ HclearB].
    destruct (pack_bits_program _ U
                ltac:(apply little_walk_positive; by apply Forall_reverse) L HL)
      as [_ HclearL].
    rewrite (testbit_mask B N q false HB' Hq (HclearB _ Hbig)).
    rewrite (testbit_mask (byte_reversed L) N q false HR' Hq); [done|].
    rewrite (byte_reversed_lookup L N q) by lia. by apply HclearL.
Qed.

End EncodeRange.

(** * Decoding a merged buffer *)

Section DecodeMerged.

Import Utils Spec Props.

Variables (datas : list Data.t) (N : Z).
Hypothesis Hvalid : valid_frame datas N.
Hypothesis Hasc : ascending datas.

Let bigP := big_program datas 0 (8 * N).
Let litP := little_program datas (8 * N).

(** The bytes of the integer [encode_data] returns. *)
Lemma int_to_bytes_merged U B L :
  Bitstruct.pack_bits (info_of <$> bigP) U = Ok B ->
  Bitstruct.pack_bits (info_of <$> litP) U = Ok L ->
  int_to_bytes N (Z.lor (uint_of_bits B) (uint_of_bits (byte_reversed L)))
  = bytes_of_bits (zip_with orb B (byte_reversed L)).
Proof.
  intros HB HL.
  destruct (program_lengths datas N Hvalid Hasc U B L HB HL) as [HlenB HlenL].
  pose proof Hvalid as (HN & _).
  set (n := Z.to_nat N). assert (Z.of_nat n = N) as Hn by lia. clearbody n.
  assert (length L = (8 * n)%nat) as HL8 by lia.
  pose proof (length_byte_reversed L n HL8) as HR8.
  unfold int_to_bytes. rewrite bits_of_uint_lor.
  rewrite <- HlenB at 1. rewrite bits_of_uint_of_bits.
  replace (Z.to_nat (8 * N)) with (length (byte_reversed L)) by lia.
  by rewrite bits_of_uint_of_bits.
Qed.

(** Decoding the merged buffer decodes every field from the raw value
    that was packed under its name. *)
Lemma decode_data_merged U B L decode_choices scaling :
  NoDup (Data.name <$> datas) ->
  Bitstruct.pack_bits (info_of <$> bigP) U = Ok B ->
  Bitstruct.pack_bits (info_of <$> litP) U = Ok L ->
  (forall d, d ∈ datas -> is_Some (U !! Data.name d)) ->
  exists out,
    decode_data (bytes_of_bits (zip_with orb B (byte_reversed L))) datas
      (formats_of datas N) decode_choices scaling = Ok out
    /\ (forall d raw, d ∈ datas -> U !! Data.name d = Some raw ->
          exists x, out !! Data.name d = Some x
                    /\ _decode_field d raw decode_choices scaling = Ok x)
    /\ (forall n, n ∉ Data.name <$> datas -> out !! n = None).
Proof.
  intros Hnames HB HL Hsome.
  pose proof Hvalid as (HN & Hwf & _).
  destruct (unpack_merged datas N U Hvalid Hasc B L HB HL)
    as (UB & UL & HUB & HUL & HlookB & HlookL).
  unfold decode_data. rewrite HUB, HUL. cbn [mbind result_bind].
  assert (forall d, d ∈ datas ->
            (UL ∪ UB) !! Data.name d = U !! Data.name d) as Hunion.
  { intros d Hd. rewrite Forall_forall in Hwf. destruct (Hwf d Hd) as [Hrec _].
    destruct (Hsome d Hd) as [raw Hraw].
    specialize (HlookB (Data.name d)). specialize (HlookL (Data.name d)).
    rewrite Hraw in HlookB, HlookL |- *.
    destruct (field_is_big_or_little d Hrec) as [Hbig|Hlittle].
    - rewrite decide_True in HlookB by (by apply big_program_names).
      destruct (decide (Data.name d ∈ program_names litP)) as [Hin|Hout].
      + rewrite decide_True in HlookL by done. by apply lookup_union_Some_l.
      + rewrite decide_False in HlookL by done. by rewrite lookup_union_r.
    - rewrite decide_True in HlookL
        by (apply little_walk_names; [by apply elem_of_reverse|done]).
      by apply lookup_union_Some_l. }
  set (g := fun d : Data.t =>
              match _decode_field d (default 0 (U !! Data.name d))
                      decode_choices scaling with
              | Ok x => x
              | Raise _ => VInt 0
              end).
  destruct (comprehension_lookup
              (fun field =>
                 raw ← getitem (UL ∪ UB) (Data.name field);
                 _decode_field field raw decode_choices scaling)
              g datas) with (acc := (∅ : gmap string value))
    as (out & Hout & Hin & Hnot).
  { intros d Hd. unfold getitem. rewrite (Hunion d Hd).
    destruct (Hsome d Hd) as [raw Hraw]. rewrite Hraw.
    cbn [mbind result_bind]. subst g. cbn beta. rewrite Hraw. cbn [default from_option id].
    by destruct (decode_field_total d raw decode_choices scaling) as [x ->]. }
  { exact Hnames. }
  exists out. split; [exact Hout|]. split.
  - intros d raw Hd Hraw. rewrite (Hin d Hd). eexists. split; [done|].
    subst g. cbn beta. rewrite Hraw. cbn [default from_option id].
    by destruct (decode_field_total d raw decode_choices scaling) as [x ->].
  - intros n Hn. by rewrite (Hnot n Hn).
Qed.

End DecodeMerged.

Section RawRoundTrip.

Import Utils Spec Props.

Lemma encode_field_raw data d :
  raw_admissible data d ->
  exists v, data !! Data.name d = Some (VInt v) /\ fits d v
            /\ _encode_field d data false = Ok v.
Proof.
  intros [Hfloat Hv]. unfold _encode_field, getitem.
  destruct (data !! Data.name d) as [[v|s]|]; try done. by exists v.
Qed.

Lemma decode_without_fields N decode_choices scaling :
  0 <= N ->
  decode_data (int_to_bytes N 0) [] (formats_of [] N) decode_choices scaling
  = Ok ∅.
Proof.
  intros HN. unfold int_to_bytes.
  set (n := Z.to_nat N).
  set (zeros := bits_of_uint (Z.to_nat (8 * N)) 0).
  assert (length zeros = (8 * n)%nat) as Hz
    by (subst zeros n; rewrite length_bits_of_uint; lia).
  unfold decode_data.
  destruct (unpack_without_fields N (bytes_of_bits zeros) HN) as [-> _].
  { rewrite (bits_of_bytes_of_bits zeros n Hz). lia. }
  destruct (unpack_without_fields N (reverse (bytes_of_bits zeros)) HN) as [_ ->].
  { fold (byte_reversed zeros). rewrite (length_byte_reversed zeros n Hz). lia. }
  reflexivity.
Qed.

Lemma raw_round_trip datas N data :
  valid_frame datas N -> ascending datas ->
  NoDup (Data.name <$> datas) ->
  Forall (raw_admissible data) datas ->
  exists packed out,
    encode_data data datas (formats_of datas N) false = Ok packed
    /\ decode_data (int_to_bytes N packed) datas (formats_of datas N)
         false false = Ok out
    /\ forall n, out !! n
                 = if decide (n ∈ Data.name <$> datas) then data !! n else None.
Proof.
  intros Hvalid Hasc Hnames Hadm.
  pose proof Hvalid as (HN & Hwf & _).
  destruct (decide (datas = [])) as [->|Hne].
  { exists 0, ∅. split; [done|]. split; [by apply decode_without_fields|].
    intros n. rewrite lookup_empty. rewrite decide_False; [done|].
    by intros ?%elem_of_nil. }
  rewrite Forall_forall in Hadm.
  set (g := fun d : Data.t =>
              match data !! Data.name d with
              | Some (VInt v) => v
              | _ => 0
              end).
  assert (forall d, d ∈ datas ->
            data !! Data.name d = Some (VInt (g d)) /\ fits d (g d)
            /\ _encode_field d data false = Ok (g d)) as Hg.
  { intros d Hd. destruct (encode_field_raw data d (Hadm d Hd))
      as (v & Hv & Hfits & Henc).
    subst g. cbn beta. by rewrite Hv. }
  destruct (comprehension_lookup
              (fun field => _encode_field field data false) g datas
              ltac:(intros d Hd; by destruct (Hg d Hd) as (_ & _ & ?))
              Hnames ∅) as (U & HU & Hlookup & _).
  assert (forall d, d ∈ datas ->
            exists s, Bitstruct.pack_value
                        (Bitstruct.mk_info (kind_char (kind_of d)) (Data.length d)
                           (Some (Data.name d))) (g d) = Ok s) as Hpack.
  { intros d Hd. destruct (Hg d Hd) as (_ & Hfits & _).
    destruct (Hadm d Hd) as [Hfloat _]. by apply pack_value_fits. }
  destruct (pack_bits_succeeds (big_program datas 0 (8 * N)) U) as [B HB].
  { intros w k n Hfield.
    destruct (big_program_field _ _ _ _ _ _ Hfield) as (d & Hd & -> & -> & ->).
    destruct (Hpack d Hd) as [s Hs]. exists (g d), s.
    split; [by apply Hlookup|done]. }
  destruct (pack_bits_succeeds (little_program datas (8 * N)) U) as [L HL].
  { intros w k n Hfield.
    destruct (little_walk_field _ _ _ _ _ Hfield) as (d & Hd & -> & -> & ->).
    rewrite elem_of_reverse in Hd.
    destruct (Hpack d Hd) as [s Hs]. exists (g d), s.
    split; [by apply Hlookup|done]. }
  destruct (decode_data_merged datas N Hvalid Hasc U B L false false
              Hnames HB HL) as (out & Hout & Hin & Hnot).
  { intros d Hd. rewrite (Hlookup d Hd). by eexists. }
  eexists _, out. split; [|split].
  - exact (encode_data_merged datas N Hvalid Hasc data false U B L Hne HU HB HL).
  - by rewrite (int_to_bytes_merged datas N Hvalid Hasc U B L HB HL).
  - intros n. destruct (decide (n ∈ Data.name <$> datas)) as [Hn|Hn].
    + apply list_elem_of_fmap in Hn as (d & -> & Hd).
      destruct (Hin d (g d) Hd (Hlookup d Hd)) as (x & -> & Hx).
      cbn in Hx. injection Hx as <-. by destruct (Hg d Hd) as [-> _].
    + by apply Hnot.
Qed.

End RawRoundTrip.

(** * Decoding any buffer *)

Section Buffers.

Import Utils Spec Props.

Lemma pow2_double w : 1 <= w -> 2 ^ w = 2 * 2 ^ (w - 1).
Proof.
  intros Hw. replace w with (Z.succ (w - 1)) at 1 by lia.
  apply Z.pow_succ_r. lia.
Qed.

(** The integer read from the bits of a field fits the field, and
    packs to the same bits. *)
Lemma unpack_value_fits w k n s :
  k <> Float -> 0 < w -> length s = Z.to_nat w ->
  exists v,
    Bitstruct.unpack_value (Bitstruct.mk_info (kind_char k) w (Some n)) s = Ok v
    /\ fits_kind w k v
    /\ Bitstruct.pack_value (Bitstruct.mk_info (kind_char k) w (Some n)) v = Ok s.
Proof.
  intros Hk Hw Hlen.
  assert (Z.of_nat (length s) = w) as Hlen' by lia.
  pose proof (uint_of_bits_range s) as Hrange. rewrite Hlen' in Hrange.
  pose proof (bits_of_uint_of_bits s) as Hbits. rewrite Hlen in Hbits.
  destruct k; [| |done].
  - exists (uint_of_bits s). split; [done|]. split; [done|].
    unfold Bitstruct.pack_value. cbn [kind_char Bitstruct.type_ Bitstruct.size].
    cbn [Ascii.eqb Bool.eqb].
    assert ((0 <=? uint_of_bits s) && (uint_of_bits s <? 2 ^ w) = true) as ->
      by (apply andb_true_iff; lia).
    by rewrite Hbits.
  - pose proof (pow2_double w ltac:(lia)) as E.
    assert (0 < 2 ^ (w - 1)) as Hpos by (apply Z.pow_pos_nonneg; lia).
    unfold Bitstruct.unpack_value, Bitstruct.pack_value.
    cbn [kind_char Bitstruct.type_ Bitstruct.size]. cbn [Ascii.eqb Bool.eqb].
    destruct s as [|b s']; [cbn in Hlen; lia|].
    assert (Z.of_nat (length s') = w - 1) as Hs' by (cbn in Hlen'; lia).
    pose proof (uint_of_bits_range s') as Hrange'. rewrite Hs' in Hrange'.
    pose proof (uint_of_bits_cons b s') as Hcons. rewrite Hs' in Hcons.
    rewrite Hlen'. set (u := uint_of_bits (b :: s')) in *. clearbody u.
    destruct b; cbn [Z.b2z] in Hcons.
    + exists (u - 2 ^ w). split; [done|]. split; [cbn; lia|].
      assert ((- 2 ^ (w - 1) <=? u - 2 ^ w) && (u - 2 ^ w <? 2 ^ (w - 1)) = true)
        as -> by (apply andb_true_iff; lia).
      assert ((u - 2 ^ w <? 0) = true) as -> by lia.
      replace (u - 2 ^ w + 2 ^ w) with u by lia. by rewrite Hbits.
    + exists u. split; [done|]. split; [cbn; lia|].
      assert ((- 2 ^ (w - 1) <=? u) && (u <? 2 ^ (w - 1)) = true)
        as -> by (apply andb_true_iff; lia).
      assert ((u <? 0) = false) as -> by lia.
      by rewrite Hbits.
Qed.

Lemma program_names_cons_field w k n prog :
  program_names (Field w k n :: prog) = n :: program_names prog.
Proof. reflexivity. Qed.

Lemma program_names_cons_padding w prog :
  program_names (Padding w :: prog) = program_names prog.
Proof. reflexivity. Qed.

Lemma mask_bits_cons_length i prog :
  positive_width i ->
  length (mask_bits (render <$> i :: prog))
  = (Z.to_nat (Bitstruct.size (info_of i))
     + length (mask_bits (render <$> prog)))%nat.
Proof.
  intros Hi. rewrite fmap_cons, mask_bits_cons, length_app.
  destruct i; cbn [render item_mask info_of Bitstruct.size];
    by rewrite length_replicate.
Qed.

(** Unpacking a program of integer fields from any bit string that is
    long enough returns a dictionary: entries under other names are
    kept, and every entry under a name of the program fits a field of
    that name. *)
Lemma unpack_bits_any prog :
  Forall positive_width prog -> Forall integer_kind prog ->
  forall X acc,
    (length (mask_bits (render <$> prog)) <= length X)%nat ->
    exists acc',
      Bitstruct.unpack_bits (info_of <$> prog) X acc = Ok acc'
      /\ (forall m, m ∉ program_names prog -> acc' !! m = acc !! m)
      /\ (forall m, m ∈ program_names prog ->
            exists v w k, acc' !! m = Some v
                          /\ Field w k m ∈ prog /\ fits_kind w k v).
Proof.
  intros Hpos Hint. induction prog as [|i prog IH]; intros X acc Hlen.
  - exists acc. split; [done|]. split; [done|]. by intros m ?%elem_of_nil.
  - apply Forall_cons in Hpos as [Hi Hpos]. apply Forall_cons in Hint as [Hk Hint].
    rewrite (mask_bits_cons_length i prog Hi) in Hlen.
    rewrite fmap_cons. cbn [Bitstruct.unpack_bits].
    destruct i as [w|w k n]; cbn [info_of Bitstruct.name Bitstruct.size] in *.
    + destruct (IH Hpos Hint (drop (Z.to_nat w) X) acc) as (acc' & Hacc' & Hout & Hin).
      { rewrite length_drop. lia. }
      exists acc'. split; [done|]. split; [done|].
      intros m Hm. destruct (Hin m Hm) as (v & w' & k & Hv & Hf & Hfit).
      exists v, w', k. split; [done|]. split; [by right|done].
    + destruct (unpack_value_fits w k n (take (Z.to_nat w) X))
        as (v & Hv & Hfit & _).
      { by destruct k. }
      { exact Hi. }
      { rewrite length_take. lia. }
      rewrite Hv. cbn [mbind result_bind].
      destruct (IH Hpos Hint (drop (Z.to_nat w) X) (<[n := v]> acc))
        as (acc' & Hacc' & Hout & Hin).
      { rewrite length_drop. lia. }
      exists acc'. split; [done|]. split.
      * intros m Hm. rewrite program_names_cons_field in Hm.
        apply not_elem_of_cons in Hm as [Hmn Hm].
        rewrite (Hout m Hm). by rewrite lookup_insert_ne.
      * intros m Hm. rewrite program_names_cons_field in Hm.
        destruct (decide (m ∈ program_names prog)) as [Hrest|Hrest].
        -- destruct (Hin m Hrest) as (v' & w' & k' & Hv' & Hf & Hfit').
           exists v', w', k'. split; [done|]. split; [by right|done].
        -- apply elem_of_cons in Hm as [->|Hm]; [|done].
           exists v, w, k. rewrite (Hout n Hrest), lookup_insert_eq.
           split; [done|]. split; [by left|done].
Qed.

(** Packing what was unpacked from a bit string gives its data bits
    back. *)
Lemma pack_unpack_program prog :
  Forall positive_width prog -> Forall integer_kind prog ->
  NoDup (program_names prog) ->
  forall X acc acc' U,
    (length (mask_bits (render <$> prog)) <= length X)%nat ->
    Bitstruct.unpack_bits (info_of <$> prog) X acc = Ok acc' ->
    (forall m, m ∈ program_names prog -> U !! m = acc' !! m) ->
    exists B,
      Bitstruct.pack_bits (info_of <$> prog) U = Ok B
      /\ forall j, mask_bits (render <$> prog) !! j = Some false ->
                   B !! j = X !! j.
Proof.
  intros Hpos Hint. induction prog as [|i prog IH];
    intros Hnodup X acc acc' U Hlen Hacc HU.
  - exists []. split; [done|]. by intros j Hj.
  - apply Forall_cons in Hpos as [Hi Hpos]. apply Forall_cons in Hint as [Hk Hint].
    rewrite (mask_bits_cons_length i prog Hi) in Hlen.
    rewrite fmap_cons in Hacc. cbn [Bitstruct.unpack_bits] in Hacc.
    rewrite !fmap_cons, mask_bits_cons. cbn [Bitstruct.pack_bits].
    destruct i as [w|w k n]; cbn [info_of Bitstruct.name Bitstruct.size] in *.
    + destruct (IH Hpos Hint Hnodup (drop (Z.to_nat w) X) acc acc' U)
        as (B & HB & Hagree); [rewrite length_drop; lia|done|done|].
      rewrite HB. cbn [mbind result_bind]. eexists. split; [done|].
      intros j Hj. cbn [render item_mask] in Hj.
      destruct (Nat.lt_ge_cases j (Z.to_nat w)) as [Hlt|Hge].
      * rewrite lookup_app_l in Hj by (by rewrite length_replicate).
        apply lookup_replicate in Hj as [? _]. discriminate.
      * rewrite lookup_app_r in Hj by (by rewrite length_replicate).
        rewrite length_replicate in Hj.
        rewrite lookup_app_r by (by rewrite length_replicate).
        rewrite length_replicate, (Hagree _ Hj), lookup_drop. f_equal. lia.
    + rewrite program_names_cons_field in Hnodup, HU.
      apply NoDup_cons in Hnodup as [Hn Hnodup].
      destruct (unpack_value_fits w k n (take (Z.to_nat w) X))
        as (v & Hv & Hfit & Hpack).
      { by destruct k. }
      { exact Hi. }
      { rewrite length_take. lia. }
      rewrite Hv in Hacc. cbn [mbind result_bind] in Hacc.
      destruct (unpack_bits_any prog Hpos Hint (drop (Z.to_nat w) X)
                  (<[n := v]> acc)) as (acc'' & Hacc'' & Hout & _).
      { rewrite length_drop. lia. }
      rewrite Hacc in Hacc''. injection Hacc'' as <-.
      rewrite (HU n ltac:(by left)), (Hout n Hn), lookup_insert_eq, Hpack.
      cbn [mbind result_bind].
      destruct (IH Hpos Hint Hnodup (drop (Z.to_nat w) X) (<[n := v]> acc) acc' U)
        as (B & HB & Hagree); [rewrite length_drop; lia|done| |].
      { intros m Hm. apply HU. by right. }
      rewrite HB. cbn [mbind result_bind]. eexists. split; [done|].
      assert (length (take (Z.to_nat w) X) = Z.to_nat w) as Htake
        by (rewrite length_take; lia).
      intros j Hj. cbn [render item_mask] in Hj.
      destruct (Nat.lt_ge_cases j (Z.to_nat w)) as [Hlt|Hge].
      * rewrite lookup_app_l by lia. by rewrite lookup_take_lt.
      * rewrite lookup_app_r in Hj by (by rewrite length_replicate).
        rewrite length_replicate in Hj.
        rewrite lookup_app_r by lia.
        rewrite Htake, (Hagree _ Hj), lookup_drop. f_equal. lia.
Qed.

End Buffers.

Section ByteBuffers.

Import Utils Spec Props.

Lemma whole_bytes_of_bytes (buf : bytes) : whole_bytes (bits_of_uint 8 <$> buf).
Proof.
  unfold whole_bytes. rewrite Forall_fmap. apply Forall_forall.
  intros x _. apply length_bits_of_uint.
Qed.

Lemma length_bits_of_bytes (buf : bytes) :
  length (bits_of_bytes buf) = (8 * length buf)%nat.
Proof.
  unfold bits_of_bytes. rewrite length_join_whole by apply whole_bytes_of_bytes.
  by rewrite length_fmap.
Qed.

Lemma byte_chunks buf :
  byte_values buf -> uint_of_bits <$> (bits_of_uint 8 <$> buf) = buf.
Proof.
  induction 1 as [|x buf Hx _ IH]; [done|].
  rewrite !fmap_cons, IH. f_equal.
  apply uint_of_bits_of_uint_small. change (2 ^ Z.of_nat 8) with 256. lia.
Qed.

Lemma bytes_of_bits_of_bytes buf :
  byte_values buf -> bytes_of_bits (bits_of_bytes buf) = buf.
Proof.
  intros Hbuf. unfold bits_of_bytes.
  rewrite bytes_of_bits_join by apply whole_bytes_of_bytes.
  by apply byte_chunks.
Qed.

Lemma uint_of_bits_of_bytes buf :
  byte_values buf -> uint_of_bits (bits_of_bytes buf) = uint_of_bytes buf.
Proof.
  intros Hbuf. unfold bits_of_bytes.
  rewrite <- uint_of_bytes_chunks by apply whole_bytes_of_bytes.
  by rewrite byte_chunks.
Qed.

Lemma bits_of_bytes_reverse buf :
  byte_values buf ->
  bits_of_bytes (reverse buf) = byte_reversed (bits_of_bytes buf).
Proof.
  intros Hbuf. unfold byte_reversed. by rewrite bytes_of_bits_of_bytes.
Qed.

End ByteBuffers.

Section ProgramNames.

Import Utils Spec Props.

Lemma big_program_names_filter datas W :
  forall c, program_names (big_program datas c W)
            = Data.name <$> filter (fun d => is_big d = true) datas.
Proof.
  induction datas as [|d datas IH]; intros c.
  - cbn [big_program]. by destruct (c <? W).
  - cbn [big_program]. rewrite filter_cons.
    destruct (is_big d) eqn:Hbig.
    + rewrite decide_True by done. rewrite program_names_app, fmap_cons.
      rewrite program_names_cons_field, IH.
      by destruct (c <? msb_position d).
    + rewrite decide_False by done. apply IH.
Qed.

Lemma little_walk_names_filter fields :
  forall c, program_names (little_walk fields c)
            = Data.name <$> filter (fun d => is_little d = true) fields.
Proof.
  induction fields as [|d fields IH]; intros c.
  - cbn [little_walk]. by destruct (0 <? c).
  - cbn [little_walk]. rewrite filter_cons.
    destruct (is_little d) eqn:Hlittle.
    + rewrite decide_True by done. rewrite program_names_app, fmap_cons.
      rewrite program_names_cons_field, IH.
      by destruct (0 <? c - (Data.start d + Data.length d)).
    + rewrite decide_False by done. apply IH.
Qed.

Lemma names_injective datas d d' :
  NoDup (Data.name <$> datas) -> d ∈ datas -> d' ∈ datas ->
  Data.name d = Data.name d' -> d = d'.
Proof.
  induction datas as [|x datas IH]; intros Hnodup Hd Hd' Hname.
  - by apply elem_of_nil in Hd.
  - rewrite fmap_cons in Hnodup. apply NoDup_cons in Hnodup as [Hx Hnodup].
    apply elem_of_cons in Hd as [->|Hd]; apply elem_of_cons in Hd' as [->|Hd'].
    + done.
    + exfalso. apply Hx. rewrite Hname. by apply list_elem_of_fmap_2.
    + exfalso. apply Hx. rewrite <- Hname. by apply list_elem_of_fmap_2.
    + by apply IH.
Qed.

Lemma big_program_names_nodup datas W c :
  NoDup (Data.name <$> datas) -> NoDup (program_names (big_program datas c W)).
Proof.
  intros Hnodup. rewrite big_program_names_filter.
  eapply sublist_NoDup; [exact Hnodup|].
  apply fmap_sublist, sublist_filter.
Qed.

Lemma little_program_names_nodup datas W :
  NoDup (Data.name <$> datas) -> NoDup (program_names (little_program datas W)).
Proof.
  intros Hnodup. unfold little_program. rewrite little_walk_names_filter.
  eapply sublist_NoDup; [|apply fmap_sublist, sublist_filter].
  by rewrite fmap_reverse, reverse_Permutation.
Qed.

Lemma big_program_names_elem datas W c n :
  n ∈ program_names (big_program datas c W)
  <-> exists d, d ∈ datas /\ is_big d = true /\ Data.name d = n.
Proof.
  rewrite big_program_names_filter, list_elem_of_fmap.
  split.
  - intros (d & -> & [Hbig Hd]%list_elem_of_filter). by exists d.
  - intros (d & Hd & Hbig & <-). exists d. split; [done|].
    by apply list_elem_of_filter.
Qed.

Lemma little_program_names_elem datas W n :
  n ∈ program_names (little_program datas W)
  <-> exists d, d ∈ datas /\ is_little d = true /\ Data.name d = n.
Proof.
  unfold little_program. rewrite little_walk_names_filter, list_elem_of_fmap.
  split.
  - intros (d & -> & [Hbig Hd]%list_elem_of_filter).
    exists d. by rewrite elem_of_reverse in Hd.
  - intros (d & Hd & Hbig & <-). exists d. split; [done|].
    apply list_elem_of_filter. by rewrite elem_of_reverse.
Qed.

Lemma program_integer_kinds datas prog :
  Forall (fun d => Data.is_float d = false) datas ->
  (forall w k n, Field w k n ∈ prog -> exists d, d ∈ datas /\ k = kind_of d) ->
  Forall integer_kind prog.
Proof.
  intros Hfloat Hfields. apply Forall_forall. intros [w|w k n] Hi; [done|].
  destruct (Hfields w k n Hi) as (d & Hd & ->).
  rewrite Forall_forall in Hfloat. specialize (Hfloat d Hd).
  unfold kind_of. rewrite Hfloat. cbn. by destruct (Data.is_signed d).
Qed.

Lemma big_program_integer_kinds datas c W :
  Forall (fun d => Data.is_float d = false) datas ->
  Forall integer_kind (big_program datas c W).
Proof.
  intros Hfloat. apply (program_integer_kinds datas); [done|].
  intros w k n Hf.
  destruct (big_program_field _ _ _ _ _ _ Hf) as (d & Hd & _ & -> & _).
  by exists d.
Qed.

Lemma little_program_integer_kinds datas W :
  Forall (fun d => Data.is_float d = false) datas ->
  Forall integer_kind (little_program datas W).
Proof.
  intros Hfloat. apply (program_integer_kinds datas); [done|].
  intros w k n Hf.
  destruct (little_walk_field _ _ _ _ _ Hf) as (d & Hd & _ & -> & _).
  exists d. by rewrite elem_of_reverse in Hd.
Qed.

Lemma fits_kind_of d v :
  Data.is_float d = false -> fits_kind (Data.length d) (kind_of d) v -> fits d v.
Proof.
  unfold fits, kind_of. intros ->. by destruct (Data.is_signed d).
Qed.

End ProgramNames.

Section DecodeBuffer.

Import Utils Spec Props.

Variables (datas : list Data.t) (N : Z).
Hypothesis Hvalid : valid_frame datas N.
Hypothesis Hasc : ascending datas.
Hypothesis Hnames : NoDup (Data.name <$> datas).
Hypothesis Hfloat : Forall (fun d => Data.is_float d = false) datas.

Let bigP := big_program datas 0 (8 * N).
Let litP := little_program datas (8 * N).

(** The raw values the two programs read from a buffer of [N] bytes. *)
Lemma unpack_buffer buf :
  Z.of_nat (length buf) = N ->
  exists UB UL,
    Bitstruct.unpack (big_endian (formats_of datas N)) buf = Ok UB
    /\ Bitstruct.unpack (little_endian (formats_of datas N)) (reverse buf) = Ok UL
    /\ Bitstruct.unpack_bits (info_of <$> bigP) (bits_of_bytes buf) ∅ = Ok UB
    /\ Bitstruct.unpack_bits (info_of <$> litP) (bits_of_bytes (reverse buf)) ∅
       = Ok UL
    /\ (forall m, m ∉ program_names bigP -> UB !! m = None)
    /\ (forall m, m ∉ program_names litP -> UL !! m = None)
    /\ forall d, d ∈ datas ->
         exists v, (UL ∪ UB) !! Data.name d = Some v /\ fits d v.
Proof.
  intros Hlen. pose proof Hvalid as (HN & Hwf & _).
  assert (Forall positive_width bigP) as Hbpos by (by apply big_program_positive).
  assert (Forall positive_width litP) as Hlpos
    by (apply little_walk_positive; by apply Forall_reverse).
  assert (Forall integer_kind bigP) as Hbint
    by (by apply big_program_integer_kinds).
  assert (Forall integer_kind litP) as Hlint
    by (by apply little_program_integer_kinds).
  pose proof (big_mask_length datas N Hvalid Hasc) as Hblen. fold bigP in Hblen.
  pose proof (little_mask_length datas N Hvalid Hasc) as Hllen. fold litP in Hllen.
  pose proof (length_bits_of_bytes buf) as HX.
  pose proof (length_bits_of_bytes (reverse buf)) as HX'.
  rewrite length_reverse in HX'.
  destruct (unpack_bits_any bigP Hbpos Hbint (bits_of_bytes buf) ∅)
    as (UB & HUB & HoutB & HinB); [lia|].
  destruct (unpack_bits_any litP Hlpos Hlint (bits_of_bytes (reverse buf)) ∅)
    as (UL & HUL & HoutL & HinL); [lia|].
  exists UB, UL.
  split; [|split; [|split; [done|split; [done|split; [|split]]]]].
  - unfold Bitstruct.unpack. cbn [formats_of big_endian Bitstruct.infos].
    fold bigP. rewrite (number_of_bits_program bigP Hbpos).
    assert ((Z.of_nat (length (bits_of_bytes buf))
             <? Z.of_nat (length (mask_bits (render <$> bigP)))) = false) as ->
      by (apply Z.ltb_ge; lia).
    done.
  - unfold Bitstruct.unpack. cbn [formats_of little_endian Bitstruct.infos].
    fold litP. rewrite (number_of_bits_program litP Hlpos).
    assert ((Z.of_nat (length (bits_of_bytes (reverse buf)))
             <? Z.of_nat (length (mask_bits (render <$> litP)))) = false) as ->
      by (apply Z.ltb_ge; lia).
    done.
  - intros m Hm. by rewrite (HoutB m Hm).
  - intros m Hm. by rewrite (HoutL m Hm).
  - intros d Hd. rewrite Forall_forall in Hwf, Hfloat.
    destruct (Hwf d Hd) as [Hrec _].
    destruct (field_is_big_or_little d Hrec) as [Hbig|Hlittle].
    + assert (Data.name d ∉ program_names litP) as Hnot.
      { intros (d' & Hd' & Hlittle' & Hname)%little_program_names_elem.
        rewrite (names_injective datas d' d Hnames Hd' Hd Hname) in Hlittle'.
        by rewrite (big_not_little d Hbig) in Hlittle'. }
      destruct (HinB (Data.name d)) as (v & w & k & Hv & Hfield & Hfit).
      { apply big_program_names_elem. by exists d. }
      destruct (big_program_field _ _ _ _ _ _ Hfield) as (d' & Hd' & -> & -> & Hname).
      pose proof (names_injective datas d d' Hnames Hd Hd' Hname) as <-.
      exists v. split.
      * rewrite lookup_union_r; [done|]. by rewrite (HoutL _ Hnot).
      * apply fits_kind_of; [by apply Hfloat|done].
    + destruct (HinL (Data.name d)) as (v & w & k & Hv & Hfield & Hfit).
      { apply little_program_names_elem. by exists d. }
      destruct (little_walk_field _ _ _ _ _ Hfield) as (d' & Hd' & -> & -> & Hname).
      rewrite elem_of_reverse in Hd'.
      pose proof (names_injective datas d d' Hnames Hd Hd' Hname) as <-.
      exists v. split; [by apply lookup_union_Some_l|].
      apply fits_kind_of; [by apply Hfloat|done].
Qed.

(** Decoding a buffer decodes every field from the raw value unpacked
    under its name. *)
Lemma decode_unpacked buf decode_choices scaling formats UB UL :
  Bitstruct.unpack (big_endian formats) buf = Ok UB ->
  Bitstruct.unpack (little_endian formats) (reverse buf) = Ok UL ->
  (forall d, d ∈ datas -> is_Some ((UL ∪ UB) !! Data.name d)) ->
  exists out,
    decode_data buf datas formats decode_choices scaling = Ok out
    /\ (forall d v, d ∈ datas -> (UL ∪ UB) !! Data.name d = Some v ->
          exists x, out !! Data.name d = Some x
                    /\ _decode_field d v decode_choices scaling = Ok x)
    /\ (forall n, n ∉ Data.name <$> datas -> out !! n = None).
Proof.
  intros HUB HUL Hraw.
  unfold decode_data. rewrite HUB, HUL. cbn [mbind result_bind].
  set (g := fun d : Data.t =>
              match _decode_field d (default 0 ((UL ∪ UB) !! Data.name d))
                      decode_choices scaling with
              | Ok x => x
              | Raise _ => VInt 0
              end).
  destruct (comprehension_lookup
              (fun field =>
                 raw ← getitem (UL ∪ UB) (Data.name field);
                 _decode_field field raw decode_choices scaling)
              g datas) with (acc := (∅ : gmap string value))
    as (out & Hout & Hin & Hnot).
  { intros d Hd. unfold getitem. destruct (Hraw d Hd) as (v & Hv).
    subst g. cbn beta. rewrite Hv. cbn [mbind result_bind default from_option id].
    by destruct (decode_field_total d v decode_choices scaling) as [x ->]. }
  { exact Hnames. }
  exists out. split; [exact Hout|]. split.
  - intros d v Hd Hv. eexists. split; [by apply Hin|].
    subst g. cbn beta. rewrite Hv. cbn [default from_option id].
    by destruct (decode_field_total d v decode_choices scaling) as [x ->].
  - intros n Hn. by rewrite (Hnot n Hn).
Qed.

End DecodeBuffer.

Section DecodeEncode.

Import Utils Spec Props.

Variables (datas : list Data.t) (N : Z).
Hypothesis Hvalid : valid_frame datas N.
Hypothesis Hasc : ascending datas.
Hypothesis Hnames : NoDup (Data.name <$> datas).
Hypothesis Hfloat : Forall (fun d => Data.is_float d = false) datas.

Let bigP := big_program datas 0 (8 * N).
Let litP := little_program datas (8 * N).

Lemma decode_buffer buf decode_choices scaling :
  Z.of_nat (length buf) = N ->
  exists out,
    decode_data buf datas (formats_of datas N) decode_choices scaling = Ok out
    /\ (forall d, d ∈ datas ->
          exists v x, fits d v /\ out !! Data.name d = Some x
                      /\ _decode_field d v decode_choices scaling = Ok x)
    /\ (forall n, n ∉ Data.name <$> datas -> out !! n = None).
Proof.
  intros Hlen.
  destruct (unpack_buffer datas N Hvalid Hasc Hnames Hfloat buf Hlen)
    as (UB & UL & HUB & HUL & _ & _ & _ & _ & Hraw).
  destruct (decode_unpacked datas Hnames buf decode_choices scaling
              (formats_of datas N) UB UL HUB HUL)
    as (out & Hout & Hin & Hnot).
  { intros d Hd. destruct (Hraw d Hd) as (v & Hv & _). by exists v. }
  exists out. split; [done|]. split; [|done].
  intros d Hd. destruct (Hraw d Hd) as (v & Hv & Hfit).
  destruct (Hin d v Hd Hv) as (x & Hx & Hdec). by exists v, x.
Qed.

(** The merged packings of what was unpacked from a bit string are the
    bits of the string outside the padding mask. *)
Lemma merged_data_bits X B L :
  length X = Z.to_nat (8 * N) ->
  length B = Z.to_nat (8 * N) -> length L = Z.to_nat (8 * N) ->
  (forall j, mask_bits (render <$> bigP) !! j = Some false -> B !! j = X !! j) ->
  (forall j, mask_bits (render <$> bigP) !! j = Some true -> B !! j = Some false) ->
  (forall j, mask_bits (render <$> litP) !! j = Some false ->
             L !! j = byte_reversed X !! j) ->
  (forall j, mask_bits (render <$> litP) !! j = Some true -> L !! j = Some false) ->
  Z.lor (uint_of_bits B) (uint_of_bits (byte_reversed L))
  = Z.ldiff (uint_of_bits X) (padding_mask (formats_of datas N)).
Proof.
  intros HX HB HL HBdata HBpad HLdata HLpad.
  pose proof Hvalid as (HN & _).
  set (n := Z.to_nat N). assert (Z.of_nat n = N) as Hn by lia. clearbody n.
  assert (length L = (8 * n)%nat) as HL8 by lia.
  assert (length X = (8 * n)%nat) as HX8 by lia.
  pose proof (length_byte_reversed L n HL8) as HR8.
  assert (Z.of_nat (length B) = 8 * N) as HB' by lia.
  assert (Z.of_nat (length X) = 8 * N) as HX' by lia.
  assert (Z.of_nat (length (byte_reversed L)) = 8 * N) as HR' by lia.
  apply Z.bits_inj'. intros k Hk. rewrite Z.ldiff_spec, Z.lor_spec.
  destruct (Z.le_gt_cases (8 * N) k) as [Hhigh|Hlow].
  { rewrite !testbit_uint_of_bits_high by lia. done. }
  set (q := 8 * N - 1 - k). assert (0 <= q < 8 * N) as Hq by lia.
  replace k with (8 * N - 1 - q) by lia.
  rewrite (padding_mask_bit datas N q Hvalid Hasc Hq).
  pose proof (big_mask_lookup datas N q Hvalid Hasc Hq) as Hbig.
  pose proof (little_mask_lookup datas N q Hvalid Hasc Hq) as Hlittle.
  pose proof (no_shared_data datas N q Hvalid) as Hshared.
  fold bigP in Hbig. fold litP in Hlittle.
  destruct (lookup_lt_is_Some_2 X (Z.to_nat q) ltac:(lia)) as [x Hx].
  rewrite (testbit_mask X N q x HX' Hq Hx).
  pose proof (byte_reversed_position_range N q Hq) as Hp.
  assert (byte_reversed X !! Z.to_nat (byte_reversed_position N q) = Some x)
    as Hxr.
  { rewrite (byte_reversed_lookup X N _ HX' Hp).
    by rewrite (byte_reversed_position_involutive N q Hq). }
  assert (byte_reversed L !! Z.to_nat q
          = L !! Z.to_nat (byte_reversed_position N q)) as HRq
    by (apply byte_reversed_lookup; lia).
  destruct (existsb (fun d => in_big d q) datas);
    destruct (existsb (fun d => in_little d (linear_to_saw_tooth_bitnum q)) datas);
    cbn [negb andb] in *; try discriminate Hshared.
  - rewrite (testbit_mask B N q x HB' Hq) by (by rewrite (HBdata _ Hbig)).
    rewrite (testbit_mask (byte_reversed L) N q false HR' Hq)
      by (rewrite HRq; by apply HLpad).
    by rewrite orb_false_r, andb_true_r.
  - rewrite (testbit_mask B N q false HB' Hq) by (by apply HBpad).
    rewrite (testbit_mask (byte_reversed L) N q x HR' Hq)
      by (by rewrite HRq, (HLdata _ Hlittle)).
    by rewrite andb_true_r.
  - rewrite (testbit_mask B N q false HB' Hq) by (by apply HBpad).
    rewrite (testbit_mask (byte_reversed L) N q false HR' Hq)
      by (rewrite HRq; by apply HLpad).
    by rewrite andb_false_r.
Qed.

Lemma decode_then_encode buf :
  Z.of_nat (length buf) = N -> byte_values buf ->
  exists out,
    decode_data buf datas (formats_of datas N) false false = Ok out
    /\ encode_data out datas (formats_of datas N) false
       = Ok (Z.ldiff (uint_of_bytes buf) (padding_mask (formats_of datas N))).
Proof.
  intros Hlen Hbytes. pose proof Hvalid as (HN & Hwf & _).
  destruct (unpack_buffer datas N Hvalid Hasc Hnames Hfloat buf Hlen)
    as (UB & UL & HUB & HUL & HUBbits & HULbits & HoutB & HoutL & Hraw).
  fold bigP in HUBbits, HoutB. fold litP in HULbits, HoutL.
  destruct (decode_unpacked datas Hnames buf false false
              (formats_of datas N) UB UL HUB HUL)
    as (out & Hout & Hin & Hnot).
  { intros d Hd. destruct (Hraw d Hd) as (v & Hv & _). by exists v. }
  exists out. split; [done|].
  pose proof (length_bits_of_bytes buf) as HX.
  set (X := bits_of_bytes buf) in *.
  rewrite <- (uint_of_bits_of_bytes buf Hbytes). fold X.
  rewrite (bits_of_bytes_reverse buf Hbytes) in HULbits. fold X in HULbits.
  assert (length X = Z.to_nat (8 * N)) as HXN by lia.
  assert (length (byte_reversed X) = Z.to_nat (8 * N)) as HXR
    by (rewrite (length_byte_reversed X (length buf)) by done; lia).
  assert (Forall positive_width bigP) as Hbpos by (by apply big_program_positive).
  assert (Forall positive_width litP) as Hlpos
    by (apply little_walk_positive; by apply Forall_reverse).
  pose proof (big_mask_length datas N Hvalid Hasc) as Hblen. fold bigP in Hblen.
  pose proof (little_mask_length datas N Hvalid Hasc) as Hllen. fold litP in Hllen.
  assert (forall d, d ∈ datas ->
            exists v, (UL ∪ UB) !! Data.name d = Some v
                      /\ out !! Data.name d = Some (VInt v)
                      /\ _encode_field d out false = Ok v) as Hv.
  { intros d Hd. destruct (Hraw d Hd) as (v & Hv & _).
    destruct (Hin d v Hd Hv) as (x & Hx & Hdec). cbn in Hdec.
    injection Hdec as <-. exists v. repeat (split; [done|]).
    unfold _encode_field, getitem. by rewrite Hx. }
  set (g := fun d : Data.t => default 0 ((UL ∪ UB) !! Data.name d)).
  destruct (comprehension_lookup
              (fun field => _encode_field field out false) g datas
              ltac:(intros d Hd; destruct (Hv d Hd) as (v & Hu & _ & ->);
                    subst g; cbn beta; by rewrite Hu)
              Hnames ∅) as (U & HU & Hlookup & _).
  destruct (pack_unpack_program bigP Hbpos
              ltac:(by apply big_program_integer_kinds)
              ltac:(by apply big_program_names_nodup)
              X ∅ UB U ltac:(lia) HUBbits) as (B & HB & HBdata).
  { intros m (d & Hd & Hbig & <-)%big_program_names_elem.
    rewrite (Hlookup d Hd). subst g. cbn beta.
    destruct (Hv d Hd) as (v & Hu & _). rewrite Hu. cbn.
    rewrite lookup_union_r in Hu; [done|]. apply HoutL.
    intros (d' & Hd' & Hlittle' & Hname)%little_program_names_elem.
    rewrite (names_injective datas d' d Hnames Hd' Hd Hname) in Hlittle'.
    by rewrite (big_not_little d Hbig) in Hlittle'. }
  destruct (pack_unpack_program litP Hlpos
              ltac:(by apply little_program_integer_kinds)
              ltac:(by apply little_program_names_nodup)
              (byte_reversed X) ∅ UL U ltac:(lia) HULbits) as (L & HL & HLdata).
  { intros m (d & Hd & Hlittle & <-)%little_program_names_elem.
    rewrite (Hlookup d Hd). subst g. cbn beta.
    destruct (Hv d Hd) as (v & Hu & _). rewrite Hu. cbn.
    destruct (UL !! Data.name d) as [v'|] eqn:HUL'.
    - rewrite (lookup_union_Some_l UL UB _ v' HUL') in Hu. congruence.
    - destruct (unpack_bits_any litP Hlpos
                  ltac:(by apply little_program_integer_kinds)
                  (byte_reversed X) ∅ ltac:(lia)) as (UL' & HUL'' & _ & HinL).
      rewrite HULbits in HUL''. injection HUL'' as <-.
      destruct (HinL (Data.name d)) as (v' & _ & _ & Hsome & _).
      { apply little_program_names_elem. by exists d. }
      congruence. }
  destruct (pack_bits_program bigP U Hbpos B HB) as [HlenB HBpad].
  destruct (pack_bits_program litP U Hlpos L HL) as [HlenL HLpad].
  rewrite <- (merged_data_bits X B L HXN ltac:(lia) ltac:(lia)
                HBdata HBpad HLdata HLpad).
  destruct (decide (datas = [])) as [Hnil|Hne].
  - assert (forall s : bits,
              (forall j b, s !! j = Some b -> b = false) -> uint_of_bits s = 0)
      as Hclear.
    { induction s as [|b s IH]; intros Hs; [done|].
      rewrite uint_of_bits_cons, IH by (intros j; apply (Hs (S j))).
      by rewrite (Hs 0%nat b eq_refl). }
    assert (forall j, (j < Z.to_nat (8 * N))%nat ->
              mask_bits (render <$> bigP) !! j = Some true
              /\ mask_bits (render <$> litP)
                   !! Z.to_nat (byte_reversed_position N (Z.of_nat j))
                 = Some true) as Hall.
    { intros j Hj.
      pose proof (big_mask_lookup datas N (Z.of_nat j) Hvalid Hasc ltac:(lia))
        as Hbig.
      pose proof (little_mask_lookup datas N (Z.of_nat j) Hvalid Hasc ltac:(lia))
        as Hlittle.
      fold bigP in Hbig. fold litP in Hlittle.
      rewrite Nat2Z.id in Hbig. revert Hbig Hlittle. rewrite Hnil. by cbn. }
    rewrite (Hclear B), (Hclear (byte_reversed L)).
    + rewrite Hnil. reflexivity.
    + intros j b Hj. pose proof (lookup_lt_Some _ _ _ Hj) as Hlt.
      rewrite (length_byte_reversed L (length buf)) in Hlt by lia.
      rewrite (byte_reversed_lookup_nat L (length buf) j) in Hj by lia.
      destruct (Hall j ltac:(lia)) as [_ Hmask].
      rewrite Hlen, (HLpad _ Hmask) in Hj. congruence.
    + intros j b Hj. pose proof (lookup_lt_Some _ _ _ Hj) as Hlt.
      destruct (Hall j ltac:(lia)) as [Hmask _].
      rewrite (HBpad _ Hmask) in Hj. congruence.
  - exact (encode_data_merged datas N Hvalid Hasc out false U B L Hne HU HB HL).
Qed.

End DecodeEncode.

(** * How encoding and decoding fail *)

Section Failures.

Import Utils Spec Props.

(** The big-endian program describes at least the bits from its cursor
    to the frame width. *)
Lemma big_program_min_bits datas W :
  Forall (fun d => 0 <= Data.length d) datas ->
  forall c,
    (Z.to_nat (W - c)
     <= length (mask_bits (render <$> big_program datas c W)))%nat.
Proof.
  induction 1 as [|d datas Hd _ IH]; intros c.
  - cbn [big_program]. destruct (c <? W) eqn:Hc; [|cbn; lia].
    rewrite mask_bits_padding, length_replicate. lia.
  - cbn [big_program]. destruct (is_big d); [|apply IH].
    rewrite fmap_app, mask_bits_app, fmap_cons, mask_bits_cons, !length_app.
    rewrite length_mask_field.
    specialize (IH (msb_position d + Data.length d)).
    destruct (c <? msb_position d) eqn:Hc.
    + rewrite mask_bits_padding, length_replicate. lia.
    + cbn [fmap list_fmap mask_bits mjoin length]. lia.
Qed.

Lemma decode_short_buffer datas N buf decode_choices scaling :
  Forall well_formed datas -> Z.of_nat (length buf) < N ->
  decode_data buf datas (formats_of datas N) decode_choices scaling
  = Raise BitstructError.
Proof.
  intros Hwf Hlen. unfold decode_data, Bitstruct.unpack.
  cbn [formats_of big_endian Bitstruct.infos].
  rewrite (number_of_bits_program _ (big_program_positive datas (8 * N) Hwf 0)).
  pose proof (big_program_min_bits datas (8 * N)
                ltac:(eapply Forall_impl; [exact Hwf|]; intros d [_ ?]; cbn; lia) 0)
    as Hbits.
  pose proof (length_bits_of_bytes buf) as HX.
  assert ((Z.of_nat (length (bits_of_bytes buf))
           <? Z.of_nat (length (mask_bits (render <$> big_program datas 0 (8 * N)))))
          = true) as -> by (apply Z.ltb_lt; lia).
  reflexivity.
Qed.

(** The first field that fails to encode decides the outcome. *)
Lemma comprehension_raise {A : Type} (f : Data.t -> result A) pre d post e :
  (forall x, x ∈ pre -> exists r, f x = Ok r) -> f d = Raise e ->
  forall acc, comprehension f (pre ++ d :: post) acc = Raise e.
Proof.
  intros Hpre Hd. induction pre as [|x pre IH]; intros acc.
  - cbn. by rewrite Hd.
  - cbn. destruct (Hpre x ltac:(by left)) as [r ->]. cbn [mbind result_bind].
    apply IH. intros y Hy. apply Hpre. by right.
Qed.

Lemma encode_data_missing data pre d post formats scaling :
  (forall x, x ∈ pre -> exists r, _encode_field x data scaling = Ok r) ->
  data !! Data.name d = None ->
  encode_data data (pre ++ d :: post) formats scaling
  = Raise (KeyError (VStr (Data.name d))).
Proof.
  intros Hpre Hd. unfold encode_data.
  assert ((length (pre ++ d :: post) =? 0)%nat = false) as ->
    by (rewrite length_app; cbn; apply Nat.eqb_neq; lia).
  rewrite (comprehension_raise _ pre d post (KeyError (VStr (Data.name d))));
    [done|done|].
  unfold _encode_field, getitem. by rewrite Hd.
Qed.

(** Packing integer fields fails with bitstruct's error only, and does
    so when a value does not fit its field. *)
Lemma pack_value_integer w k n v :
  k <> Float ->
  (fits_kind w k v
   /\ exists s, Bitstruct.pack_value
                  (Bitstruct.mk_info (kind_char k) w (Some n)) v = Ok s)
  \/ (~ fits_kind w k v
      /\ Bitstruct.pack_value (Bitstruct.mk_info (kind_char k) w (Some n)) v
         = Raise BitstructError).
Proof.
  intros Hk. unfold Bitstruct.pack_value.
  cbn [Bitstruct.type_ Bitstruct.size].
  destruct k; [| |done]; cbn [kind_char Ascii.eqb Bool.eqb fits_kind].
  - destruct ((0 <=? v) && (v <? 2 ^ w)) eqn:Hfit.
    + left. apply andb_true_iff in Hfit. split; [lia|by eexists].
    + right. apply andb_false_iff in Hfit. split; [lia|done].
  - destruct ((- 2 ^ (w - 1) <=? v) && (v <? 2 ^ (w - 1))) eqn:Hfit.
    + left. apply andb_true_iff in Hfit. split; [lia|by eexists].
    + right. apply andb_false_iff in Hfit. split; [lia|done].
Qed.

Lemma pack_bits_integer prog U :
  Forall integer_kind prog ->
  (exists B, Bitstruct.pack_bits (info_of <$> prog) U = Ok B)
  \/ Bitstruct.pack_bits (info_of <$> prog) U = Raise BitstructError.
Proof.
  induction 1 as [|i prog Hi _ IH]; [left; by eexists|].
  rewrite fmap_cons. cbn [Bitstruct.pack_bits].
  destruct i as [w|w k n]; cbn [info_of Bitstruct.name Bitstruct.size].
  - cbn [mbind result_bind]. destruct IH as [[B ->]| ->]; [left|right]; [by eexists|done].
  - destruct (U !! n) as [v|]; [|by right].
    destruct (pack_value_integer w k n v ltac:(by destruct k))
      as [[_ [s ->]]|[_ ->]]; [|by right].
    cbn [mbind result_bind].
    destruct IH as [[B ->]| ->]; [left|right]; [by eexists|done].
Qed.

Lemma pack_bits_overflow prog U w k n v :
  Forall integer_kind prog ->
  Field w k n ∈ prog -> U !! n = Some v -> ~ fits_kind w k v ->
  Bitstruct.pack_bits (info_of <$> prog) U = Raise BitstructError.
Proof.
  intros Hint Hin HU Hfit. induction Hint as [|i prog Hi Hint IH].
  - by apply elem_of_nil in Hin.
  - rewrite fmap_cons. cbn [Bitstruct.pack_bits].
    apply elem_of_cons in Hin as [<-|Hin].
    + cbn [info_of Bitstruct.name Bitstruct.size]. rewrite HU.
      by destruct (pack_value_integer w k n v ltac:(by destruct k))
        as [[? _]|[_ ->]].
    + specialize (IH Hin).
      destruct i as [w'|w' k' n']; cbn [info_of Bitstruct.name Bitstruct.size].
      * cbn [mbind result_bind]. by rewrite IH.
      * destruct (U !! n') as [v'|]; [|done].
        destruct (pack_value_integer w' k' n' v' ltac:(by destruct k'))
          as [[_ [s ->]]|[_ ->]]; [|done].
        cbn [mbind result_bind]. by rewrite IH.
Qed.

Lemma big_program_has_field datas W d :
  d ∈ datas -> is_big d = true ->
  forall c, Field (Data.length d) (kind_of d) (Data.name d)
            ∈ big_program datas c W.
Proof.
  induction datas as [|x datas IH]; intros Hd Hbig c.
  - by apply elem_of_nil in Hd.
  - cbn [big_program]. apply elem_of_cons in Hd as [<-|Hd].
    + rewrite Hbig. apply elem_of_app. right. by left.
    + destruct (is_big x); [|by apply IH].
      apply elem_of_app. right. right. by apply IH.
Qed.

Lemma little_walk_has_field fields d :
  d ∈ fields -> is_little d = true ->
  forall c, Field (Data.length d) (kind_of d) (Data.name d)
            ∈ little_walk fields c.
Proof.
  induction fields as [|x fields IH]; intros Hd Hlittle c.
  - by apply elem_of_nil in Hd.
  - cbn [little_walk]. apply elem_of_cons in Hd as [<-|Hd].
    + rewrite Hlittle. apply elem_of_app. right. by left.
    + destruct (is_little x); [|by apply IH].
      apply elem_of_app. right. right. by apply IH.
Qed.

Lemma encode_data_overflow datas N data d v :
  Forall well_formed datas ->
  NoDup (Data.name <$> datas) ->
  Forall (fun x => Data.is_float x = false) datas ->
  (forall x, x ∈ datas -> exists u, data !! Data.name x = Some (VInt u)) ->
  d ∈ datas -> data !! Data.name d = Some (VInt v) -> ~ fits d v ->
  encode_data data datas (formats_of datas N) false = Raise BitstructError.
Proof.
  intros Hwf Hnames Hfloat Hall Hd Hv Hfit.
  set (g := fun x : Data.t =>
              match data !! Data.name x with
              | Some (VInt u) => u
              | _ => 0
              end).
  destruct (comprehension_lookup
              (fun field => _encode_field field data false) g datas) with
    (acc := (∅ : gmap string Z)) as (U & HU & Hlookup & _).
  { intros x Hx. destruct (Hall x Hx) as [u Hu].
    unfold _encode_field, getitem. subst g. cbn beta. by rewrite Hu. }
  { exact Hnames. }
  assert (U !! Data.name d = Some v) as HUd.
  { rewrite (Hlookup d Hd). subst g. cbn beta. by rewrite Hv. }
  assert (~ fits_kind (Data.length d) (kind_of d) v) as Hfit'.
  { intros H. apply Hfit. apply fits_kind_of; [|done].
    rewrite Forall_forall in Hfloat. by apply Hfloat. }
  unfold encode_data.
  assert ((length datas =? 0)%nat = false) as ->
    by (destruct datas; [by apply elem_of_nil in Hd|done]).
  rewrite HU. cbn [mbind result_bind]. unfold Bitstruct.pack.
  cbn [formats_of big_endian little_endian Bitstruct.infos].
  rewrite Forall_forall in Hwf. destruct (Hwf d Hd) as [Hrec _].
  destruct (field_is_big_or_little d Hrec) as [Hbig|Hlittle].
  - rewrite (pack_bits_overflow _ U _ _ _ v
               (big_program_integer_kinds datas 0 (8 * N) Hfloat)
               (big_program_has_field datas (8 * N) d Hd Hbig 0) HUd Hfit').
    reflexivity.
  - destruct (pack_bits_integer (big_program datas 0 (8 * N)) U
                (big_program_integer_kinds datas 0 (8 * N) Hfloat))
      as [[B ->]| ->]; [|reflexivity].
    cbn [mbind result_bind].
    rewrite (pack_bits_overflow _ U _ _ _ v
               (little_program_integer_kinds datas (8 * N) Hfloat)
               (little_walk_has_field (reverse datas) d
                  ltac:(by apply elem_of_reverse) Hlittle (8 * N)) HUd Hfit').
    reflexivity.
Qed.

End Failures.

Section FieldInverse.

Import Utils Spec Props.

Lemma encode_decoded_field field raw data :
  Data.is_float field = false -> Data.scale field <> 0 ->
  Z.abs (Data.scale field * raw) < 10 ^ 27 ->
  data !! Data.name field
    = Some (VInt (Data.scale field * raw + Data.offset field)) ->
  _decode_field field raw false true
    = Ok (VInt (Data.scale field * raw + Data.offset field))
  /\ _encode_field field data true = Ok raw.
Proof.
  intros Hfloat Hscale Hprec Hdata. split; [done|].
  unfold _encode_field, getitem. rewrite Hdata. cbn [mbind result_bind].
  rewrite Hfloat.
  destruct (encode_integer_nearest
              (Data.scale field * raw + Data.offset field)
              (Data.offset field) (Data.scale field) Hscale)
    as (raw' & Henc & Hnear).
  { by replace (Data.scale field * raw + Data.offset field - Data.offset field)
      with (Data.scale field * raw) by lia. }
  rewrite Henc. f_equal.
  apply (nearest_half_even_unique_nonzero
           (Data.scale field * raw + Data.offset field - Data.offset field)
           (Data.scale field)); [done|done|].
  split.
  - replace (Data.scale field * raw + Data.offset field - Data.offset field
             - raw * Data.scale field) with 0 by lia.
    cbn. lia.
  - replace (Data.scale field * raw + Data.offset field - Data.offset field
             - raw * Data.scale field) with 0 by lia.
    cbn. lia.
Qed.

End FieldInverse.

(** * The layouts of fields of any byte order and width *)

Section Layouts.

Import Utils Spec Props.

Lemma eqb_little d :
  String.eqb (Data.byte_order d) "little_endian"
  = bool_decide (~ in_big_layout d).
Proof.
  unfold in_big_layout.
  destruct (String.eqb_spec (Data.byte_order d) "little_endian") as [E|E].
  - symmetry. apply bool_decide_eq_true. by intros H.
  - symmetry. by apply bool_decide_eq_false; intros H.
Qed.

Lemma eqb_big d :
  String.eqb (Data.byte_order d) "big_endian"
  = bool_decide (~ in_little_layout d).
Proof.
  unfold in_little_layout.
  destruct (String.eqb_spec (Data.byte_order d) "big_endian") as [E|E].
  - symmetry. apply bool_decide_eq_true. by intros H.
  - symmetry. by apply bool_decide_eq_false; intros H.
Qed.

Lemma create_big_step_skip st d :
  ~ in_big_layout d -> create_big_step st d = st.
Proof.
  intros Hd. destruct st as [items c]. unfold create_big_step.
  rewrite eqb_little. by rewrite bool_decide_eq_true_2.
Qed.

Lemma create_little_step_skip st d :
  ~ in_little_layout d -> create_little_step st d = st.
Proof.
  intros Hd. destruct st as [items c]. unfold create_little_step.
  rewrite eqb_big. by rewrite bool_decide_eq_true_2.
Qed.

Lemma fold_big_filter datas :
  forall st, fold_left create_big_step datas st
             = fold_left create_big_step (filter in_big_layout datas) st.
Proof.
  induction datas as [|d datas IH]; intros st; [done|].
  rewrite filter_cons. cbn [fold_left].
  destruct (decide (in_big_layout d)) as [Hd|Hd].
  - cbn [fold_left]. apply IH.
  - rewrite (create_big_step_skip st d Hd). apply IH.
Qed.

Lemma fold_little_filter datas :
  forall st, fold_left create_little_step datas st
             = fold_left create_little_step (filter in_little_layout datas) st.
Proof.
  induction datas as [|d datas IH]; intros st; [done|].
  rewrite filter_cons. cbn [fold_left].
  destruct (decide (in_little_layout d)) as [Hd|Hd].
  - cbn [fold_left]. apply IH.
  - rewrite (create_little_step_skip st d Hd). apply IH.
Qed.

Lemma names_app items items' : names (items ++ items') = names items ++ names items'.
Proof. unfold names. apply omap_app. Qed.

Lemma built_item_mono datas datas' i :
  datas ⊆ datas' -> built_item datas i -> built_item datas' i.
Proof.
  intros Hsub [Hp|(d & Hd & ->)]; [by left|right]. exists d. split; [|done].
  by apply Hsub.
Qed.

(** What the loop of [create_big] appends. *)
Lemma create_big_fold_items datas :
  forall items c,
  exists added c',
    fold_left create_big_step datas (items, c) = (items ++ added, c')
    /\ Forall (built_item datas) added
    /\ names added = Data.name <$> filter in_big_layout datas
    /\ (forall d, d ∈ datas -> in_big_layout d -> data_item d ∈ added).
Proof.
  induction datas as [|d datas IH]; intros items c.
  - exists [], c. rewrite app_nil_r. repeat split; [constructor|].
    by intros d ?%elem_of_nil.
  - cbn [fold_left]. rewrite filter_cons.
    destruct (decide (in_big_layout d)) as [Hd|Hd].
    + unfold create_big_step at 2. rewrite eqb_little.
      rewrite bool_decide_eq_false_2 by (by intros H).
      set (pad := if 0 <? start_bit d - c
                  then [padding_item (start_bit d - c)] else []).
      assert ((if 0 <? start_bit d - c
               then items ++ [padding_item (start_bit d - c)] else items)
              = items ++ pad) as ->.
      { subst pad. destruct (0 <? start_bit d - c); [done|by rewrite app_nil_r]. }
      destruct (IH ((items ++ pad) ++ [data_item d])
                  (start_bit d + Data.length d))
        as (added & c' & Hfold & Hbuilt & Hnames & Hin).
      exists (pad ++ data_item d :: added), c'. split; [|split; [|split]].
      * rewrite Hfold. f_equal. by rewrite <- !app_assoc.
      * apply Forall_app. split.
        -- subst pad. destruct (0 <? start_bit d - c) eqn:Hpad; [|constructor].
           constructor; [|constructor]. left. eexists. split; [|done]. lia.
        -- constructor.
           ++ right. exists d. split; [by left|done].
           ++ eapply Forall_impl; [exact Hbuilt|]. intros i.
              apply built_item_mono. intros x Hx. by right.
      * rewrite names_app. cbn [names omap list_omap data_item item_name].
        fold (names added). rewrite Hnames, fmap_cons.
        subst pad. by destruct (0 <? start_bit d - c).
      * intros x [->|Hx]%elem_of_cons Hbig.
        -- apply elem_of_app. right. by left.
        -- apply elem_of_app. right. right. by apply Hin.
    + rewrite (create_big_step_skip _ d Hd).
      destruct (IH items c) as (added & c' & Hfold & Hbuilt & Hnames & Hin).
      exists added, c'. repeat split; [done| |done|].
      * eapply Forall_impl; [exact Hbuilt|]. intros i.
        apply built_item_mono. intros x Hx. by right.
      * intros x [->|Hx]%elem_of_cons Hbig; [done|]. by apply Hin.
Qed.

(** What the loop of [create_little] appends. *)
Lemma create_little_fold_items fields :
  forall items e,
  exists added e',
    fold_left create_little_step fields (items, e) = (items ++ added, e')
    /\ Forall (built_item fields) added
    /\ names added = Data.name <$> filter in_little_layout fields
    /\ (forall d, d ∈ fields -> in_little_layout d -> data_item d ∈ added)
    /\ (added = [] /\ e' = e
        \/ Exists (fun i => exists d, d ∈ fields /\ i = data_item d) added).
Proof.
  induction fields as [|d fields IH]; intros items e.
  - exists [], e. rewrite app_nil_r. repeat split; [constructor| |by left].
    by intros d ?%elem_of_nil.
  - cbn [fold_left]. rewrite filter_cons.
    destruct (decide (in_little_layout d)) as [Hd|Hd].
    + unfold create_little_step at 2. rewrite eqb_big.
      rewrite bool_decide_eq_false_2 by (by intros H).
      set (gap := e - (Data.start d + Data.length d)).
      set (pad := if 0 <? gap then [padding_item gap] else []).
      assert ((if 0 <? gap then items ++ [padding_item gap] else items)
              = items ++ pad) as ->.
      { subst pad. destruct (0 <? gap); [done|by rewrite app_nil_r]. }
      destruct (IH ((items ++ pad) ++ [data_item d]) (Data.start d))
        as (added & e' & Hfold & Hbuilt & Hnames & Hin & _).
      exists (pad ++ data_item d :: added), e'.
      split; [|split; [|split; [|split]]].
      * rewrite Hfold. f_equal. by rewrite <- !app_assoc.
      * apply Forall_app. split.
        -- subst pad. destruct (0 <? gap) eqn:Hpad; [|constructor].
           constructor; [|constructor]. left. eexists. split; [|done]. lia.
        -- constructor.
           ++ right. exists d. split; [by left|done].
           ++ eapply Forall_impl; [exact Hbuilt|]. intros i.
              apply built_item_mono. intros x Hx. by right.
      * rewrite names_app. cbn [names omap list_omap data_item item_name].
        fold (names added). rewrite Hnames, fmap_cons.
        subst pad. by destruct (0 <? gap).
      * intros x [->|Hx]%elem_of_cons Hbig.
        -- apply elem_of_app. right. by left.
        -- apply elem_of_app. right. right. by apply Hin.
      * right. apply Exists_app. right. apply Exists_cons_hd.
        exists d. split; [by left|done].
    + rewrite (create_little_step_skip _ d Hd).
      destruct (IH items e) as (added & e' & Hfold & Hbuilt & Hnames & Hin & Hne).
      exists added, e'. repeat split; [done| |done| |].
      * eapply Forall_impl; [exact Hbuilt|]. intros i.
        apply built_item_mono. intros x Hx. by right.
      * intros x [->|Hx]%elem_of_cons Hbig; [done|]. by apply Hin.
      * destruct Hne as [?|Hex]; [by left|right].
        eapply Exists_impl; [exact Hex|].
        intros i (x & Hx & ->). exists x. split; [by right|done].
Qed.

Lemma create_big_items_built datas W :
  Forall (built_item datas) (create_big_items datas W)
  /\ names (create_big_items datas W)
     = Data.name <$> filter in_big_layout datas
  /\ (forall d, d ∈ datas -> in_big_layout d ->
        data_item d ∈ create_big_items datas W).
Proof.
  unfold create_big_items.
  destruct (create_big_fold_items datas [] 0)
    as (added & c' & -> & Hbuilt & Hnames & Hin).
  cbn [app]. destruct (c' <? W) eqn:Hc; [|done].
  split; [|split].
  - apply Forall_app. split; [done|]. constructor; [|constructor].
    left. eexists. split; [|done]. lia.
  - rewrite names_app. cbn. by rewrite app_nil_r.
  - intros d Hd Hbig. apply elem_of_app. left. by apply Hin.
Qed.

Lemma create_little_items_built datas W :
  Forall (built_item datas) (create_little_items datas W)
  /\ names (create_little_items datas W)
     = Data.name <$> reverse (filter in_little_layout datas)
  /\ (forall d, d ∈ datas -> in_little_layout d ->
        data_item d ∈ create_little_items datas W)
  /\ (0 < W -> create_little_items datas W <> []).
Proof.
  unfold create_little_items.
  destruct (create_little_fold_items (reverse datas) [] W)
    as (added & e' & -> & Hbuilt & Hnames & Hin & Hne).
  cbn [app]. rewrite filter_reverse in Hnames.
  assert (Forall (built_item datas) added) as Hbuilt'.
  { eapply Forall_impl; [exact Hbuilt|]. intros i.
    apply built_item_mono. intros x Hx. by apply elem_of_reverse. }
  assert (forall d, d ∈ datas -> in_little_layout d -> data_item d ∈ added)
    as Hin'.
  { intros d Hd. apply Hin. by apply elem_of_reverse. }
  destruct (0 <? e') eqn:He.
  - split; [|split; [|split]].
    + apply Forall_app. split; [done|]. constructor; [|constructor].
      left. eexists. split; [|done]. lia.
    + rewrite names_app. cbn. by rewrite app_nil_r.
    + intros d Hd Hl. apply elem_of_app. left. by apply Hin'.
    + intros _. by destruct added.
  - repeat split; [done|done|done|].
    intros HW. destruct Hne as [[_ ->]|Hex]; [lia|].
    intros ->. by apply Exists_nil in Hex.
Qed.

(** Compiling a layout: it is refused when an item is not at least one
    bit wide, and only then. *)
Lemma parse_built_format datas items :
  Forall (built_item datas) items ->
  (Forall (fun i => 0 < item_width i) items
   /\ exists infos,
        Bitstruct.parse_format (fmt items) (names items) = Ok infos)
  \/ (Exists (fun i => item_width i <= 0) items
      /\ Bitstruct.parse_format (fmt items) (names items)
         = Raise BitstructError).
Proof.
  induction 1 as [|i items Hi _ IH].
  - left. split; [constructor|]. by eexists.
  - unfold fmt, names. rewrite fmap_cons. cbn [omap list_omap].
    fold (fmt items). fold (names items).
    destruct Hi as [(w & Hw & ->)|(d & Hd & ->)].
    + cbn [padding_item item_fmt item_name Bitstruct.parse_format].
      assert ((w <=? 0) = false) as -> by lia. cbn [Bitstruct.is_padding].
      cbn [Ascii.eqb Bool.eqb andb].
      destruct IH as [[Hpos [infos ->]]|[Hbad ->]].
      * left. split; [constructor; [cbn; lia|done]|]. by eexists.
      * right. split; [by apply Exists_cons_tl|done].
    + cbn [data_item item_fmt item_name Bitstruct.parse_format].
      destruct (Data.length d <=? 0) eqn:Hlen.
      { right. split; [apply Exists_cons_hd; cbn; lia|done]. }
      assert (Bitstruct.is_padding (get_format_string_type d) = false
              /\ Bitstruct.is_value (get_format_string_type d) = true)
        as [-> ->].
      { unfold get_format_string_type.
        by destruct (Data.is_float d), (Data.is_signed d). }
      destruct IH as [[Hpos [infos ->]]|[Hbad ->]].
      * left. split; [constructor; [cbn; lia|done]|]. by eexists.
      * right. split; [by apply Exists_cons_tl|done].
Qed.

Lemma built_mask_nonempty datas items :
  Forall (built_item datas) items ->
  Forall (fun i => 0 < item_width i) items ->
  items <> [] -> mask_bits items <> [].
Proof.
  intros Hbuilt Hpos Hne. destruct items as [|i items]; [done|].
  apply Forall_cons in Hbuilt as [Hi _]. apply Forall_cons in Hpos as [Hw _].
  rewrite mask_bits_cons.
  destruct Hi as [(w & _ & ->)|(d & _ & ->)]; cbn in Hw |- *.
  - destruct (Z.to_nat w) eqn:E; [lia|done].
  - destruct (Z.to_nat (Data.length d)) eqn:E; [lia|done].
Qed.

(** [create_little] fails with bitstruct's error only. *)
Lemma create_little_outcome datas W :
  (exists value,
     create_little datas W
     = Ok (fmt (create_little_items datas W), value,
           names (create_little_items datas W)))
  \/ (create_little datas W = Raise BitstructError
      /\ Exists (fun i => item_width i <= 0) (create_little_items datas W)).
Proof.
  destruct (create_little_items_built datas W) as (Hbuilt & _ & _ & Hne).
  unfold create_little. set (items := create_little_items datas W) in *.
  destruct (0 <? W) eqn:HW; [|left; by eexists].
  destruct (parse_built_format datas items Hbuilt) as [[Hpos _]|[Hbad _]].
  - left.
    pose proof (built_mask_nonempty datas items Hbuilt Hpos
                  (Hne ltac:(lia))) as Hmask.
    rewrite items_padding_mask_uint, pack_unsigned_mask by done.
    destruct (length_pad_to_byte (mask_bits items)) as (n & Hn & Hle).
    assert (0 < n)%nat by (destruct (mask_bits items); [done|simpl in Hle; lia]).
    cbn [mbind result_bind]. rewrite int_hexlify_nonempty; [by eexists|].
    intros Hnil. apply (f_equal reverse) in Hnil.
    rewrite reverse_involutive in Hnil.
    by apply (bytes_of_bits_nonempty _ n Hn).
  - destruct (mask_bits items) as [|b s] eqn:Hmask.
    + right. split; [|done]. reflexivity.
    + left. rewrite items_padding_mask_uint, Hmask.
      rewrite pack_unsigned_mask by done.
      destruct (length_pad_to_byte (b :: s)) as (n & Hn & Hle).
      assert (0 < n)%nat by (simpl in Hle; lia).
      cbn [mbind result_bind]. rewrite int_hexlify_nonempty; [by eexists|].
      intros Hnil. apply (f_equal reverse) in Hnil.
      rewrite reverse_involutive in Hnil.
      by apply (bytes_of_bits_nonempty _ n Hn).
Qed.

Lemma built_widths datas items :
  Forall (built_item datas) items ->
  Forall (fun d => 0 < Data.length d) datas ->
  Forall (fun i => 0 < item_width i) items.
Proof.
  intros Hbuilt Hpos. rewrite Forall_forall in Hpos.
  eapply Forall_impl; [exact Hbuilt|].
  intros i [(w & Hw & ->)|(d & Hd & ->)]; [done|]. by apply Hpos.
Qed.

Lemma formats_widths datas N :
  (Forall (fun d => 0 < Data.length d) datas ->
   exists formats, create_encode_decode_formats datas N = Ok formats)
  /\ (Exists (fun d => Data.length d <= 0) datas ->
      create_encode_decode_formats datas N = Raise BitstructError).
Proof.
  destruct (create_big_items_built datas (8 * N)) as (Hbbuilt & _ & Hbin).
  destruct (create_little_items_built datas (8 * N)) as (Hlbuilt & _ & Hlin & _).
  unfold create_encode_decode_formats, create_big, Bitstruct.compile. split.
  - intros Hpos.
    pose proof (built_widths _ _ Hbbuilt Hpos) as Hbw.
    pose proof (built_widths _ _ Hlbuilt Hpos) as Hlw.
    destruct (create_little_outcome datas (8 * N)) as [[value ->]|[_ Hbad]].
    2: { apply Exists_exists in Hbad as (i & Hi & Hbad).
         rewrite Forall_forall in Hlw. specialize (Hlw i Hi). lia. }
    cbn [mbind result_bind].
    destruct (parse_built_format datas _ Hbbuilt) as [[_ [bi ->]]|[Hbad _]].
    2: { apply Exists_exists in Hbad as (i & Hi & Hbad).
         rewrite Forall_forall in Hbw. specialize (Hbw i Hi). lia. }
    destruct (parse_built_format datas _ Hlbuilt) as [[_ [li ->]]|[Hbad _]].
    2: { apply Exists_exists in Hbad as (i & Hi & Hbad).
         rewrite Forall_forall in Hlw. specialize (Hlw i Hi). lia. }
    by eexists.
  - intros (d & Hd & Hlen)%Exists_exists.
    destruct (create_little_outcome datas (8 * N)) as [[value ->]|[-> _]];
      [|done].
    cbn [mbind result_bind].
    destruct (parse_built_format datas _ Hbbuilt) as [[Hbpos [bi ->]]|[_ ->]];
      [|done].
    cbn [fmap result_fmap mbind result_bind].
    destruct (parse_built_format datas _ Hlbuilt) as [[Hlpos [li ->]]|[_ ->]];
      [|done].
    exfalso. rewrite Forall_forall in Hbpos, Hlpos.
    destruct (decide (in_big_layout d)) as [Hbig|Hbig].
    + specialize (Hbpos _ (Hbin d Hd Hbig)). cbn in Hbpos. lia.
    + assert (in_little_layout d) as Hlittle.
      { unfold in_big_layout, in_little_layout in *.
        apply dec_stable in Hbig. rewrite Hbig. done. }
      specialize (Hlpos _ (Hlin d Hd Hlittle)). cbn in Hlpos. lia.
Qed.

Lemma layouts_by_byte_order datas W :
  create_big datas W = create_big (filter in_big_layout datas) W
  /\ create_little datas W = create_little (filter in_little_layout datas) W
  /\ (create_big datas W).2 = Data.name <$> filter in_big_layout datas
  /\ names (create_little_items datas W)
     = Data.name <$> reverse (filter in_little_layout datas).
Proof.
  split; [|split; [|split]].
  - unfold create_big, create_big_items. by rewrite fold_big_filter.
  - unfold create_little, create_little_items.
    by rewrite fold_little_filter, filter_reverse.
  - unfold create_big. cbn [snd].
    by destruct (create_big_items_built datas W) as (_ & -> & _).
  - by destruct (create_little_items_built datas W) as (_ & -> & _).
Qed.

End Layouts.

(** * Formatting lists, and converting descriptors *)

Section Formatting.

Import Utils Spec Props.

Lemma last_snoc_item {A : Type} (l : list A) (x : A) : last_item (l ++ [x]) = Ok x.
Proof. unfold last_item. by rewrite last_snoc. Qed.

Lemma format_list_shape (word : string) (init : list value) (last : value) :
  init <> [] ->
  (let items := str <$> (init ++ [last]) in
   if (length items =? 1)%nat then first_item items
   else
     let head := join ", " (take (length items - 1) items) in
     last ← last_item items;
     Ok (head +:+ word +:+ last))
  = Ok (join ", " (str <$> init) +:+ word +:+ str last).
Proof.
  intros Hne. cbn zeta. rewrite fmap_app, length_app, length_fmap.
  cbn [fmap list_fmap length].
  assert ((length init + 1 =? 1)%nat = false) as ->
    by (destruct init; [done|cbn; apply Nat.eqb_neq; lia]).
  rewrite last_snoc_item. cbn [mbind result_bind].
  replace (length init + 1 - 1)%nat with (length (str <$> init))
    by (rewrite length_fmap; lia).
  by rewrite take_app_length.
Qed.

Lemma format_or_shape (init : list value) (last : value) :
  format_or [] = Raise IndexError
  /\ format_or [last] = Ok (str last)
  /\ (init <> [] ->
      format_or (init ++ [last])
      = Ok (join ", " (str <$> init) +:+ " or " +:+ str last)).
Proof. repeat split. apply format_list_shape. Qed.

Lemma format_and_shape (init : list value) (last : value) :
  format_and [] = Raise IndexError
  /\ format_and [last] = Ok (str last)
  /\ (init <> [] ->
      format_and (init ++ [last])
      = Ok (join ", " (str <$> init) +:+ " and " +:+ str last)).
Proof. repeat split. apply format_list_shape. Qed.

End Formatting.

Section Conversion.

Import Utils Spec Props.

Lemma cdd_to_dbc_data_positions cdd_data :
  is_big cdd_data = true
  \/ (is_little cdd_data = true /\ 1 <= Data.length cdd_data
      /\ Data.start cdd_data / 8
         = (Data.start cdd_data + Data.length cdd_data - 1) / 8) ->
  exists dbc_data,
    cdd_to_dbc_data cdd_data = Ok dbc_data
    /\ Data.name dbc_data = Data.name cdd_data
    /\ Data.length dbc_data = Data.length cdd_data
    /\ Data.byte_order dbc_data = Data.byte_order cdd_data
    /\ forall q, claims dbc_data q = true
                 <-> Data.start cdd_data <= q
                     < Data.start cdd_data + Data.length cdd_data.
Proof.
  intros Horder. unfold cdd_to_dbc_data, cdd_to_dbc_start_bit.
  destruct Horder as [Hbig|(Hlittle & Hlen & Hbyte)].
  - pose proof Hbig as Hbig'. unfold is_big in Hbig'. rewrite Hbig'.
    cbn [mbind result_bind]. eexists. split; [done|]. repeat (split; [done|]).
    intros q. rewrite claims_big_iff by done.
    rewrite start_bit_big by done. unfold msb_position. cbn [Data.start Data.length].
    rewrite saw_tooth_div8, saw_tooth_mod8.
    pose proof (Z.div_mod (Data.start cdd_data) 8 ltac:(lia)). lia.
  - pose proof (big_not_little cdd_data) as Hnb.
    destruct (is_big cdd_data) eqn:Hbig; [by rewrite Hnb in Hlittle|].
    pose proof Hbig as Hbig'. pose proof Hlittle as Hlittle'.
    unfold is_big in Hbig'. unfold is_little in Hlittle'.
    rewrite Hbig', Hlittle'. cbn [mbind result_bind].
    eexists. split; [done|]. repeat (split; [done|]).
    intros q. rewrite claims_little_iff by done. cbn [Data.start Data.length].
    set (s := Data.start cdd_data) in *. set (l := Data.length cdd_data) in *.
    unfold linear_to_saw_tooth_bitnum. cbn zeta.
    pose proof (Z.div_mod s 8 ltac:(lia)).
    pose proof (Z.mod_pos_bound s 8 ltac:(lia)).
    pose proof (Z.div_mod (s + l - 1) 8 ltac:(lia)).
    pose proof (Z.mod_pos_bound (s + l - 1) 8 ltac:(lia)).
    pose proof (Z.div_mod q 8 ltac:(lia)).
    pose proof (Z.mod_pos_bound q 8 ltac:(lia)).
    lia.
Qed.

End Conversion.

(** * The CDD loader *)

Section LoaderProperties.

Import Utils Spec Props.

Context {Element : Type} {tree : ElementTree.Interface Element} {F : Type}.
Variables (int : string -> result Z) (float : string -> result F).

Lemma loading_bind_loaded {A B : Type} (r : Cdd.loading A)
    (k : A -> Cdd.loading B) (b : B) :
  r ≫= k = Cdd.Loaded b -> exists a, r = Cdd.Loaded a /\ k a = Cdd.Loaded b.
Proof. destruct r as [a|f]; [|discriminate]. intros H. by exists a. Qed.

Lemma lift_loaded {A : Type} (r : result A) (a : A) :
  Cdd.lift r = Cdd.Loaded a -> r = Ok a.
Proof. destruct r; [|discriminate]. by intros [= ->]. Qed.

Lemma getattr_loaded {A B : Type} (x : option A) attribute (get : A -> B) b :
  Cdd.getattr x attribute get = Cdd.Loaded b -> exists a, x = Some a /\ get a = b.
Proof. destruct x as [a|]; [|discriminate]. intros [= <-]. by exists a. Qed.

Lemma attrib_getitem_loaded d key v :
  Cdd.attrib_getitem d key = Cdd.Loaded v -> Cdd.dict_get d key = Some v.
Proof.
  unfold Cdd.attrib_getitem. destruct (Cdd.dict_get d key); [|discriminate].
  by intros [= ->].
Qed.

(** What [_load_data_element] returns. *)
Lemma load_data_element_loaded data offset data_types (obj : Cdd.DataObject F) :
  Cdd._load_data_element data offset data_types = Cdd.Loaded obj ->
  exists dtref data_type,
    Cdd.dict_get (ElementTree.attrib data) "dtref" = Some dtref
    /\ data_types !! dtref = Some data_type
    /\ built_from data_type obj
    /\ Cdd.start_of_data_type (Cdd.dt_byte_order data_type) offset
         (Cdd.dt_bit_length data_type) = Ok (Cdd.start obj).
Proof.
  unfold Cdd._load_data_element. intros H.
  apply loading_bind_loaded in H as (dtref & Hdtref%attrib_getitem_loaded & H).
  apply loading_bind_loaded in H as (data_type & Htype%lift_loaded & H).
  apply loading_bind_loaded in H as (start & Hstart%lift_loaded & H).
  apply loading_bind_loaded in H as (name & Hname & H).
  injection H as <-. exists dtref, data_type. split; [done|]. split.
  - unfold getitem in Htype. destruct (data_types !! dtref); [|discriminate].
    by injection Htype as ->.
  - split; [by repeat split|done].
Qed.

(** The loop of [_load_did_element]. *)
Lemma load_data_objs_loaded data_types objs :
  forall offset datas offset' datas',
    Cdd.for_each (Cdd.load_data_obj data_types) objs (offset, datas)
    = Cdd.Loaded (offset', datas') ->
    exists new : list (Cdd.DataObject F),
      datas' = datas ++ new
      /\ back_to_back offset new offset'
      /\ Forall2 (fun obj data =>
                    exists dtref data_type,
                      Cdd.dict_get (ElementTree.attrib obj) "dtref" = Some dtref
                      /\ data_types !! dtref = Some data_type
                      /\ built_from data_type data) objs new.
Proof.
  induction objs as [|obj objs IH]; intros offset datas offset' datas' H.
  - injection H as <- <-. exists []. rewrite app_nil_r. by repeat split.
  - cbn [Cdd.for_each] in H.
    apply loading_bind_loaded in H as ([offset1 datas1] & Hstep & H).
    unfold Cdd.load_data_obj in Hstep.
    apply loading_bind_loaded in Hstep as (data & Hdata & Hstep).
    destruct (Cdd.length data) as [l|] eqn:Hl; [|discriminate].
    injection Hstep as <- <-.
    destruct (load_data_element_loaded _ _ _ _ Hdata)
      as (dtref & data_type & Hdtref & Htype & Hbuilt & Hstart).
    destruct (IH _ _ _ _ H) as (new & -> & Hback & Hall).
    exists (data :: new). split; [by rewrite <- app_assoc|]. split.
    + cbn [back_to_back]. exists l. split; [done|]. split; [|done].
      destruct Hbuilt as (Hlen & Hbo & _). rewrite Hbo.
      rewrite <- Hlen, Hl in Hstart. exact Hstart.
    + constructor; [|done]. by exists dtref, data_type.
Qed.

Lemma load_did_element_layout did data_types (loaded : Cdd.DidObject F) :
  Cdd._load_did_element int did data_types = Cdd.Loaded loaded ->
  exists end_,
    back_to_back 0 (Cdd.datas loaded) end_
    /\ Cdd.did_length loaded = (end_ + 7) / 8
    /\ Forall2 (fun obj data =>
                  exists dtref data_type,
                    Cdd.dict_get (ElementTree.attrib obj) "dtref" = Some dtref
                    /\ data_types !! dtref = Some data_type
                    /\ built_from data_type data)
         (ElementTree.findall did "SIMPLECOMPCONT/DATAOBJ"
          ++ ElementTree.findall did "SIMPLECOMPCONT/UNION/STRUCT/DATAOBJ")
         (Cdd.datas loaded).
Proof.
  unfold Cdd._load_did_element. intros H.
  apply loading_bind_loaded in H as ([offset datas] & Hloop & H).
  apply loading_bind_loaded in H as (static & _ & H).
  apply loading_bind_loaded in H as (v & _ & H).
  apply loading_bind_loaded in H as (identifier & _ & H).
  apply loading_bind_loaded in H as (name & _ & H).
  injection H as <-. cbn [Cdd.datas Cdd.did_length].
  destruct (load_data_objs_loaded _ _ _ _ _ _ Hloop) as (new & -> & Hback & Hall).
  exists offset. by repeat split.
Qed.

(** Big-endian fields laid back to back, in the codec's terms. *)
Lemma back_to_back_big (datas : list (Cdd.DataObject F)) :
  forall offset end_ ds,
    back_to_back offset datas end_ ->
    Forall (fun data => Cdd.byte_order data = "big_endian"%string
                        /\ exists l, Cdd.length data = Some l /\ 1 <= l) datas ->
    Forall2 describes datas ds ->
    offset <= end_
    /\ Forall well_formed ds
    /\ Forall (fun d => is_big d = true /\ offset <= start_bit d
                        /\ start_bit d + Data.length d <= end_) ds
    /\ ForallOrdPairs disjoint ds
    /\ ascending ds.
Proof.
  induction datas as [|data datas IH]; intros offset end_ ds Hback Hbig Hdesc.
  - apply Forall2_nil_inv_l in Hdesc as ->. cbn in Hback. subst end_.
    split; [lia|]. repeat split; constructor.
  - apply Forall2_cons_inv_l in Hdesc as (d & ds' & Hd & Hdesc & ->).
    apply Forall_cons in Hbig as [(Hbo & l' & Hl' & Hpos) Hbig].
    destruct Hback as (l & Hl & Hstart & Hback).
    rewrite Hl in Hl'. injection Hl' as <-.
    destruct Hd as (Hname & Hs & Hlen & Horder).
    rewrite Hl in Hlen. injection Hlen as Hlen.
    rewrite Hbo in Hstart, Horder.
    unfold Cdd.saw_tooth_start_from_linear_bitnum in Hstart.
    cbn [String.eqb Ascii.eqb Bool.eqb andb mbind result_bind] in Hstart.
    injection Hstart as Hstart.
    assert (is_big d = true) as Hdbig.
    { unfold is_big. rewrite <- Horder. reflexivity. }
    assert (start_bit d = offset) as Hsb.
    { rewrite (start_bit_big d Hdbig). unfold msb_position.
      rewrite <- Hs, <- Hstart.
      change Cdd.saw_tooth_from_linear_bitnum with linear_to_saw_tooth_bitnum.
      rewrite saw_tooth_div8, saw_tooth_mod8.
      pose proof (Z.div_mod offset 8 ltac:(lia)). lia. }
    destruct (IH (offset + l) end_ ds' Hback Hbig Hdesc)
      as (Hle & Hwf & Hin & Hdis & Hasc).
    split; [lia|]. split; [|split; [|split]].
    + constructor; [|done]. split; [|lia]. left. by rewrite <- Horder.
    + constructor; [split; [done|lia]|].
      eapply Forall_impl; [exact Hin|]. intros x (? & ? & ?).
      split; [done|lia].
    + constructor; [|done].
      eapply Forall_impl; [exact Hin|]. intros x (Hxbig & Hlo & Hhi) q [Hq Hq'].
      rewrite claims_big_iff in Hq by done.
      rewrite claims_big_iff in Hq' by done. lia.
    + constructor; [|done].
      eapply Forall_impl; [exact Hin|]. intros x (Hxbig & Hlo & Hhi) _. lia.
Qed.

Lemma load_did_element_valid did data_types (loaded : Cdd.DidObject F)
    (ds : list Data.t) :
  Cdd._load_did_element int did data_types = Cdd.Loaded loaded ->
  Forall (fun data => Cdd.byte_order data = "big_endian"%string
                      /\ exists l, Cdd.length data = Some l /\ 1 <= l)
    (Cdd.datas loaded) ->
  Forall2 describes (Cdd.datas loaded) ds ->
  valid_frame ds (Cdd.did_length loaded) /\ ascending ds.
Proof.
  intros Hload Hbig Hdesc.
  destruct (load_did_element_layout did data_types loaded Hload)
    as (end_ & Hback & -> & _).
  destruct (back_to_back_big _ 0 end_ ds Hback Hbig Hdesc)
    as (Hle & Hwf & Hin & Hdis & Hasc).
  split; [|done]. split; [|split; [done|split; [|done]]].
  - apply Z.div_pos; lia.
  - eapply Forall_impl; [exact Hin|]. intros d (_ & Hlo & Hhi).
    split; [lia|].
    pose proof (Z.div_mod (end_ + 7) 8 ltac:(lia)).
    pose proof (Z.mod_pos_bound (end_ + 7) 8 ltac:(lia)). lia.
Qed.

End LoaderProperties.

(** * What the loader leaves *)

Section LoaderChoices.

Import Utils Spec Props.

Context {Element : Type} {tree : ElementTree.Interface Element} {F : Type}.
Variables (int : string -> result Z) (float : string -> result F).
Variable fromstring : string -> Cdd.loading Element.

Lemma dict_set_keys {V : Type} (d : list (Z * V)) k v k' :
  k' ∈ (Cdd.dict_set d k v).*1 <-> k' ∈ d.*1 \/ k' = k.
Proof.
  induction d as [|[k0 v0] d IH]; cbn [Cdd.dict_set].
  - cbn. rewrite list_elem_of_singleton. split; [by right|].
    intros [?%elem_of_nil|?]; done.
  - destruct (decide (k0 = k)) as [->|Hne]; cbn [fmap list_fmap fst].
    + rewrite !elem_of_cons. tauto.
    + fold (@fmap list _ _ _ fst d). fold (@fmap list _ _ _ fst (Cdd.dict_set d k v)).
      rewrite !elem_of_cons, IH. tauto.
Qed.

Lemma dict_set_nodup {V : Type} (d : list (Z * V)) k v :
  NoDup d.*1 -> NoDup (Cdd.dict_set d k v).*1.
Proof.
  induction d as [|[k0 v0] d IH]; cbn [Cdd.dict_set]; intros Hd.
  - cbn. apply NoDup_singleton.
  - rewrite fmap_cons in Hd. apply NoDup_cons in Hd as [Hk0 Hd]. cbn in Hk0.
    destruct (decide (k0 = k)) as [->|Hne].
    + rewrite fmap_cons. by apply NoDup_cons.
    + rewrite fmap_cons. apply NoDup_cons. split; [|by apply IH].
      cbn. rewrite dict_set_keys. intros [?|?]; [done|]. by apply Hne.
Qed.

Lemma dict_set_elem {V : Type} (d : list (Z * V)) k v k' v' :
  (k', v') ∈ Cdd.dict_set d k v -> (k', v') ∈ d \/ (k' = k /\ v' = v).
Proof.
  induction d as [|[k0 v0] d IH]; cbn [Cdd.dict_set].
  - intros [= -> ->]%list_elem_of_singleton. by right.
  - destruct (decide (k0 = k)) as [->|Hne].
    + intros [[= -> ->]|Hin]%elem_of_cons; [by right|]. left. by right.
    + intros [[= -> ->]|Hin]%elem_of_cons; [left; by left|].
      destruct (IH Hin) as [?|?]; [left; by right|by right].
Qed.

Lemma dict_set_nonempty {V : Type} (d : list (Z * V)) k v :
  Cdd.dict_set d k v <> [].
Proof. destruct d as [|[k0 v0] d]; cbn; [done|]. by destruct (decide (k0 = k)). Qed.

(** The loop of [_load_choices]. *)
Lemma load_choices_loop choices :
  forall acc acc',
    Cdd.for_each
      (fun choices choice =>
         s ← Cdd.attrib_getitem (ElementTree.attrib choice) "s";
         start ← Cdd.lift (int (Cdd.strip ["("; ")"]%char s));
         e ← Cdd.attrib_getitem (ElementTree.attrib choice) "e";
         end_ ← Cdd.lift (int (Cdd.strip ["("; ")"]%char e));
         if start =? end_ then
           text ← Cdd.getattr (ElementTree.find choice "TEXT/TUV[1]") "text"
                    ElementTree.text;
           Cdd.Loaded (Cdd.dict_set choices start text)
         else Cdd.Loaded choices)
      choices acc = Cdd.Loaded acc' ->
    NoDup acc.*1 ->
    NoDup acc'.*1
    /\ (acc' = [] -> acc = [])
    /\ (forall k, k ∈ acc'.*1
                  <-> k ∈ acc.*1
                      \/ exists choice, choice ∈ choices
                                        /\ single_point int choice k)
    /\ (forall k t, (k, t) ∈ acc' ->
          (k, t) ∈ acc
          \/ exists choice tuv,
               choice ∈ choices /\ single_point int choice k
               /\ ElementTree.find choice "TEXT/TUV[1]" = Some tuv
               /\ ElementTree.text tuv = t).
Proof.
  induction choices as [|choice choices IH]; intros acc acc' H Hnodup.
  - injection H as <-. split; [done|]. split; [done|]. split.
    + intros k. split; [by left|]. intros [?|(c & ?%elem_of_nil & _)]; done.
    + intros k t Hin. by left.
  - cbn [Cdd.for_each] in H.
    apply loading_bind_loaded in H as (acc1 & Hstep & H).
    apply loading_bind_loaded in Hstep as (s & Hs%attrib_getitem_loaded & Hstep).
    apply loading_bind_loaded in Hstep as (start & Hstart%lift_loaded & Hstep).
    apply loading_bind_loaded in Hstep as (e & He%attrib_getitem_loaded & Hstep).
    apply loading_bind_loaded in Hstep as (end_ & Hend%lift_loaded & Hstep).
    assert (forall k, single_point int choice k <-> start = k /\ end_ = k)
      as Hsingle.
    { intros k. split.
      - intros (s' & e' & Hs' & Hk & He' & Hk'). split; congruence.
      - intros [<- <-]. by exists s, e. }
    destruct (start =? end_) eqn:Heq.
    + apply Z.eqb_eq in Heq. subst end_.
      apply loading_bind_loaded in Hstep as (text & Htext & Hstep).
      apply getattr_loaded in Htext as (tuv & Htuv & Htext).
      injection Hstep as <-.
      destruct (IH _ _ H (dict_set_nodup acc start text Hnodup))
        as (Hnd & Hne & Hkeys & Helems).
      split; [done|]. split; [|split].
      * intros Hnil. by destruct (dict_set_nonempty acc start text (Hne Hnil)).
      * intros k. rewrite Hkeys, dict_set_keys. split.
        -- intros [[?| ->]|(c & Hc & Hp)].
           ++ by left.
           ++ right. exists choice. split; [by left|]. by apply Hsingle.
           ++ right. exists c. split; [by right|done].
        -- intros [?|(c & [->|Hc]%elem_of_cons & Hp)].
           ++ left. by left.
           ++ left. right. by destruct (proj1 (Hsingle k) Hp).
           ++ right. by exists c.
      * intros k t Hin. destruct (Helems k t Hin) as [Hold|(c & u & Hc & Hp & Hu)].
        -- destruct (dict_set_elem _ _ _ _ _ Hold) as [?|[-> ->]]; [by left|].
           right. exists choice, tuv. split; [by left|].
           split; [by apply Hsingle|done].
        -- right. exists c, u. split; [by right|done].
    + apply Z.eqb_neq in Heq. injection Hstep as <-.
      destruct (IH _ _ H Hnodup) as (Hnd & Hne & Hkeys & Helems).
      split; [done|]. split; [done|]. split.
      * intros k. rewrite Hkeys. split.
        -- intros [?|(c & Hc & Hp)]; [by left|]. right. exists c.
           split; [by right|done].
        -- intros [?|(c & [->|Hc]%elem_of_cons & Hp)]; [by left| |].
           ++ destruct (proj1 (Hsingle k) Hp). congruence.
           ++ right. by exists c.
      * intros k t Hin. destruct (Helems k t Hin) as [?|(c & u & Hc & Hp)];
          [by left|]. right. exists c, u. split; [by right|done].
Qed.

Lemma load_choices_result data_type r :
  Cdd._load_choices int data_type = Cdd.Loaded r ->
  loaded_choices r
  /\ (forall k, k ∈ (default [] r).*1
                <-> exists choice,
                      choice ∈ ElementTree.findall data_type "TEXTMAP"
                      /\ single_point int choice k)
  /\ (forall k t, (k, t) ∈ default [] r ->
        exists choice tuv,
          choice ∈ ElementTree.findall data_type "TEXTMAP"
          /\ single_point int choice k
          /\ ElementTree.find choice "TEXT/TUV[1]" = Some tuv
          /\ ElementTree.text tuv = t).
Proof.
  unfold Cdd._load_choices. intros H.
  apply loading_bind_loaded in H as (choices & Hloop & H).
  destruct (load_choices_loop _ _ _ Hloop ltac:(constructor))
    as (Hnd & _ & Hkeys & Helems).
  injection H as <-.
  assert (default [] (match choices with [] => None | _ => Some choices end)
          = choices) as -> by (by destruct choices).
  split; [|split].
  - by destruct choices.
  - intros k. split.
    + intros Hk. apply Hkeys in Hk as [Hk|Hk]; [by apply elem_of_nil in Hk|done].
    + intros Hk. apply Hkeys. by right.
  - intros k t Hin. by destruct (Helems k t Hin) as [?%elem_of_nil|?].
Qed.

Lemma for_each_invariant {A S : Type} (P : S -> Prop)
    (body : S -> A -> Cdd.loading S) (l : list A) :
  (forall s x s1, P s -> body s x = Cdd.Loaded s1 -> P s1) ->
  forall s s', P s -> Cdd.for_each body l s = Cdd.Loaded s' -> P s'.
Proof.
  intros Hbody. induction l as [|x l IH]; intros s s' Hs H.
  - by injection H as <-.
  - cbn [Cdd.for_each] in H.
    apply loading_bind_loaded in H as (s1 & Hstep & H).
    by apply (IH s1 s' (Hbody s x s1 Hs Hstep)).
Qed.

Lemma load_byte_order_recognized bo_code byte_order :
  Cdd.load_byte_order bo_code = Ok byte_order -> recognized byte_order.
Proof.
  unfold Cdd.load_byte_order.
  destruct (String.eqb bo_code "21"); [intros [= <-]; by left|].
  destruct (String.eqb bo_code "12"); [intros [= <-]; by right|].
  discriminate.
Qed.

Lemma load_data_type_loaded data_type (loaded : Cdd.DataType F) :
  Cdd.load_data_type int float data_type = Cdd.Loaded loaded ->
  Cdd.dict_get (ElementTree.attrib data_type) "id" = Some (Cdd.dt_id_ loaded)
  /\ loaded_type loaded.
Proof.
  unfold Cdd.load_data_type. intros H.
  apply loading_bind_loaded in H as (type_name & _ & H).
  apply loading_bind_loaded in H as (type_id & Hid%attrib_getitem_loaded & H).
  apply loading_bind_loaded in H as (ctype_attrib & _ & H).
  apply loading_bind_loaded in H as ([[[bit_length encoding] minimum] maximum] & _ & H).
  apply loading_bind_loaded in H as (bo_code & _ & H).
  apply loading_bind_loaded in H as (byte_order & Hbo%lift_loaded & H).
  apply loading_bind_loaded in H as (choices & Hchoices & H).
  apply loading_bind_loaded in H as ([factor offset] & Hcomp & H).
  injection H as <-. split; [done|]. split; [|split].
  - by apply (load_byte_order_recognized bo_code).
  - by destruct (load_choices_result _ _ Hchoices) as [? _].
  - cbn [Cdd.dt_factor Cdd.dt_offset].
    destruct (ElementTree.find data_type "COMP") as [comp|].
    + apply loading_bind_loaded in Hcomp as (f & _ & Hcomp).
      apply loading_bind_loaded in Hcomp as (fv & _ & Hcomp).
      apply loading_bind_loaded in Hcomp as (o & _ & Hcomp).
      apply loading_bind_loaded in Hcomp as (ov & _ & Hcomp).
      injection Hcomp as <- <-. right. by exists fv, ov.
    + injection Hcomp as <- <-. by left.
Qed.

Lemma load_data_types_loaded ecu_doc (types : gmap string (Cdd.DataType F)) :
  Cdd._load_data_types int float ecu_doc = Cdd.Loaded types ->
  map_Forall (fun id data_type =>
                Cdd.dt_id_ data_type = id /\ loaded_type data_type) types.
Proof.
  unfold Cdd._load_data_types. intros H.
  apply loading_bind_loaded in H as (elems & _ & H).
  revert H. apply for_each_invariant; [|apply map_Forall_empty].
  intros acc data_type acc1 Hacc Hstep.
  apply loading_bind_loaded in Hstep as (loaded & Hloaded & Hstep).
  injection Hstep as <-.
  apply map_Forall_insert_2; [|done]. split; [done|].
  by destruct (load_data_type_loaded _ _ Hloaded).
Qed.

Lemma load_did_element_loaded did (data_types : gmap string (Cdd.DataType F))
    (loaded : Cdd.DidObject F) :
  map_Forall (fun id data_type =>
                Cdd.dt_id_ data_type = id /\ loaded_type data_type) data_types ->
  Cdd._load_did_element int did data_types = Cdd.Loaded loaded ->
  loaded_did loaded.
Proof.
  intros Htypes Hload.
  destruct (load_did_element_layout int did data_types loaded Hload)
    as (end_ & Hback & Hlen & Hall).
  exists end_. split; [done|]. split; [done|].
  clear Hback Hlen Hload.
  induction Hall as [|obj data objs datas (dtref & dt & _ & Htype & Hbuilt) _ IH];
    [constructor|].
  constructor; [|done].
  destruct (Htypes dtref dt Htype) as (_ & Hrec & Hch & _).
  by destruct Hbuilt as (_ & -> & _ & _ & _ & _ & _ & ->).
Qed.

Lemma load_string_loaded text (dids : list (Cdd.DidObject F)) :
  Cdd.load_string int float fromstring text = Cdd.Loaded dids ->
  Forall loaded_did dids.
Proof.
  unfold Cdd.load_string. intros H.
  apply loading_bind_loaded in H as (root & _ & H).
  apply loading_bind_loaded in H as (data_types & Htypes & H).
  apply load_data_types_loaded in Htypes.
  apply loading_bind_loaded in H as (ecus & _ & H).
  apply loading_bind_loaded in H as (ecu & _ & H).
  apply loading_bind_loaded in H as (diag_classes & _ & H).
  revert H. apply for_each_invariant; [|constructor].
  intros acc diag_class acc1 Hacc. apply for_each_invariant; [|done].
  intros acc' diag_inst acc2 Hacc' Hstep.
  apply loading_bind_loaded in Hstep as (did & Hdid & Hstep).
  injection Hstep as <-. apply Forall_app. split; [done|].
  constructor; [|constructor].
  by apply (load_did_element_loaded diag_inst data_types).
Qed.

End LoaderChoices.

(** * Properties of the codec *)

Section CodecProperties.

Import Utils Spec Props.

Lemma example_frame_integer :
  Forall (fun d => Data.is_float d = false) Examples.frame.
Proof. repeat (constructor; [reflexivity|]). constructor. Qed.

Lemma example_formats :
  create_encode_decode_formats Examples.frame 5
  = Ok (formats_of Examples.frame 5).
Proof. apply create_formats_programs. by destruct example_frame_valid as (_ & ? & _). Qed.

(** X1: in a valid frame declared in ascending order, the integer
    [encode_data] returns lies in [0, 2 ^ (8 * N)) and has no bit in
    common with the padding mask of the formats: encoding writes
    nothing outside the fields. *)
Theorem encode_data_keeps_padding_clear
    (datas : list Data.t) (N : Z) (formats : Formats)
    (data : gmap string value) (scaling : bool) (packed : Z) :
  valid_frame datas N -> ascending datas ->
  create_encode_decode_formats datas N = Ok formats ->
  encode_data data datas formats scaling = Ok packed ->
  0 <= packed < 2 ^ (8 * N) /\ Z.land packed (padding_mask formats) = 0.
Proof.
  intros Hvalid Hasc Hformats Henc.
  rewrite (create_formats_programs datas N) in Hformats
    by (by destruct Hvalid as (_ & ? & _)).
  injection Hformats as <-. by apply (encode_data_clear datas N data scaling).
Qed.

Lemma encode_data_keeps_padding_clear_witness :
  0 <= 78181827528 < 2 ^ (8 * 5)
  /\ Z.land 78181827528 (padding_mask (formats_of Examples.frame 5)) = 0.
Proof.
  apply (encode_data_keeps_padding_clear Examples.frame 5
           (formats_of Examples.frame 5) Examples.values true 78181827528
           example_frame_valid example_frame_ascending example_formats).
  by vm_compute.
Defined.

(** X2: in a valid frame declared in ascending order, with distinct
    names and fields of integer kind, raw integers that fit their
    fields round-trip exactly when scaling is off: decoding the bytes
    of the integer [encode_data] returns gives back the entries of the
    field names, and nothing else. *)
Theorem raw_values_round_trip
    (datas : list Data.t) (N : Z) (formats : Formats)
    (data : gmap string value) :
  valid_frame datas N -> ascending datas ->
  NoDup (Data.name <$> datas) ->
  Forall (raw_admissible data) datas ->
  create_encode_decode_formats datas N = Ok formats ->
  exists packed out,
    encode_data data datas formats false = Ok packed
    /\ decode_data (int_to_bytes N packed) datas formats false false = Ok out
    /\ forall n, out !! n
                 = if decide (n ∈ Data.name <$> datas) then data !! n else None.
Proof.
  intros Hvalid Hasc Hnames Hadm Hformats.
  rewrite (create_formats_programs datas N) in Hformats
    by (by destruct Hvalid as (_ & ? & _)).
  injection Hformats as <-. by apply raw_round_trip.
Qed.

Lemma example_raw_admissible :
  Forall (raw_admissible Cases.raw_data) Examples.frame.
Proof.
  repeat (constructor; [split; [reflexivity|by vm_compute]|]). constructor.
Qed.

Lemma raw_values_round_trip_witness :
  exists packed out,
    encode_data Cases.raw_data Examples.frame (formats_of Examples.frame 5) false
      = Ok packed
    /\ decode_data (int_to_bytes 5 packed) Examples.frame
         (formats_of Examples.frame 5) false false = Ok out
    /\ forall n, out !! n
                 = if decide (n ∈ Data.name <$> Examples.frame)
                   then Cases.raw_data !! n else None.
Proof.
  exact (raw_values_round_trip Examples.frame 5 (formats_of Examples.frame 5)
           Cases.raw_data example_frame_valid example_frame_ascending
           example_names_distinct example_raw_admissible example_formats).
Defined.

(** X3: in a valid frame declared in ascending order, with distinct
    names and fields of integer kind whose scale and offset are ints,
    decoding a buffer of [N] bytes never fails, whatever the bytes and
    the options: the dictionary it returns has an entry for each field
    name and no other, and each entry is the decoding of a raw integer
    that fits the field. *)
Theorem decode_data_total
    (datas : list Data.t) (N : Z) (formats : Formats) (buf : bytes)
    (decode_choices scaling : bool) :
  valid_frame datas N -> ascending datas ->
  NoDup (Data.name <$> datas) ->
  Forall (fun d => Data.is_float d = false) datas ->
  create_encode_decode_formats datas N = Ok formats ->
  Z.of_nat (length buf) = N ->
  exists out,
    decode_data buf datas formats decode_choices scaling = Ok out
    /\ (forall d, d ∈ datas ->
          exists v x, fits d v /\ out !! Data.name d = Some x
                      /\ _decode_field d v decode_choices scaling = Ok x)
    /\ (forall n, n ∉ Data.name <$> datas -> out !! n = None).
Proof.
  intros Hvalid Hasc Hnames Hfloat Hformats Hlen.
  rewrite (create_formats_programs datas N) in Hformats
    by (by destruct Hvalid as (_ & ? & _)).
  injection Hformats as <-. by apply decode_buffer.
Qed.

Lemma decode_data_total_witness :
  exists out,
    decode_data Cases.full_buffer Examples.frame (formats_of Examples.frame 5)
      true true = Ok out
    /\ (forall d, d ∈ Examples.frame ->
          exists v x, fits d v /\ out !! Data.name d = Some x
                      /\ _decode_field d v true true = Ok x)
    /\ (forall n, n ∉ Data.name <$> Examples.frame -> out !! n = None).
Proof.
  exact (decode_data_total Examples.frame 5 (formats_of Examples.frame 5)
           Cases.full_buffer true true example_frame_valid
           example_frame_ascending example_names_distinct
           example_frame_integer example_formats eq_refl).
Defined.

(** X4: in a valid frame declared in ascending order, with distinct
    names and fields of integer kind, decoding a buffer of [N] bytes
    and encoding the result, both without scaling, returns the integer
    of the buffer with the bits of the padding mask cleared: the fields
    hold every bit of the buffer outside the padding. *)
Theorem decode_encode_round_trip
    (datas : list Data.t) (N : Z) (formats : Formats) (buf : bytes) :
  valid_frame datas N -> ascending datas ->
  NoDup (Data.name <$> datas) ->
  Forall (fun d => Data.is_float d = false) datas ->
  create_encode_decode_formats datas N = Ok formats ->
  Z.of_nat (length buf) = N -> byte_values buf ->
  exists out,
    decode_data buf datas formats false false = Ok out
    /\ encode_data out datas formats false
       = Ok (Z.ldiff (uint_of_bytes buf) (padding_mask formats)).
Proof.
  intros Hvalid Hasc Hnames Hfloat Hformats Hlen Hbytes.
  rewrite (create_formats_programs datas N) in Hformats
    by (by destruct Hvalid as (_ & ? & _)).
  injection Hformats as <-. by apply decode_then_encode.
Qed.

Lemma full_buffer_bytes : byte_values Cases.full_buffer.
Proof. repeat (constructor; [lia|]). constructor. Qed.

Lemma decode_encode_round_trip_witness :
  exists out,
    decode_data Cases.full_buffer Examples.frame (formats_of Examples.frame 5)
      false false = Ok out
    /\ encode_data out Examples.frame (formats_of Examples.frame 5) false
       = Ok (Z.ldiff (uint_of_bytes Cases.full_buffer)
               (padding_mask (formats_of Examples.frame 5))).
Proof.
  exact (decode_encode_round_trip Examples.frame 5 (formats_of Examples.frame 5)
           Cases.full_buffer example_frame_valid example_frame_ascending
           example_names_distinct example_frame_integer example_formats
           eq_refl full_buffer_bytes).
Defined.

(** X5: for fields of a recognized byte order and at least one bit
    wide, decoding a buffer of fewer bytes than the frame has fails,
    whatever the options: unpacking raises, and [decode_data] lets the
    exception through.  Its class is that of the bitstruct
    implementation in use, and is left open. *)
Theorem decode_data_short_buffer
    (datas : list Data.t) (N : Z) (formats : Formats) (buf : bytes)
    (decode_choices scaling : bool) :
  Forall well_formed datas ->
  create_encode_decode_formats datas N = Ok formats ->
  Z.of_nat (length buf) < N ->
  exists e, decode_data buf datas formats decode_choices scaling = Raise e.
Proof.
  intros Hwf Hformats Hlen.
  rewrite (create_formats_programs datas N Hwf) in Hformats.
  injection Hformats as <-. eexists. by apply decode_short_buffer.
Qed.

Lemma decode_data_short_buffer_witness :
  exists e,
    decode_data Cases.short_buffer Examples.frame (formats_of Examples.frame 5)
      false true = Raise e.
Proof.
  apply (decode_data_short_buffer Examples.frame 5).
  - by destruct example_frame_valid as (_ & ? & _).
  - exact example_formats.
  - cbn. lia.
Defined.

(** X6: when the dictionary has no value for a field and every field
    declared before it encodes, [encode_data] raises [KeyError] with
    the name of that field, whatever the formats: nothing is packed. *)
Theorem encode_data_missing_value
    (data : gmap string value) (pre : list Data.t) (d : Data.t)
    (post : list Data.t) (formats : Formats) (scaling : bool) :
  (forall x, x ∈ pre -> exists r, _encode_field x data scaling = Ok r) ->
  data !! Data.name d = None ->
  encode_data data (pre ++ d :: post) formats scaling
  = Raise (KeyError (VStr (Data.name d))).
Proof. apply encode_data_missing. Qed.

Lemma encode_data_missing_value_witness :
  encode_data Cases.missing_data Examples.frame (formats_of Examples.frame 5)
    true = Raise (KeyError (VStr "B")).
Proof.
  apply (encode_data_missing_value Cases.missing_data [Examples.field_a]
           Examples.field_b [Examples.field_c; Examples.field_d]).
  - intros x ->%list_elem_of_singleton. exists 18. by vm_compute.
  - reflexivity.
Defined.

(** X7: for fields of a recognized byte order, at least one bit wide,
    of integer kind and with distinct names, encoding integers without
    scaling fails when one of them does not fit its field: packing
    raises, and a value is never truncated.  The class of the exception
    is that of the bitstruct implementation in use, and is left open. *)
Theorem encode_data_overflow_fails
    (datas : list Data.t) (N : Z) (formats : Formats)
    (data : gmap string value) (d : Data.t) (v : Z) :
  Forall well_formed datas ->
  NoDup (Data.name <$> datas) ->
  Forall (fun x => Data.is_float x = false) datas ->
  create_encode_decode_formats datas N = Ok formats ->
  (forall x, x ∈ datas -> exists u, data !! Data.name x = Some (VInt u)) ->
  d ∈ datas -> data !! Data.name d = Some (VInt v) -> ~ fits d v ->
  exists e, encode_data data datas formats false = Raise e.
Proof.
  intros Hwf Hnames Hfloat Hformats Hall Hd Hv Hfit.
  rewrite (create_formats_programs datas N Hwf) in Hformats.
  injection Hformats as <-. eexists.
  by apply (encode_data_overflow datas N data d v).
Qed.

Lemma encode_data_overflow_fails_witness :
  exists e,
    encode_data Cases.wide_data Examples.frame (formats_of Examples.frame 5)
      false = Raise e.
Proof.
  apply (encode_data_overflow_fails Examples.frame 5
           (formats_of Examples.frame 5) Cases.wide_data Examples.field_a 256).
  - by destruct example_frame_valid as (_ & ? & _).
  - exact example_names_distinct.
  - exact example_frame_integer.
  - exact example_formats.
  - intros x Hx. repeat (apply elem_of_cons in Hx as [->|Hx]; [by eexists|]).
    by apply elem_of_nil in Hx.
  - by left.
  - reflexivity.
  - cbn. lia.
Defined.

(** X8: for a field of integer kind whose scale and offset are ints,
    the scale other than zero, and a raw integer with [|scale * raw| <
    10 ^ 27], encoding the number [_decode_field] returns for the raw
    integer gives the raw integer back: scaling loses nothing on
    decoded values. *)
Theorem encode_field_inverts_decode_field
    (field : Data.t) (raw : Z) (data : gmap string value) :
  Data.is_float field = false -> Data.scale field <> 0 ->
  Z.abs (Data.scale field * raw) < 10 ^ 27 ->
  data !! Data.name field
    = Some (VInt (Data.scale field * raw + Data.offset field)) ->
  _decode_field field raw false true
    = Ok (VInt (Data.scale field * raw + Data.offset field))
  /\ _encode_field field data true = Ok raw.
Proof. apply encode_decoded_field. Qed.

Lemma encode_field_inverts_decode_field_witness :
  _decode_field Examples.field_c (-3) false true = Ok (VInt (-5))
  /\ _encode_field Examples.field_c {[ "C"%string := VInt (-5) ]} true
     = Ok (-3).
Proof.
  apply (encode_field_inverts_decode_field Examples.field_c (-3)
           {[ "C"%string := VInt (-5) ]}).
  - reflexivity.
  - cbn. lia.
  - cbn. lia.
  - reflexivity.
Defined.

(** X9: [create_encode_decode_formats] succeeds when every field is at
    least one bit wide, whatever the byte-order tags, the positions and
    the order of the fields; and it fails with bitstruct's error when a
    field has a width of zero or less. *)
Theorem formats_need_positive_widths (datas : list Data.t) (N : Z) :
  (Forall (fun d => 0 < Data.length d) datas ->
   exists formats, create_encode_decode_formats datas N = Ok formats)
  /\ (Exists (fun d => Data.length d <= 0) datas ->
      create_encode_decode_formats datas N = Raise BitstructError).
Proof. apply formats_widths. Qed.

(** X10: each layout is built from the fields of its byte order only:
    [create_big] skips the fields tagged little-endian and nothing
    else, [create_little] those tagged big-endian and nothing else, so
    that a field with any other tag is laid out by both.  The names the
    big-endian layout binds are those of its fields in declaration
    order, the names of the little-endian layout those of its fields in
    reverse order. *)
Theorem layouts_split_by_byte_order (datas : list Data.t) (W : Z) :
  create_big datas W = create_big (filter in_big_layout datas) W
  /\ create_little datas W = create_little (filter in_little_layout datas) W
  /\ names (create_big_items datas W)
     = Data.name <$> filter in_big_layout datas
  /\ names (create_little_items datas W)
     = Data.name <$> reverse (filter in_little_layout datas).
Proof.
  destruct (layouts_by_byte_order datas W) as (Hb & Hl & _ & Hln).
  repeat (split; [done|]). split; [|done].
  by destruct (create_big_items_built datas W) as (_ & -> & _).
Qed.

End CodecProperties.

(** * Properties of the conversion, the formatting and the loader *)

Section Conversions.

Import Utils Spec Props.




End Conversions.

Section LoaderTheorems.

Import Utils Spec Props.

Context {Element : Type} {tree : ElementTree.Interface Element} {F : Type}.
Variables (int : string -> result Z) (float : string -> result F).
Variable fromstring : string -> Cdd.loading Element.






End LoaderTheorems.

Section LoaderWitnesses.

Import Utils Spec Props.






End LoaderWitnesses.
